(** * M5PomodoroNG asset tools: WAV writer, WAV header parser, byte-array encoder

    Shallow embedding of [tools/generate_sounds.py] and [tools/wav2array.py].

    Python values are modelled as follows:
    - [int] is [Z] (unbounded);
    - [bytes] is [list byte]; a slice [data[lo:hi]] with non-negative bounds
      is [slice data lo hi], clipped to the buffer like Python's;
    - [str] is [string];
    - [float] is an IEEE-754 binary64 value, a [spec_float] of the
      prover's own specification of floating-point arithmetic, with
      [SFmul] and [SFdiv] as the correctly rounded operations;
    - the C library's [sin], which [math.sin] calls, is a parameter
      [libm_sin] of the tone generator;
    - an exception is a value of [py_error] returned through [result];
    - the file written by [write_wav] is the list of bytes handed to
      [f.write] so far, kept even when a later statement raises;
    - a run of [wav2array.main] is its standard output, standard error and
      exit status, in an environment that says which paths exist, what
      reading a file gives or raises, and whether printing the result
      breaks off; a run of [generate_sounds.main] is the list of files it
      wrote, in order, and whether it returned; paths follow POSIX. *)

From Stdlib Require Import ZArith List Lia Bool String Ascii.
From Stdlib.Strings Require Import Byte.
From Stdlib Require Import DecimalString.
From Stdlib Require Import SpecFloat.
From Equations Require Import Equations.
Import ListNotations.

Open Scope Z_scope.

(** ** Python runtime: exceptions, bytes, [struct] *)

Inductive py_error : Type :=
| ValueError (msg : string)
| StructError
| ZeroDivisionError
| OverflowError.

Inductive result (A : Type) : Type :=
| Ok (a : A)
| Raise (e : py_error).
Arguments Ok {A} a.
Arguments Raise {A} e.

Definition bytes : Type := list byte.

(** [len(x)] *)
Definition len {A : Type} (l : list A) : Z := Z.of_nat (List.length l).

(** [x[lo:hi]] for [0 <= lo], [0 <= hi]. *)
Definition slice {A : Type} (l : list A) (lo hi : Z) : list A :=
  firstn (Z.to_nat (hi - lo)) (skipn (Z.to_nat lo) l).

(** A bytes literal [b'...']. *)
Definition b (s : string) : bytes := list_byte_of_string s.

Fixpoint bytes_eqb (x y : bytes) : bool :=
  match x, y with
  | [], [] => true
  | c :: x', d :: y' => Byte.eqb c d && bytes_eqb x' y'
  | _, _ => false
  end.

Definition byte_val (c : byte) : Z := Z.of_N (Byte.to_N c).

Definition byte_of (z : Z) : byte :=
  match Byte.of_N (Z.to_N (z mod 256)) with
  | Some c => c
  | None => x00
  end.

(** Little-endian value of a byte string. *)
Fixpoint le_decode (bs : bytes) : Z :=
  match bs with
  | [] => 0
  | c :: r => byte_val c + 256 * le_decode r
  end.

(** The [n] low-order bytes of [z], least significant first
    (two's complement for negative [z]). *)
Fixpoint le_encode (n : nat) (z : Z) : bytes :=
  match n with
  | O => []
  | S k => byte_of z :: le_encode k (z / 256)
  end.

Module struct.

(** [struct.pack('<I', z)] *)
Definition pack_I (z : Z) : result bytes :=
  if (0 <=? z) && (z <=? 4294967295) then Ok (le_encode 4 z)
  else Raise StructError.

(** [struct.pack('<H', z)] *)
Definition pack_H (z : Z) : result bytes :=
  if (0 <=? z) && (z <=? 65535) then Ok (le_encode 2 z)
  else Raise StructError.

(** [struct.pack('<h', z)] *)
Definition pack_h (z : Z) : result bytes :=
  if (-32768 <=? z) && (z <=? 32767) then Ok (le_encode 2 z)
  else Raise StructError.

(** [struct.unpack('<I', bs)[0]] *)
Definition unpack_I (bs : bytes) : result Z :=
  if (List.length bs =? 4)%nat then Ok (le_decode bs) else Raise StructError.

(** [struct.unpack('<H', bs)[0]] *)
Definition unpack_H (bs : bytes) : result Z :=
  if (List.length bs =? 2)%nat then Ok (le_decode bs) else Raise StructError.

End struct.

Lemma byte_val_range (c : byte) : 0 <= byte_val c <= 255.
Proof.
  unfold byte_val. pose proof (Byte.to_N_bounded c). lia.
Qed.

Lemma le_decode_nonneg (bs : bytes) : 0 <= le_decode bs.
Proof.
  induction bs as [|c r IH]; cbn [le_decode]; [lia|].
  pose proof (byte_val_range c). lia.
Qed.

(** ** Python [float] and [math] *)

Module float.

Definition prec : Z := 53.
Definition emax : Z := 1024.

(** An [int] operand of a true division, as an exact mantissa that has
    not been rounded. *)
Definition exact (z : Z) : spec_float :=
  match z with
  | Z0 => S754_zero false
  | Zpos p => S754_finite false p 0
  | Zneg p => S754_finite true p 0
  end.

(** [a / c] for two [int]s: the quotient, rounded once to nearest even. *)
Definition truediv (a c : Z) : result spec_float :=
  if c =? 0 then Raise ZeroDivisionError
  else match SFdiv prec emax (exact a) (exact c) with
       | S754_infinity _ => Raise OverflowError
       | q => Ok q
       end.

(** The [int] operand of a mixed product [x * n] or [n * x], converted. *)
Definition of_int (z : Z) : result spec_float :=
  match binary_normalize prec emax z 0 false with
  | S754_infinity _ => Raise OverflowError
  | x => Ok x
  end.

(** [x * y] *)
Definition mul (x y : spec_float) : spec_float := SFmul prec emax x y.

(** [int(x)]: truncation toward zero. *)
Definition to_int (x : spec_float) : result Z :=
  match x with
  | S754_zero _ => Ok 0
  | S754_finite s m e =>
    let v := if 0 <=? e then Zpos m * 2 ^ e else Zpos m / 2 ^ (- e) in
    Ok (if s then - v else v)
  | S754_infinity _ => Raise OverflowError
  | S754_nan => Raise (ValueError "cannot convert float NaN to integer")
  end.

Definition is_nan (x : spec_float) : bool :=
  match x with S754_nan => true | _ => false end.

Definition is_inf (x : spec_float) : bool :=
  match x with S754_infinity _ => true | _ => false end.

Definition is_finite (x : spec_float) : bool := negb (is_nan x || is_inf x).

End float.

Module math.

(** [math.pi], the double 0x1.921fb54442d18p+1. *)
Definition pi : spec_float := S754_finite false 7074237752028440 (-51).

(** [math.sin(x)] around the C library's [sin]: CPython raises when the
    library answers NaN to an argument that is not NaN, or an infinity to
    a finite argument. *)
Definition sin (libm_sin : spec_float -> spec_float) (x : spec_float)
    : result spec_float :=
  let r := libm_sin x in
  if float.is_nan r && negb (float.is_nan x)
  then Raise (ValueError "math domain error")
  else if float.is_inf r && float.is_finite x
  then Raise (ValueError "math domain error")
  else Ok r.

End math.

(** ** Python [str] methods and [os.path] (POSIX) *)

(** [s.startswith(prefix)] *)
Definition startswith (s prefix : string) : bool := String.prefix prefix s.

(** [s.endswith(suffix)] *)
Definition endswith (s suffix : string) : bool :=
  (String.length suffix <=? String.length s)%nat
  && String.eqb
       (substring (String.length s - String.length suffix)
                  (String.length suffix) s)
       suffix.

(** [c.lower()] on the letters A-Z; any other character is kept, which
    leaves a test for the suffix [.wav] as Python decides it. *)
Definition lower_char (c : ascii) : ascii :=
  let n := nat_of_ascii c in
  if (65 <=? n)%nat && (n <=? 90)%nat then ascii_of_nat (n + 32) else c.

(** [s.lower()] *)
Fixpoint lower (s : string) : string :=
  match s with
  | EmptyString => EmptyString
  | String c rest => String (lower_char c) (lower rest)
  end.

(** ['/' in s] *)
Fixpoint has_slash (s : string) : bool :=
  match s with
  | EmptyString => false
  | String c rest => Ascii.eqb c "/"%char || has_slash rest
  end.

(** [s == '/' * len(s)] *)
Fixpoint all_slashes (s : string) : bool :=
  match s with
  | EmptyString => true
  | String c rest => Ascii.eqb c "/"%char && all_slashes rest
  end.

(** [s.rstrip('/')] *)
Fixpoint rstrip_slash (s : string) : string :=
  match s with
  | EmptyString => EmptyString
  | String c rest =>
    match rstrip_slash rest with
    | EmptyString =>
      if Ascii.eqb c "/"%char then EmptyString else String c EmptyString
    | stripped => String c stripped
    end
  end.

Module os_path.

(** [p[:p.rfind('/') + 1]]: [p] up to its last slash, the slash included. *)
Fixpoint head (p : string) : string :=
  match p with
  | EmptyString => EmptyString
  | String c rest =>
    if has_slash p then String c (head rest) else EmptyString
  end.

(** [os.path.dirname(p)] *)
Definition dirname (p : string) : string :=
  let head := head p in
  if negb (String.eqb head EmptyString) && negb (all_slashes head)
  then rstrip_slash head
  else head.

(** One round of the loop of [os.path.join]: [part] is appended to
    [path], or replaces it when it is absolute. *)
Definition join_part (path part : string) : string :=
  if startswith part "/" then part
  else if String.eqb path EmptyString || endswith path "/"
  then (path ++ part)%string
  else (path ++ "/" ++ part)%string.

(** [os.path.join(a, *parts)] *)
Definition join (a : string) (parts : list string) : string :=
  fold_left join_part parts a.

End os_path.

(** ** tools/wav2array.py *)

Module wav2array.

(** The dictionary returned by [read_wav_header]. *)
Record header_info : Type := mk_header_info {
  format : Z;
  channels : Z;
  sample_rate : Z;
  bits_per_sample : Z;
  chunk_size : Z
}.

Definition missing_riff : py_error :=
  ValueError "Not a valid WAV file (missing RIFF header)".
Definition missing_wave : py_error :=
  ValueError "Not a valid WAV file (missing WAVE marker)".
Definition no_fmt_chunk : py_error :=
  ValueError "No fmt chunk found in WAV file".

(** What one pass through the body of the [while] loop does. *)
Inductive iteration : Type :=
| Return (info : header_info)
| Continue (pos : Z)
| Fail (e : py_error).

(** The [# Parse format chunk] block, lines 34-45. *)
Definition parse_fmt (data : bytes) (pos size : Z) : result header_info :=
  match struct.unpack_H (slice data (pos + 8) (pos + 10)) with
  | Raise e => Raise e
  | Ok audio_format =>
    match struct.unpack_H (slice data (pos + 10) (pos + 12)) with
    | Raise e => Raise e
    | Ok num_channels =>
      match struct.unpack_I (slice data (pos + 12) (pos + 16)) with
      | Raise e => Raise e
      | Ok rate =>
        match struct.unpack_H (slice data (pos + 22) (pos + 24)) with
        | Raise e => Raise e
        | Ok bits =>
          Ok {| format := audio_format;
                channels := num_channels;
                sample_rate := rate;
                bits_per_sample := bits;
                chunk_size := size |}
        end
      end
    end
  end.

(** Body of the [while] loop, lines 29-50. *)
Definition loop_body (data : bytes) (pos : Z) : iteration :=
  let chunk_id := slice data pos (pos + 4) in
  match struct.unpack_I (slice data (pos + 4) (pos + 8)) with
  | Raise e => Fail e
  | Ok size =>
    if bytes_eqb chunk_id (b "fmt ") then
      match parse_fmt data pos size with
      | Ok info => Return info
      | Raise e => Fail e
      end
    else
      let pos := pos + 8 + size in
      if size mod 2 =? 1 then Continue (pos + 1) else Continue pos
  end.

Lemma loop_body_advances data pos pos' :
  loop_body data pos = Continue pos' -> pos + 8 <= pos'.
Proof.
  unfold loop_body, struct.unpack_I.
  destruct (List.length _ =? 4)%nat; [|discriminate].
  pose proof (le_decode_nonneg (slice data (pos + 4) (pos + 8))).
  destruct (bytes_eqb _ _).
  - destruct (parse_fmt _ _ _); discriminate.
  - destruct (_ mod 2 =? 1); intros [= <-]; lia.
Qed.

(** Keeps the equation of a scrutinee in scope for the termination proof. *)
Definition inspect {A : Type} (a : A) : {x : A | a = x} := exist _ a eq_refl.

(** The [while pos < len(data) - 8] loop, lines 28-52, entered at [pos]. *)
Equations? find_fmt_chunk (data : bytes) (pos : Z) : result header_info
  by wf (Z.to_nat (len data - pos)) lt :=
  find_fmt_chunk data pos with Z_lt_dec pos (len data - 8) => {
    | right _ => Raise no_fmt_chunk
    | left _ with inspect (loop_body data pos) => {
        | exist _ (Return info) _ => Ok info
        | exist _ (Fail e) _ => Raise e
        | exist _ (Continue pos') _ => find_fmt_chunk data pos' } }.
Proof.
  match goal with H : loop_body _ _ = Continue _ |- _ =>
    apply loop_body_advances in H end.
  lia.
Qed.

Definition read_wav_header (data : bytes) : result header_info :=
  if negb (bytes_eqb (slice data 0 4) (b "RIFF")) then Raise missing_riff
  else if negb (bytes_eqb (slice data 8 12) (b "WAVE")) then Raise missing_wave
  else find_fmt_chunk data 12.

Local Open Scope string_scope.

(** [str(n)] for an integer, as an f-string renders it. *)
Definition str (z : Z) : string := NilZero.string_of_int (Z.to_int z).

Definition nl : string := String "010"%char EmptyString.

(** [os.path.basename] (POSIX): what follows the last slash. *)
Fixpoint basename_from (path acc : string) : string :=
  match path with
  | EmptyString => acc
  | String c rest =>
    if Ascii.eqb c "/"%char then basename_from rest EmptyString
    else basename_from rest (acc ++ String c EmptyString)
  end.
Definition basename (path : string) : string := basename_from path EmptyString.

Definition hex_digit (n : Z) : ascii :=
  nth (Z.to_nat n) (list_ascii_of_string "0123456789ABCDEF") "0"%char.

(** [f"0x{b:02X}"] *)
Definition hex_literal (c : byte) : string :=
  "0x" ++ String (hex_digit (byte_val c / 16))
            (String (hex_digit (byte_val c mod 16)) EmptyString).

(** [range(start, stop, step)] unrolled to [n] elements. *)
Fixpoint range_from (n : nat) (start step : Z) : list Z :=
  match n with
  | O => []
  | S k => start :: range_from k (start + step) step
  end.

(** [range(0, stop, 16)] *)
Definition range16 (stop : Z) : list Z :=
  range_from (Z.to_nat ((stop + 15) / 16)) 0 16.

(** Body of the [for i in range(0, len(data), 16)] loop, lines 75-80. *)
Definition emit_row (data : bytes) (output : string) (i : Z) : string :=
  let chunk := slice data i (i + 16) in
  let hex_bytes := String.concat ", " (map hex_literal chunk) in
  let output := output ++ "    " ++ hex_bytes in
  let output := if (i + 16 <? len data)%Z then output ++ "," else output in
  output ++ nl.

(** The whole [for] loop, lines 74-80, appending to [output]. *)
Definition emit_rows (data : bytes) (output : string) : string :=
  fold_left (emit_row data) (range16 (len data)) output.

(** [wav_to_c_array(wav_file, var_name)], where [data] is what
    [f.read()] returned for [wav_file] (lines 57-58). *)
Definition wav_to_c_array (wav_file : string) (data : bytes)
    (var_name : string) : result string :=
  match read_wav_header data with
  | Raise e => Raise e
  | Ok header_info =>
    let output := "// " ++ basename wav_file ++ nl in
    let output := output ++ "// Format: " ++ str (channels header_info)
                         ++ " channel(s), " in
    let output := output ++ str (sample_rate header_info) ++ " Hz, " in
    let output := output ++ str (bits_per_sample header_info) ++ "-bit" ++ nl in
    let output := output ++ "// Size: " ++ str (len data) ++ " bytes" ++ nl ++ nl in
    let output := output ++ "const uint8_t PROGMEM " ++ var_name ++ "[] = {" ++ nl in
    let output := emit_rows data output in
    let output := output ++ "};" ++ nl in
    let output := output ++ "const uint32_t " ++ var_name ++ "_len = sizeof("
                         ++ var_name ++ ");" ++ nl in
    Ok output
  end.

(** [str(e)] in [except Exception as e]: the message of a [ValueError];
    [library_text] gives the text of the exceptions that the library
    raises. *)
Definition error_text (library_text : py_error -> string) (e : py_error)
    : string :=
  match e with
  | ValueError msg => msg
  | _ => library_text e
  end.

(** What a run of the script leaves behind. *)
Record process : Type := mk_process {
  stdout : string;
  stderr : string;
  exit_status : Z
}.

(** The three lines printed when the argument count is wrong. *)
Definition usage : string :=
  "Usage: python wav2array.py <input.wav> <variable_name>" ++ nl
    ++ nl ++ "Example:" ++ nl
    ++ "  python wav2array.py work_start.wav wav_work_start" ++ nl.

(** What a run finds outside the program. [path_exists] is
    [os.path.exists]. [read_file] is [open(path, 'rb')] followed by
    [f.read()]: the content of the file, or the text [str(e)] of the
    exception raised. [print_breaks text] is [print(text)] on standard
    output: [None] when the text and its line feed are written,
    [Some (n, message)] when an exception with the text [message] is
    raised once [n] characters have been written. Writes to standard
    error are taken to go through. *)
Record environment : Type := mk_environment {
  path_exists : string -> bool;
  read_file : string -> bytes + string;
  print_breaks : string -> option (nat * string)
}.

(** [main()] run with [sys.argv = argv]. Everything inside the [try] of
    lines 105-110 can raise into its [except] branch: reading the file,
    [read_wav_header], and printing the result. *)
Definition main (library_text : py_error -> string) (env : environment)
    (argv : list string) : process :=
  match argv with
  | [_; wav_file; var_name] =>
    if negb (path_exists env wav_file) then
      {| stdout := EmptyString;
         stderr := "Error: File '" ++ wav_file ++ "' not found" ++ nl;
         exit_status := 1 |}
    else
      let warning :=
        if negb (endswith (lower wav_file) ".wav")
        then "Warning: File doesn't have .wav extension" ++ nl
        else EmptyString in
      let failed (written message : string) :=
        {| stdout := written;
           stderr := warning ++ "Error: " ++ message ++ nl;
           exit_status := 1 |} in
      match read_file env wav_file with
      | inr message => failed EmptyString message
      | inl data =>
        match wav_to_c_array wav_file data var_name with
        | Raise e => failed EmptyString (error_text library_text e)
        | Ok result =>
          match print_breaks env result with
          | Some (n, message) =>
            failed (substring 0 n (result ++ nl)) message
          | None =>
            {| stdout := result ++ nl; stderr := warning; exit_status := 0 |}
          end
        end
      end
  | _ => {| stdout := EmptyString; stderr := usage; exit_status := 1 |}
  end.

End wav2array.

(** ** tools/generate_sounds.py *)

Module generate_sounds.

Notation "'let?' x ':=' e 'in' k" :=
  (match e with Ok x => k | Raise err => Raise err end)
  (at level 10, x name, e at level 100, k at level 200).

(** [range(n)] *)
Definition range (n : Z) : list Z := map Z.of_nat (seq 0 (Z.to_nat n)).

(** The default [amplitude=0.3], the double 0x1.3333333333333p-2. *)
Definition default_amplitude : spec_float :=
  S754_finite false 5404319552844595 (-54).

Section Tone.
Variable libm_sin : spec_float -> spec_float.

(** Body of the loop of [generate_tone], lines 31-34, for index [i]. *)
Definition tone_sample (frequency sample_rate : Z) (amplitude : spec_float)
    (i : Z) : result Z :=
  let? t := float.truediv i sample_rate in
  let? two := float.of_int 2 in
  let? freq := float.of_int frequency in
  let? s := math.sin libm_sin
              (float.mul (float.mul (float.mul two math.pi) freq) t) in
  let value := float.mul amplitude s in
  let? full_scale := float.of_int 32767 in
  float.to_int (float.mul value full_scale).

(** The loop [for i in range(num_samples)], appending to [samples]. *)
Fixpoint tone_loop (frequency sample_rate : Z) (amplitude : spec_float)
    (indices : list Z) (samples : list Z) : result (list Z) :=
  match indices with
  | [] => Ok samples
  | i :: rest =>
    let? sample := tone_sample frequency sample_rate amplitude i in
    tone_loop frequency sample_rate amplitude rest (samples ++ [sample])
  end.

Definition generate_tone (frequency duration_ms sample_rate : Z)
    (amplitude : spec_float) : result (list Z) :=
  let? quotient := float.truediv (sample_rate * duration_ms) 1000 in
  let? num_samples := float.to_int quotient in
  tone_loop frequency sample_rate amplitude (range num_samples) [].

End Tone.

Definition generate_silence (duration_ms sample_rate : Z) : result (list Z) :=
  let? quotient := float.truediv (sample_rate * duration_ms) 1000 in
  let? num_samples := float.to_int quotient in
  Ok (repeat 0 (Z.to_nat num_samples)).

(** Statements inside [with open(filename, 'wb') as f]: they see the
    bytes written so far and either go on or raise; what was written
    stays in the file either way. *)
Definition io (A : Type) : Type := bytes -> bytes * result A.

Definition ret {A : Type} (a : A) : io A := fun file => (file, Ok a).

Definition bind {A B : Type} (m : io A) (k : A -> io B) : io B :=
  fun file =>
    match m file with
    | (file', Ok a) => k a file'
    | (file', Raise e) => (file', Raise e)
    end.

(** [f.write(bs)] *)
Definition f_write (bs : bytes) : io unit := fun file => (file ++ bs, Ok tt).

(** [f.write(e)] where evaluating the argument [e] may raise. *)
Definition f_write_packed (packed : result bytes) : io unit :=
  fun file =>
    match packed with
    | Ok bs => f_write bs file
    | Raise e => (file, Raise e)
    end.

Notation "m ;; k" := (bind m (fun _ => k))
  (at level 61, right associativity).

(** [for sample in samples: f.write(struct.pack('<h', sample))] *)
Fixpoint write_samples (samples : list Z) : io unit :=
  match samples with
  | [] => ret tt
  | sample :: rest =>
    f_write_packed (struct.pack_h sample) ;; write_samples rest
  end.

(** What [write_wav] leaves behind: the content of the file at
    [filename] and whether the call returned or raised. *)
Record written : Type := mk_written {
  file : bytes;
  outcome : result unit
}.

Definition default_sample_rate : Z := 16000.

Definition write_wav (filename : string) (samples : list Z)
    (sample_rate : Z) : written :=
  let num_samples := len samples in
  let bits_per_sample := 16 in
  let num_channels := 1 in
  let byte_rate := sample_rate * num_channels * bits_per_sample / 8 in
  let block_align := num_channels * bits_per_sample / 8 in
  let data_size := num_samples * block_align in
  let body : io unit :=
    f_write (b "RIFF") ;;
    f_write_packed (struct.pack_I (36 + data_size)) ;;
    f_write (b "WAVE") ;;
    f_write (b "fmt ") ;;
    f_write_packed (struct.pack_I 16) ;;
    f_write_packed (struct.pack_H 1) ;;
    f_write_packed (struct.pack_H num_channels) ;;
    f_write_packed (struct.pack_I sample_rate) ;;
    f_write_packed (struct.pack_I byte_rate) ;;
    f_write_packed (struct.pack_H block_align) ;;
    f_write_packed (struct.pack_H bits_per_sample) ;;
    f_write (b "data") ;;
    f_write_packed (struct.pack_I data_size) ;;
    write_samples samples in
  match body [] with
  | (content, Raise e) => {| file := content; outcome := Raise e |}
  | (content, Ok _) =>
    (* line 86: the summary divides [num_samples] by [sample_rate] *)
    if sample_rate =? 0
    then {| file := content; outcome := Raise ZeroDivisionError |}
    else {| file := content; outcome := Ok tt |}
  end.

Section Sounds.
Variable libm_sin : spec_float -> spec_float.

(** [samples += generate_tone(frequency, duration_ms)] *)
Definition add_tone (samples : list Z) (frequency duration_ms : Z)
    : result (list Z) :=
  let? tone := generate_tone libm_sin frequency duration_ms
                 default_sample_rate default_amplitude in
  Ok (samples ++ tone).

(** [samples += generate_silence(duration_ms)] *)
Definition add_silence (samples : list Z) (duration_ms : Z)
    : result (list Z) :=
  let? silence := generate_silence duration_ms default_sample_rate in
  Ok (samples ++ silence).

Definition generate_work_start : result (list Z) :=
  let samples := [] in
  let? samples := add_tone samples 800 150 in
  let? samples := add_silence samples 50 in
  let? samples := add_tone samples 1000 150 in
  let? samples := add_silence samples 50 in
  let? samples := add_tone samples 1200 200 in
  Ok samples.

Definition generate_rest_start : result (list Z) :=
  let samples := [] in
  let? samples := add_tone samples 1000 150 in
  let? samples := add_silence samples 50 in
  let? samples := add_tone samples 600 200 in
  Ok samples.

Definition generate_long_rest_start : result (list Z) :=
  let samples := [] in
  let? samples := add_tone samples 1200 150 in
  let? samples := add_silence samples 50 in
  let? samples := add_tone samples 800 150 in
  let? samples := add_silence samples 50 in
  let? samples := add_tone samples 500 300 in
  Ok samples.

Definition generate_warning : result (list Z) :=
  let samples := [] in
  let? samples := add_tone samples 1500 100 in
  let? samples := add_silence samples 100 in
  let? samples := add_tone samples 1500 100 in
  Ok samples.

(** The loop [for filename, samples in sounds.items()], lines 145-147:
    the files written so far, oldest first, and whether the loop went
    through; a call of [write_wav] that raises leaves its file behind
    and ends the loop. *)
Fixpoint write_sounds (output_dir : string)
    (sounds : list (string * list Z)) (done : list (string * bytes))
    : list (string * bytes) * result unit :=
  match sounds with
  | [] => (done, Ok tt)
  | (filename, samples) :: rest =>
    let filepath := os_path.join output_dir [filename] in
    let w := write_wav filepath samples default_sample_rate in
    match outcome w with
    | Raise e => (done ++ [(filepath, file w)], Raise e)
    | Ok _ => write_sounds output_dir rest (done ++ [(filepath, file w)])
    end
  end.

(** [main()], where [script_path] is [__file__] and the output directory
    can be created: the files written, oldest first, and whether the
    call returned. *)
Definition main (script_path : string)
    : list (string * bytes) * result unit :=
  let output_dir :=
    os_path.join (os_path.dirname script_path)
                 [".."; "data"; "audio"]%string in
  match generate_work_start with
  | Raise e => ([], Raise e)
  | Ok work_start =>
    match generate_rest_start with
    | Raise e => ([], Raise e)
    | Ok rest_start =>
      match generate_long_rest_start with
      | Raise e => ([], Raise e)
      | Ok long_rest_start =>
        match generate_warning with
        | Raise e => ([], Raise e)
        | Ok warning =>
          let sounds := [("work_start.wav"%string, work_start);
                         ("rest_start.wav"%string, rest_start);
                         ("long_rest_start.wav"%string, long_rest_start);
                         ("warning.wav"%string, warning)] in
          write_sounds output_dir sounds []
        end
      end
    end
  end.

End Sounds.

End generate_sounds.

(** ** Vocabulary used to state the properties *)

Section Vocabulary.
Import wav2array.

(** Closed 16-bit signed range accepted by [struct.pack('<h', _)]. *)
Definition int16 (z : Z) : Prop := -32768 <= z <= 32767.

Definition riff_wave_prefix (data : bytes) : Prop :=
  slice data 0 4 = b "RIFF" /\ slice data 8 12 = b "WAVE".

(** The invalid-container error kind: either marker is missing. *)
Definition invalid_container (e : py_error) : Prop :=
  e = missing_riff \/ e = missing_wave.

Definition chunk_id_at (data : bytes) (pos : Z) : bytes :=
  slice data pos (pos + 4).

Definition chunk_size_at (data : bytes) (pos : Z) : Z :=
  le_decode (slice data (pos + 4) (pos + 8)).

(** Offset after the chunk at [pos]: header, payload, pad byte if odd. *)
Definition next_chunk (data : bytes) (pos : Z) : Z :=
  pos + 8 + chunk_size_at data pos + chunk_size_at data pos mod 2.

(** Bytes left in the buffer from offset [pos] on. *)
Definition remaining (data : bytes) (pos : Z) : Z := len data - pos.

(** Offsets at which the chunk scan arrives: offset 12, then past every
    chunk whose header was read and whose id is not [fmt ]. *)
Inductive scan_reaches (data : bytes) : Z -> Prop :=
| scan_start : scan_reaches data 12
| scan_skip (pos : Z) :
    scan_reaches data pos ->
    pos < len data - 8 ->
    chunk_id_at data pos <> b "fmt " ->
    scan_reaches data (next_chunk data pos).

(** The descriptor read from a [fmt ] chunk that starts at [pos]. *)
Definition fmt_fields_at (data : bytes) (pos : Z) : header_info :=
  {| format := le_decode (slice data (pos + 8) (pos + 10));
     channels := le_decode (slice data (pos + 10) (pos + 12));
     sample_rate := le_decode (slice data (pos + 12) (pos + 16));
     bits_per_sample := le_decode (slice data (pos + 22) (pos + 24));
     chunk_size := chunk_size_at data pos |}.

(** What the loop does when it runs its body at [pos] and goes on. *)
Definition run_body (data : bytes) (pos : Z) : result header_info :=
  match loop_body data pos with
  | Return info => Ok info
  | Fail e => Raise e
  | Continue pos' => find_fmt_chunk data pos'
  end.

(** A RIFF/WAVE buffer whose only chunk is a [data] chunk holding
    [payload], followed by the pad bytes [pad]. *)
Definition data_only_wav (riff_size payload pad : bytes) : bytes :=
  (b "RIFF" ++ riff_size ++ b "WAVE"
     ++ b "data" ++ le_encode 4 (len payload) ++ payload ++ pad)%list.

(** No louder than the default amplitude allows. *)
Definition soft (sample : Z) : Prop := Z.abs sample <= 9830.

End Vocabulary.

(** ** Layout of the file [write_wav] produces *)

Section Layout.

(** The 44-byte header of a 16-bit mono PCM file holding [num_samples]
    samples at [sample_rate] Hz. *)
Definition wav_header (sample_rate num_samples : Z) : bytes :=
  (b "RIFF" ++ le_encode 4 (36 + 2 * num_samples) ++ b "WAVE"
     ++ b "fmt " ++ le_encode 4 16 ++ le_encode 2 1 ++ le_encode 2 1
     ++ le_encode 4 sample_rate ++ le_encode 4 (2 * sample_rate)
     ++ le_encode 2 2 ++ le_encode 2 16
     ++ b "data" ++ le_encode 4 (2 * num_samples))%list.

(** Samples as little-endian signed 16-bit values, in order. *)
Definition pcm16 (samples : list Z) : bytes := flat_map (le_encode 2) samples.

(** A 16-bit field read as a signed value. *)
Definition signed16 (z : Z) : Z := if z <? 32768 then z else z - 65536.

(** The payload of a [data] chunk read back as little-endian signed
    16-bit samples. *)
Fixpoint decode_pcm16 (bs : bytes) : list Z :=
  match bs with
  | lo :: hi :: rest => signed16 (le_decode [lo; hi]) :: decode_pcm16 rest
  | _ => []
  end.

(** The descriptor of the files [write_wav] produces. *)
Definition pcm_mono_16 (rate : Z) : wav2array.header_info :=
  {| wav2array.format := 1;
     wav2array.channels := 1;
     wav2array.sample_rate := rate;
     wav2array.bits_per_sample := 16;
     wav2array.chunk_size := 16 |}.

(** Largest sample count whose RIFF size field [36 + 2 * N] fits 32 bits. *)
Definition max_samples : Z := 2147483629.

(** Largest sample rate whose byte rate [2 * R] fits 32 bits. *)
Definition max_sample_rate : Z := 2147483647.

End Layout.

(** ** Sample lists used as test inputs *)

Section SampleLists.

(** Two good samples, one too large, one more good sample. *)
Definition clipped_samples : list Z := [0; 100; 32768; -5].

(** 2147483630 zeros followed by a sample that is out of range: one
    sample more than the RIFF size field can describe. *)
Definition oversized_samples : list Z :=
  (repeat 0 (Z.to_nat 2147483630) ++ [32768])%list.

End SampleLists.

(** ** Layout of the text [wav_to_c_array] produces *)

Section TextLayout.
Import wav2array.
Local Open Scope string_scope.

(** Successive rows of 16 bytes, the last one possibly shorter; [fuel]
    bounds the number of rows. *)
Fixpoint rows_of (fuel : nat) (data : bytes) : list bytes :=
  match fuel, data with
  | S k, _ :: _ => firstn 16 data :: rows_of k (skipn 16 data)
  | _, _ => []
  end.

Definition rows (data : bytes) : list bytes := rows_of (List.length data) data.

(** One line of the array body: indentation, the literals separated by
    a comma and a space, a trailing comma unless the row is the last. *)
Definition row_text (row : bytes) (is_last : bool) : string :=
  "    " ++ String.concat ", " (map hex_literal row)
         ++ (if is_last then EmptyString else ",") ++ nl.

Fixpoint rows_text (rs : list bytes) : string :=
  match rs with
  | [] => EmptyString
  | r :: rest =>
    match rest with
    | [] => row_text r true
    | _ :: _ => row_text r false ++ rows_text rest
    end
  end.

(** Value of an upper-case hexadecimal digit. *)
Definition upper_hex_value (c : ascii) : option Z :=
  let n := Z.of_nat (nat_of_ascii c) in
  if (48 <=? n)%Z && (n <=? 57)%Z then Some (n - 48)%Z
  else if (65 <=? n)%Z && (n <=? 70)%Z then Some (n - 55)%Z
  else None.

(** Space, comma or line feed: what stands between two literals. *)
Definition is_separator (c : ascii) : bool :=
  Ascii.eqb c " " || Ascii.eqb c "," || Ascii.eqb c "010".

(** The values of the [0xHH] literals of an array body, in order;
    [None] when the text holds anything but such literals and
    separators. *)
Fixpoint body_values (s : string) : option (list Z) :=
  match s with
  | EmptyString => Some []
  | String c rest =>
    if is_separator c then body_values rest
    else
      match rest with
      | String x (String hi (String lo rest')) =>
        if Ascii.eqb c "0" && Ascii.eqb x "x" then
          match upper_hex_value hi, upper_hex_value lo, body_values rest' with
          | Some h, Some l, Some values => Some ((16 * h + l)%Z :: values)
          | _, _, _ => None
          end
        else None
      | _ => None
      end
  end.

(** [.wav] in any mix of upper and lower case. *)
Definition wav_extension (ext : string) : Prop :=
  exists w a v : ascii,
    ext = String "."%char (String w (String a (String v EmptyString))) /\
    (w = "w"%char \/ w = "W"%char) /\
    (a = "a"%char \/ a = "A"%char) /\
    (v = "v"%char \/ v = "V"%char).

(** The comment block and the opening of the array declaration. *)
Definition preamble (wav_file : string) (info : header_info) (data : bytes)
    (var_name : string) : string :=
  "// " ++ basename wav_file ++ nl
    ++ "// Format: " ++ str (channels info) ++ " channel(s), "
    ++ str (sample_rate info) ++ " Hz, "
    ++ str (bits_per_sample info) ++ "-bit" ++ nl
    ++ "// Size: " ++ str (len data) ++ " bytes" ++ nl ++ nl
    ++ "const uint8_t PROGMEM " ++ var_name ++ "[] = {" ++ nl.

(** The closing brace and the size constant. *)
Definition trailer (var_name : string) : string :=
  "};" ++ nl
    ++ "const uint32_t " ++ var_name ++ "_len = sizeof(" ++ var_name ++ ");"
    ++ nl.

End TextLayout.

(** ** Concrete buffers used as test inputs *)

Section Buffers.

(** RIFF/WAVE prefix, then only the 8-byte header of a [fmt ] chunk:
    20 bytes, 8 of them left at offset 12. *)
Definition fmt_header_only : bytes :=
  (b "RIFF" ++ [x0c; x00; x00; x00] ++ b "WAVE"
     ++ b "fmt " ++ [x10; x00; x00; x00])%list.

(** RIFF/WAVE prefix, then a [fmt ] chunk cut after the first byte of
    its payload: 21 bytes. *)
Definition fmt_truncated : bytes :=
  (b "RIFF" ++ [x0d; x00; x00; x00] ++ b "WAVE"
     ++ b "fmt " ++ [x10; x00; x00; x00] ++ [x01])%list.

(** Seventeen bytes that start like a WAV file. *)
Definition seventeen_bytes : bytes :=
  (b "RIFF" ++ [x09; x00; x00; x00] ++ b "WAVE"
     ++ b "fmt " ++ [x10])%list.

(** A three-byte [data] chunk with its pad byte and nothing else. *)
Definition data_only_example : bytes :=
  (b "RIFF" ++ [x10; x00; x00; x00] ++ b "WAVE"
     ++ b "data" ++ [x03; x00; x00; x00] ++ [x01; x02; x03] ++ [x00])%list.

(** A [LIST] chunk of odd size 3 (padded), then a PCM [fmt ] chunk,
    then the header of an empty [data] chunk. *)
Definition list_then_fmt : bytes :=
  (b "RIFF" ++ [x30; x00; x00; x00] ++ b "WAVE"
     ++ b "LIST" ++ [x03; x00; x00; x00] ++ [x61; x62; x63] ++ [x00]
     ++ b "fmt " ++ [x10; x00; x00; x00]
     ++ [x01; x00; x01; x00; x80; x3e; x00; x00;
         x00; x7d; x00; x00; x02; x00; x10; x00]
     ++ b "data" ++ [x00; x00; x00; x00])%list.

(** [list_then_fmt] with a RIFF size field that is wrong. *)
Definition list_then_fmt_wrong_size : bytes :=
  (b "RIFF" ++ [xff; xff; xff; xff] ++ skipn 8 list_then_fmt)%list.

(** What a run finds when one file is there, can be read and standard
    output takes everything. *)
Definition one_file (path : string) (content : bytes)
    : wav2array.environment :=
  {| wav2array.path_exists := fun p => String.eqb p path;
     wav2array.read_file :=
       fun p => if String.eqb p path then inl content
                else inr "No such file or directory"%string;
     wav2array.print_breaks := fun _ => None |}.

(** The same, on a standard output that breaks after 20 characters. *)
Definition one_file_broken_pipe (path : string) (content : bytes)
    : wav2array.environment :=
  {| wav2array.path_exists := fun p => String.eqb p path;
     wav2array.read_file :=
       fun p => if String.eqb p path then inl content
                else inr "No such file or directory"%string;
     wav2array.print_breaks :=
       fun _ => Some (20%nat, "[Errno 32] Broken pipe"%string) |}.

End Buffers.

(** ** Vocabulary for floating-point values *)

Section FloatVocabulary.

(** Exponent of the last mantissa bit of a binary64 number whose
    magnitude lies in [2^(e-1), 2^e): [max (e - 53) (-1074)]. *)
Definition fexp64 : Z -> Z := SpecFloat.fexp float.prec float.emax.

Definition is_exact (l : location) : bool :=
  match l with loc_Exact => true | _ => false end.

(** Some bit was shifted out, or the value was inexact already. *)
Definition inexact (r : shr_record) : bool := shr_r r || shr_s r.

(** The float [binary_round_aux] returns once mantissa and exponent are
    settled. *)
Definition build (sx : bool) (m e : Z) : spec_float :=
  match m with
  | Z0 => S754_zero sx
  | Zpos p => if e <=? 971 then S754_finite sx p e else S754_infinity sx
  | Zneg _ => S754_nan
  end.

(** [m1 * 2^e1 <= m2 * 2^e2], in integers. *)
Definition dle (m1 e1 m2 e2 : Z) : Prop :=
  m1 * 2 ^ (e1 - Z.min e1 e2) <= m2 * 2 ^ (e2 - Z.min e1 e2).

Definition dle_b (m1 e1 m2 e2 : Z) : bool :=
  m1 * 2 ^ (e1 - Z.min e1 e2) <=? m2 * 2 ^ (e2 - Z.min e1 e2).

(** [x] is a zero, or a well-formed finite double with
    [|x| <= mb * 2^eb]. *)
Definition bounded_by (x : spec_float) (mb eb : Z) : Prop :=
  match x with
  | S754_zero _ => True
  | S754_finite _ m e =>
    valid_binary float.prec float.emax x = true /\ dle (Zpos m) e mb eb
  | _ => False
  end.

(** [mb * 2^eb <= |x|] for a zero or finite [x]. *)
Definition at_least (x : spec_float) (mb eb : Z) : Prop :=
  match x with
  | S754_zero _ => mb <= 0
  | S754_finite _ m e => dle mb eb (Zpos m) e
  | _ => False
  end.

(** Integer part of [m * 2^e] for [0 <= m]. *)
Definition dfloor (m e : Z) : Z :=
  if 0 <=? e then m * 2 ^ e else m / 2 ^ (- e).

(** What the tone generator assumes of the C library's [sin]: on a zero
    or finite argument it answers a well-formed double in [-1, 1]. *)
Definition sin_in_unit_range (libm_sin : spec_float -> spec_float) : Prop :=
  forall x, float.is_finite x = true -> bounded_by (libm_sin x) 1 0.

(** The sine of a zero is a zero. *)
Definition sin_keeps_zero (libm_sin : spec_float -> spec_float) : Prop :=
  forall s, exists s', libm_sin (S754_zero s) = S754_zero s'.

(** A function that meets both assumptions, to show that they can be met:
    the identity on [-1, 1], the nearer end of the interval outside. *)
Definition unit_clamp (x : spec_float) : spec_float :=
  match x with
  | S754_zero _ => x
  | S754_finite s m e =>
    if valid_binary float.prec float.emax x && dle_b (Zpos m) e 1 0 then x
    else S754_finite s 4503599627370496 (-52)
  | _ => S754_nan
  end.

(** The double 2.0, as the conversion of the integer 2 gives it. *)
Definition float_two : spec_float := S754_finite false 4503599627370496 (-51).

(** The double 32767.0. *)
Definition float_32767 : spec_float :=
  S754_finite false 9006924376834048 (-38).

(** The amplitude 1.0. *)
Definition full_scale_amplitude : spec_float :=
  S754_finite false 4503599627370496 (-52).

End FloatVocabulary.

(** ** The sample count and the phase of a tone *)

Section CountAndPhase.
Import generate_sounds.


(** Lines 31-32: the argument [2 * math.pi * frequency * t] of
    [math.sin] at index [i]. *)
Definition phase (frequency sample_rate i : Z) : result spec_float :=
  let? t := float.truediv i sample_rate in
  let? two := float.of_int 2 in
  let? freq := float.of_int frequency in
  Ok (float.mul (float.mul (float.mul two math.pi) freq) t).

(** The phase at index [i] is computed without an exception and is a
    zero or a finite double. *)
Definition phase_is_finite (frequency sample_rate i : Z) : bool :=
  match phase frequency sample_rate i with
  | Ok x => float.is_finite x
  | Raise _ => false
  end.

End CountAndPhase.

(** * Properties *)

(** ** Bytes, slices and little-endian fields *)

Section BytesFacts.

Lemma bytes_eqb_eq (x y : bytes) : bytes_eqb x y = true <-> x = y.
Proof.
  revert y. induction x as [|c x IH]; intros [|d y]; simpl;
    try (split; [discriminate | congruence | reflexivity]);
    try (split; [reflexivity | reflexivity]);
    try (split; discriminate).
  rewrite andb_true_iff, IH. split.
  - intros [Hc ->]. apply Byte.byte_dec_bl in Hc. now subst.
  - intros [= -> ->]. split; [now apply Byte.byte_dec_lb | reflexivity].
Qed.

Lemma bytes_eqb_neq (x y : bytes) : bytes_eqb x y = false <-> x <> y.
Proof.
  rewrite <- bytes_eqb_eq. destruct (bytes_eqb x y); split; congruence.
Qed.

Lemma len_nil {A : Type} : len (@nil A) = 0.
Proof. reflexivity. Qed.

Lemma len_cons {A : Type} (a : A) (l : list A) : len (a :: l) = 1 + len l.
Proof. unfold len. cbn [List.length]. lia. Qed.

Lemma len_app {A : Type} (l1 l2 : list A) : len (l1 ++ l2) = len l1 + len l2.
Proof. unfold len. rewrite length_app. lia. Qed.

Lemma len_nonneg {A : Type} (l : list A) : 0 <= len l.
Proof. unfold len. lia. Qed.

Lemma slice_length {A : Type} (l : list A) (lo hi : Z) :
  0 <= lo -> lo <= hi -> hi <= len l ->
  List.length (slice l lo hi) = Z.to_nat (hi - lo).
Proof.
  unfold slice, len. intros.
  rewrite length_firstn, length_skipn. lia.
Qed.

Lemma slice_short {A : Type} (l : list A) (lo hi : Z) :
  0 <= lo -> lo < hi -> len l < hi ->
  (List.length (slice l lo hi) < Z.to_nat (hi - lo))%nat.
Proof.
  unfold slice, len. intros.
  rewrite length_firstn, length_skipn. lia.
Qed.

(** A slice below [k] only looks at the first [k] elements. *)
Lemma slice_firstn {A : Type} (l : list A) (k : nat) (lo hi : Z) :
  0 <= lo -> hi <= Z.of_nat k -> slice (firstn k l) lo hi = slice l lo hi.
Proof.
  unfold slice. intros Hlo Hhi.
  rewrite skipn_firstn_comm, firstn_firstn. f_equal. lia.
Qed.

Lemma slice_agree {A : Type} (l l' : list A) (k : nat) (lo hi : Z) :
  firstn k l' = firstn k l -> 0 <= lo -> hi <= Z.of_nat k ->
  slice l' lo hi = slice l lo hi.
Proof.
  intros E Hlo Hhi.
  rewrite <- (slice_firstn l' k), <- (slice_firstn l k) by assumption.
  now rewrite E.
Qed.

Lemma byte_val_of (z : Z) : byte_val (byte_of z) = z mod 256.
Proof.
  unfold byte_val, byte_of.
  pose proof (Z.mod_pos_bound z 256 ltac:(lia)) as Hm.
  destruct (Byte.of_N (Z.to_N (z mod 256))) as [c|] eqn:E.
  - apply Byte.to_of_N in E. rewrite E. lia.
  - apply Byte.of_N_None_iff in E. lia.
Qed.

Lemma length_le_encode (n : nat) (z : Z) : List.length (le_encode n z) = n.
Proof.
  revert z. induction n as [|n IH]; intros z; cbn [le_encode List.length];
    [reflexivity | now rewrite IH].
Qed.

Lemma le_decode_encode (n : nat) (z : Z) :
  le_decode (le_encode n z) = z mod 256 ^ Z.of_nat n.
Proof.
  revert z. induction n as [|n IH]; intros z.
  - cbn [le_encode le_decode]. now rewrite Z.pow_0_r, Z.mod_1_r.
  - cbn [le_encode le_decode]. rewrite byte_val_of, IH.
    rewrite Nat2Z.inj_succ, Z.pow_succ_r by lia.
    rewrite Z.rem_mul_r by lia. lia.
Qed.

Lemma le_decode_encode_4 (z : Z) :
  0 <= z <= 4294967295 -> le_decode (le_encode 4 z) = z.
Proof.
  intros H. rewrite le_decode_encode. apply Z.mod_small.
  change (256 ^ Z.of_nat 4) with 4294967296. lia.
Qed.

Lemma le_decode_encode_2 (z : Z) :
  0 <= z <= 65535 -> le_decode (le_encode 2 z) = z.
Proof.
  intros H. rewrite le_decode_encode. apply Z.mod_small.
  change (256 ^ Z.of_nat 2) with 65536. lia.
Qed.

Lemma unpack_I_ok (bs : bytes) :
  List.length bs = 4%nat -> struct.unpack_I bs = Ok (le_decode bs).
Proof. unfold struct.unpack_I. now intros ->. Qed.

Lemma unpack_H_ok (bs : bytes) :
  List.length bs = 2%nat -> struct.unpack_H bs = Ok (le_decode bs).
Proof. unfold struct.unpack_H. now intros ->. Qed.

Lemma unpack_H_short (bs : bytes) :
  (List.length bs < 2)%nat -> struct.unpack_H bs = Raise StructError.
Proof.
  unfold struct.unpack_H. intros H.
  destruct (Nat.eqb_spec (List.length bs) 2); [lia | reflexivity].
Qed.

Lemma unpack_I_short (bs : bytes) :
  (List.length bs < 4)%nat -> struct.unpack_I bs = Raise StructError.
Proof.
  unfold struct.unpack_I. intros H.
  destruct (Nat.eqb_spec (List.length bs) 4); [lia | reflexivity].
Qed.

End BytesFacts.

(** ** The header parser *)

Section HeaderParser.
Import wav2array.

Lemma find_fmt_chunk_step (data : bytes) (pos : Z) :
  find_fmt_chunk data pos =
  if pos <? len data - 8 then run_body data pos else Raise no_fmt_chunk.
Proof.
  unfold run_body.
  funelim (find_fmt_chunk data pos);
    destruct (Z.ltb_spec pos (len data - 8)); try lia;
    try reflexivity;
    match goal with H : loop_body _ _ = _ |- _ => now rewrite H end.
Qed.

Lemma mod2_cases (z : Z) : z mod 2 = 0 \/ z mod 2 = 1.
Proof. pose proof (Z.mod_pos_bound z 2 ltac:(lia)). lia. Qed.

Lemma chunk_size_at_nonneg (data : bytes) (pos : Z) :
  0 <= chunk_size_at data pos.
Proof. apply le_decode_nonneg. Qed.

Lemma next_chunk_advances (data : bytes) (pos : Z) :
  pos + 8 <= next_chunk data pos.
Proof.
  unfold next_chunk. pose proof (chunk_size_at_nonneg data pos).
  destruct (mod2_cases (chunk_size_at data pos)); lia.
Qed.

Lemma scan_reaches_ge (data : bytes) (pos : Z) :
  scan_reaches data pos -> 12 <= pos.
Proof.
  induction 1 as [|pos _ IH _ _]; [lia|].
  pose proof (next_chunk_advances data pos). lia.
Qed.

(** The chunk header at [pos] is complete when 8 bytes are there. *)
Lemma header_complete (data : bytes) (pos : Z) :
  0 <= pos -> pos + 8 <= len data ->
  List.length (chunk_id_at data pos) = 4%nat /\
  struct.unpack_I (slice data (pos + 4) (pos + 8)) = Ok (chunk_size_at data pos).
Proof.
  intros Hpos Hlen. unfold chunk_id_at. split.
  - rewrite slice_length by lia. lia.
  - apply unpack_I_ok. rewrite slice_length by lia. lia.
Qed.

Lemma loop_body_skip (data : bytes) (pos : Z) :
  0 <= pos -> pos + 8 <= len data -> chunk_id_at data pos <> b "fmt " ->
  loop_body data pos = Continue (next_chunk data pos).
Proof.
  intros Hpos Hlen Hid. unfold loop_body.
  destruct (header_complete data pos Hpos Hlen) as [_ ->].
  apply bytes_eqb_neq in Hid. unfold chunk_id_at in Hid. rewrite Hid.
  unfold next_chunk.
  destruct (Z.eqb_spec (chunk_size_at data pos mod 2) 1) as [E|E].
  - now rewrite E.
  - destruct (mod2_cases (chunk_size_at data pos)) as [E0|E1];
      [rewrite E0; f_equal; lia | contradiction].
Qed.

Lemma parse_fmt_complete (data : bytes) (pos size : Z) :
  0 <= pos -> pos + 24 <= len data ->
  parse_fmt data pos size =
  Ok {| format := le_decode (slice data (pos + 8) (pos + 10));
        channels := le_decode (slice data (pos + 10) (pos + 12));
        sample_rate := le_decode (slice data (pos + 12) (pos + 16));
        bits_per_sample := le_decode (slice data (pos + 22) (pos + 24));
        chunk_size := size |}.
Proof.
  intros Hpos Hlen. unfold parse_fmt.
  rewrite !unpack_H_ok, unpack_I_ok;
    try reflexivity; rewrite slice_length by lia; lia.
Qed.

Lemma parse_fmt_truncated (data : bytes) (pos size : Z) :
  0 <= pos -> len data < pos + 24 ->
  parse_fmt data pos size = Raise StructError.
Proof.
  intros Hpos Hlen.
  assert (Hlast : struct.unpack_H (slice data (pos + 22) (pos + 24))
                  = Raise StructError).
  { apply unpack_H_short.
    pose proof (slice_short data (pos + 22) (pos + 24)). lia. }
  unfold parse_fmt. rewrite Hlast.
  unfold struct.unpack_H, struct.unpack_I.
  repeat match goal with
         | |- context [if ?c then _ else _] => destruct c; try reflexivity
         end.
Qed.

Lemma loop_body_fmt (data : bytes) (pos : Z) :
  0 <= pos -> pos + 24 <= len data -> chunk_id_at data pos = b "fmt " ->
  loop_body data pos = Return (fmt_fields_at data pos).
Proof.
  intros Hpos Hlen Hid. unfold loop_body.
  destruct (header_complete data pos Hpos ltac:(lia)) as [_ ->].
  apply bytes_eqb_eq in Hid. unfold chunk_id_at in Hid. rewrite Hid.
  now rewrite parse_fmt_complete.
Qed.

Lemma loop_body_fmt_truncated (data : bytes) (pos : Z) :
  0 <= pos -> pos + 8 <= len data -> len data < pos + 24 ->
  chunk_id_at data pos = b "fmt " ->
  loop_body data pos = Fail StructError.
Proof.
  intros Hpos Hlo Hhi Hid. unfold loop_body.
  destruct (header_complete data pos Hpos Hlo) as [_ ->].
  apply bytes_eqb_eq in Hid. unfold chunk_id_at in Hid. rewrite Hid.
  now rewrite parse_fmt_truncated.
Qed.

Lemma loop_body_cases (data : bytes) (pos : Z) :
  0 <= pos -> pos + 8 <= len data ->
  (chunk_id_at data pos <> b "fmt " /\
   loop_body data pos = Continue (next_chunk data pos)) \/
  (chunk_id_at data pos = b "fmt " /\ pos + 24 <= len data /\
   loop_body data pos = Return (fmt_fields_at data pos)) \/
  (chunk_id_at data pos = b "fmt " /\ len data < pos + 24 /\
   loop_body data pos = Fail StructError).
Proof.
  intros Hpos Hlen.
  destruct (bytes_eqb (chunk_id_at data pos) (b "fmt ")) eqn:E.
  - apply bytes_eqb_eq in E. right.
    destruct (Z_le_gt_dec (pos + 24) (len data)).
    + left. auto using loop_body_fmt.
    + right. split; [assumption|]. split; [lia|].
      apply loop_body_fmt_truncated; auto; lia.
  - apply bytes_eqb_neq in E. left. auto using loop_body_skip.
Qed.

Lemma read_wav_header_prefix (data : bytes) :
  riff_wave_prefix data -> read_wav_header data = find_fmt_chunk data 12.
Proof.
  intros [HR HW]. unfold read_wav_header.
  apply bytes_eqb_eq in HR, HW. now rewrite HR, HW.
Qed.

Lemma read_wav_header_no_prefix (data : bytes) :
  ~ riff_wave_prefix data ->
  exists e, read_wav_header data = Raise e /\ invalid_container e.
Proof.
  intros H. unfold read_wav_header, invalid_container.
  destruct (bytes_eqb (slice data 0 4) (b "RIFF")) eqn:HR; cbn [negb];
    [|eauto].
  destruct (bytes_eqb (slice data 8 12) (b "WAVE")) eqn:HW; cbn [negb];
    [|eauto].
  apply bytes_eqb_eq in HR, HW. exfalso. apply H. now split.
Qed.

Lemma data_only_no_fmt (riff_size payload pad : bytes) :
  List.length riff_size = 4%nat -> len payload <= 4294967295 ->
  len pad <= len payload mod 2 ->
  read_wav_header (data_only_wav riff_size payload pad) = Raise no_fmt_chunk.
Proof.
  intros Hrs Hn Hpad.
  destruct riff_size as [|r0 [|r1 [|r2 [|r3 [|? ?]]]]]; try discriminate Hrs.
  set (data := data_only_wav _ _ _).
  assert (Hlen : len data = 20 + len payload + len pad).
  { unfold data, data_only_wav. rewrite !len_app.
    change (len (b "RIFF")) with 4. change (len (b "WAVE")) with 4.
    change (len (b "data")) with 4. rewrite !len_cons, len_nil.
    unfold len at 1. rewrite length_le_encode. lia. }
  assert (Hid : chunk_id_at data 12 = b "data") by reflexivity.
  assert (Hsz : chunk_size_at data 12 = len payload).
  { unfold chunk_size_at, data, data_only_wav.
    change (slice _ (12 + 4) (12 + 8)) with (le_encode 4 (len payload)).
    apply le_decode_encode_4. pose proof (len_nonneg payload). lia. }
  assert (Hp : riff_wave_prefix data) by (split; reflexivity).
  rewrite (read_wav_header_prefix data Hp).
  pose proof (len_nonneg payload). pose proof (len_nonneg pad).
  rewrite find_fmt_chunk_step.
  destruct (Z.ltb_spec 12 (len data - 8)) as [Hlt|Hge]; [|reflexivity].
  unfold run_body. rewrite loop_body_skip; try lia.
  - rewrite find_fmt_chunk_step.
    destruct (Z.ltb_spec (next_chunk data 12) (len data - 8)) as [Hlt'|];
      [|reflexivity].
    unfold next_chunk in Hlt'. rewrite Hsz in Hlt'. lia.
  - rewrite Hid. discriminate.
Qed.

(** C4. [read_wav_header] fails with the invalid-container error on every
    buffer whose first 4 bytes are not [RIFF] or whose bytes 8-12 are not
    [WAVE], and with the missing-format-chunk error on every well-formed
    RIFF/WAVE buffer that holds only a [data] chunk (declared size equal
    to the payload length, pad byte allowed after an odd payload). *)
Theorem read_wav_header_rejects :
  (forall data : bytes,
      slice data 0 4 <> b "RIFF" \/ slice data 8 12 <> b "WAVE" ->
      exists e, read_wav_header data = Raise e /\ invalid_container e) /\
  (forall riff_size payload pad : bytes,
      List.length riff_size = 4%nat ->
      len payload <= 4294967295 ->
      len pad <= len payload mod 2 ->
      read_wav_header (data_only_wav riff_size payload pad)
      = Raise no_fmt_chunk).
Proof.
  split.
  - intros data H. apply read_wav_header_no_prefix.
    intros [HR HW]. destruct H; contradiction.
  - exact data_only_no_fmt.
Qed.

Lemma read_wav_header_rejects_witness :
  (exists e, read_wav_header (b "RIFX....WAVE") = Raise e
             /\ invalid_container e) /\
  read_wav_header (data_only_wav [x10; x00; x00; x00] [x01; x02; x03] [x00])
  = Raise no_fmt_chunk.
Proof.
  split.
  - apply (proj1 read_wav_header_rejects). left. vm_compute. discriminate.
  - apply (proj2 read_wav_header_rejects); vm_compute;
      first [reflexivity | discriminate].
Defined.

(** The scan can only end with the missing-format-chunk error by
    leaving the loop. *)
Lemma no_fmt_chunk_exit (data : bytes) (n : nat) :
  forall pos,
    (Z.to_nat (remaining data pos) <= n)%nat ->
    scan_reaches data pos ->
    find_fmt_chunk data pos = Raise no_fmt_chunk ->
    exists pos', scan_reaches data pos' /\ remaining data pos' <= 8.
Proof.
  unfold remaining.
  induction n as [|n IH]; intros pos Hn Hreach;
    rewrite find_fmt_chunk_step;
    destruct (Z.ltb_spec pos (len data - 8)) as [Hlt|Hge];
    try (intros _; exists pos; split; [assumption | lia]);
    try lia.
  pose proof (scan_reaches_ge data pos Hreach) as H12.
  unfold run_body.
  destruct (loop_body_cases data pos) as [[Hid ->]|[(_ & _ & ->)|(_ & _ & ->)]];
    try lia; try discriminate.
  apply IH.
  - pose proof (next_chunk_advances data pos). lia.
  - now constructor.
Qed.

(** C5 (as the code has it). At every offset the scan reaches with more
    than 8 bytes remaining, the 4-byte chunk id and the 4-byte chunk size
    are read and the loop body runs; with 8 bytes or fewer remaining the
    loop is left without reading and the missing-format-chunk error is
    raised; and that error is raised only after the scan has reached an
    offset with at most 8 bytes remaining, every chunk before it having an
    id other than [fmt ]. *)
Theorem chunk_scan_needs_more_than_8 (data : bytes) :
  (forall pos, scan_reaches data pos -> 8 < remaining data pos ->
      List.length (chunk_id_at data pos) = 4%nat /\
      struct.unpack_I (slice data (pos + 4) (pos + 8))
      = Ok (chunk_size_at data pos) /\
      find_fmt_chunk data pos = run_body data pos) /\
  (forall pos, scan_reaches data pos -> remaining data pos <= 8 ->
      find_fmt_chunk data pos = Raise no_fmt_chunk) /\
  (read_wav_header data = Raise no_fmt_chunk ->
      exists pos, scan_reaches data pos /\ remaining data pos <= 8).
Proof.
  unfold remaining. repeat split.
  - apply header_complete; [apply scan_reaches_ge in H|]; lia.
  - apply header_complete; [apply scan_reaches_ge in H|]; lia.
  - rewrite find_fmt_chunk_step.
    destruct (Z.ltb_spec pos (len data - 8)); [reflexivity | lia].
  - intros pos _ Hrem. rewrite find_fmt_chunk_step.
    destruct (Z.ltb_spec pos (len data - 8)); [lia | reflexivity].
  - intros Hraise.
    assert (Hp : riff_wave_prefix data).
    { unfold read_wav_header in Hraise. split; apply bytes_eqb_eq.
      - destruct (bytes_eqb (slice data 0 4) (b "RIFF")); [reflexivity|].
        discriminate Hraise.
      - destruct (bytes_eqb (slice data 0 4) (b "RIFF")); [|discriminate Hraise].
        destruct (bytes_eqb (slice data 8 12) (b "WAVE")); [reflexivity|].
        discriminate Hraise. }
    rewrite (read_wav_header_prefix data Hp) in Hraise.
    apply (no_fmt_chunk_exit data (Z.to_nat (remaining data 12)) 12);
      [lia | constructor | assumption].
Qed.

Lemma chunk_scan_needs_more_than_8_witness :
  (List.length (chunk_id_at list_then_fmt 12) = 4%nat /\
   struct.unpack_I (slice list_then_fmt (12 + 4) (12 + 8))
   = Ok (chunk_size_at list_then_fmt 12) /\
   find_fmt_chunk list_then_fmt 12 = run_body list_then_fmt 12) /\
  find_fmt_chunk fmt_header_only 12 = Raise no_fmt_chunk /\
  exists pos, scan_reaches data_only_example pos
              /\ remaining data_only_example pos <= 8.
Proof.
  split; [|split].
  - apply (proj1 (chunk_scan_needs_more_than_8 list_then_fmt));
      [constructor | vm_compute; reflexivity].
  - apply (proj1 (proj2 (chunk_scan_needs_more_than_8 fmt_header_only)));
      [constructor | vm_compute; discriminate].
  - apply (proj2 (proj2 (chunk_scan_needs_more_than_8 data_only_example))).
    vm_compute. reflexivity.
Defined.

Lemma scan_reaches_fmt_header_only (pos : Z) :
  scan_reaches fmt_header_only pos -> pos = 12.
Proof.
  induction 1 as [|pos _ IH Hlt _]; [reflexivity|].
  subst pos. vm_compute in Hlt. discriminate Hlt.
Qed.

(** C5, as stated, fails on [fmt_header_only]: at offset 12 exactly 8
    bytes remain, and they are the header of a [fmt ] chunk, yet the loop
    is left without reading it and the missing-format-chunk error is
    raised although the scan never reached an offset with fewer than 8
    bytes remaining. *)
Lemma chunk_scan_stops_at_8_remaining :
  scan_reaches fmt_header_only 12 /\
  8 <= remaining fmt_header_only 12 /\
  chunk_id_at fmt_header_only 12 = b "fmt " /\
  find_fmt_chunk fmt_header_only 12 <> run_body fmt_header_only 12 /\
  read_wav_header fmt_header_only = Raise no_fmt_chunk /\
  ~ (exists pos, scan_reaches fmt_header_only pos
                 /\ remaining fmt_header_only pos < 8).
Proof.
  split; [constructor|].
  split; [vm_compute; discriminate|].
  split; [reflexivity|].
  split; [vm_compute; discriminate|].
  split; [vm_compute; reflexivity|].
  intros (pos & Hreach & Hrem).
  apply scan_reaches_fmt_header_only in Hreach. subst pos.
  vm_compute in Hrem. discriminate Hrem.
Qed.

(** Two buffers that agree on their first [k] bytes are scanned alike
    up to any offset whose chunk header ends before [k]. *)
Lemma scan_agree (data data' : bytes) (k : nat) :
  firstn k data' = firstn k data ->
  Z.of_nat k <= len data -> Z.of_nat k <= len data' ->
  forall pos, scan_reaches data pos -> pos + 8 < Z.of_nat k ->
    find_fmt_chunk data' 12 = find_fmt_chunk data' pos.
Proof.
  intros Hagree Hk Hk'.
  induction 1 as [|pos Hreach IH Hlt Hid]; intros Hend; [reflexivity|].
  pose proof (next_chunk_advances data pos) as Hadv.
  pose proof (scan_reaches_ge data pos Hreach) as H12.
  rewrite IH by lia.
  rewrite find_fmt_chunk_step.
  destruct (Z.ltb_spec pos (len data' - 8)); [|lia].
  unfold run_body.
  assert (Hid' : chunk_id_at data' pos = chunk_id_at data pos)
    by (apply (slice_agree data data' k); [assumption | lia | lia]).
  assert (Hsz : chunk_size_at data' pos = chunk_size_at data pos).
  { unfold chunk_size_at. f_equal.
    apply (slice_agree data data' k); [assumption | lia | lia]. }
  rewrite loop_body_skip; [|lia|lia|congruence].
  unfold next_chunk. now rewrite Hsz.
Qed.

Lemma fmt_fields_agree (data data' : bytes) (k : nat) (pos : Z) :
  firstn k data' = firstn k data -> 0 <= pos -> pos + 24 <= Z.of_nat k ->
  fmt_fields_at data' pos = fmt_fields_at data pos.
Proof.
  intros Hagree Hpos Hend. unfold fmt_fields_at, chunk_size_at.
  repeat rewrite (slice_agree data data' k) by (assumption || lia).
  reflexivity.
Qed.

(** C6 (as the code has it). For every buffer with a valid RIFF/WAVE
    prefix the scan starts at offset 12 and skips each chunk whose id is
    not [fmt ] by 8 + chunk_size bytes, plus one when chunk_size is odd
    ([scan_reaches]). At the first [fmt ] chunk it reaches, provided the
    buffer holds at least 24 bytes from the chunk's offset, it returns
    audio_format read at +8 (2 bytes), channel_count at +10 (2 bytes),
    sample_rate at +12 (4 bytes), bits_per_sample at +22 (2 bytes) and
    the chunk's declared size; the same holds for every buffer that agrees
    with this one up to the end of those 24 bytes, whatever follows. When
    the chunk header was read but fewer than 24 bytes are there, the
    unpacking raises instead. *)
Theorem read_wav_header_first_fmt (data : bytes) (p : Z) :
  riff_wave_prefix data ->
  scan_reaches data p ->
  chunk_id_at data p = b "fmt " ->
  (p + 24 <= len data ->
   forall data' : bytes,
     firstn (Z.to_nat (p + 24)) data' = firstn (Z.to_nat (p + 24)) data ->
     read_wav_header data' = Ok (fmt_fields_at data p)) /\
  (8 < remaining data p -> len data < p + 24 ->
   read_wav_header data = Raise StructError).
Proof.
  intros Hp Hreach Hid.
  pose proof (scan_reaches_ge data p Hreach) as H12.
  split.
  - intros Hlen data' Hagree.
    set (k := Z.to_nat (p + 24)) in *.
    assert (Hk : Z.of_nat k <= len data) by lia.
    assert (Hk' : Z.of_nat k <= len data').
    { apply (f_equal (@List.length byte)) in Hagree.
      rewrite !length_firstn in Hagree. unfold len in *. lia. }
    assert (Hp' : riff_wave_prefix data').
    { destruct Hp as [HR HW]. split.
      - rewrite (slice_agree data data' k); [assumption|assumption|lia|lia].
      - rewrite (slice_agree data data' k); [assumption|assumption|lia|lia]. }
    rewrite (read_wav_header_prefix data' Hp').
    rewrite (scan_agree data data' k Hagree Hk Hk' p Hreach) by lia.
    rewrite find_fmt_chunk_step.
    destruct (Z.ltb_spec p (len data' - 8)); [|lia].
    unfold run_body. rewrite loop_body_fmt; try lia.
    + f_equal. apply (fmt_fields_agree data data' k); [assumption|lia|lia].
    + unfold chunk_id_at.
      rewrite (slice_agree data data' k); [assumption|assumption|lia|lia].
  - unfold remaining. intros Hrem Hshort.
    rewrite (read_wav_header_prefix data Hp).
    assert (Hk : Z.of_nat (List.length data) <= len data)
      by (unfold len; lia).
    rewrite (scan_agree data data (List.length data) eq_refl Hk Hk p Hreach)
      by (fold (len data); lia).
    rewrite find_fmt_chunk_step.
    destruct (Z.ltb_spec p (len data - 8)); [|lia].
    unfold run_body. rewrite loop_body_fmt_truncated;
      try lia; [reflexivity | assumption].
Qed.

Lemma list_then_fmt_reaches_24 : scan_reaches list_then_fmt 24.
Proof.
  change 24 with (next_chunk list_then_fmt 12).
  apply scan_skip; [constructor | reflexivity | discriminate].
Defined.

Lemma read_wav_header_first_fmt_witness :
  (forall data' : bytes,
      firstn 48 data' = firstn 48 list_then_fmt ->
      read_wav_header data' = Ok (fmt_fields_at list_then_fmt 24)) /\
  read_wav_header fmt_truncated = Raise StructError.
Proof.
  split.
  - apply (proj1 (read_wav_header_first_fmt list_then_fmt 24
                    ltac:(split; reflexivity)
                    list_then_fmt_reaches_24
                    ltac:(reflexivity))).
    vm_compute. discriminate.
  - apply (proj2 (read_wav_header_first_fmt fmt_truncated 12
                    ltac:(split; reflexivity) (scan_start _)
                    ltac:(reflexivity)));
      vm_compute; reflexivity.
Defined.

(** C6, as stated, fails on [fmt_truncated]: the prefix is valid and the
    first chunk the scan finds is a [fmt ] chunk, but the call does not
    return a descriptor; unpacking audio_format raises. *)
Lemma read_wav_header_truncated_fmt_raises :
  riff_wave_prefix fmt_truncated /\
  scan_reaches fmt_truncated 12 /\
  12 < len fmt_truncated - 8 /\
  chunk_id_at fmt_truncated 12 = b "fmt " /\
  read_wav_header fmt_truncated = Raise StructError /\
  read_wav_header fmt_truncated <> Ok (fmt_fields_at fmt_truncated 12).
Proof.
  split; [split; reflexivity|].
  split; [constructor|].
  split; [reflexivity|].
  split; [reflexivity|].
  split; [vm_compute; reflexivity | vm_compute; discriminate].
Qed.

(** Whatever [read_wav_header] returns was read from a complete [fmt ]
    chunk that the scan reached. *)
Lemma find_fmt_chunk_returns (data : bytes) (info : header_info) (n : nat) :
  forall pos,
    (Z.to_nat (remaining data pos) <= n)%nat ->
    scan_reaches data pos ->
    find_fmt_chunk data pos = Ok info ->
    exists p, scan_reaches data p /\ chunk_id_at data p = b "fmt " /\
              p + 24 <= len data /\ info = fmt_fields_at data p.
Proof.
  unfold remaining.
  induction n as [|n IH]; intros pos Hn Hreach;
    rewrite find_fmt_chunk_step;
    destruct (Z.ltb_spec pos (len data - 8)) as [Hlt|Hge];
    try discriminate; try lia.
  pose proof (scan_reaches_ge data pos Hreach) as H12.
  unfold run_body.
  destruct (loop_body_cases data pos)
    as [[Hid ->]|[(Hid & Hlen & ->)|(_ & _ & ->)]];
    try lia; try discriminate.
  - apply IH.
    + pose proof (next_chunk_advances data pos). lia.
    + now constructor.
  - intros [= <-]. exists pos. auto.
Qed.

Lemma read_wav_header_returns (data : bytes) (info : header_info) :
  read_wav_header data = Ok info ->
  exists p, scan_reaches data p /\ chunk_id_at data p = b "fmt " /\
            p + 24 <= len data /\ info = fmt_fields_at data p.
Proof.
  unfold read_wav_header.
  destruct (negb _); [discriminate|]. destruct (negb _); [discriminate|].
  apply (find_fmt_chunk_returns data info (Z.to_nat (remaining data 12)) 12);
    [lia | constructor].
Qed.

Lemma read_wav_header_min_length (data : bytes) (info : header_info) :
  read_wav_header data = Ok info -> 36 <= len data.
Proof.
  intros H. apply read_wav_header_returns in H.
  destruct H as (p & Hreach & _ & Hlen & _).
  apply scan_reaches_ge in Hreach. lia.
Qed.

Lemma read_wav_header_short (data : bytes) :
  len data < 36 -> exists e, read_wav_header data = Raise e.
Proof.
  intros Hlen. destruct (read_wav_header data) as [info|e] eqn:E; [|eauto].
  apply read_wav_header_min_length in E. lia.
Qed.

End HeaderParser.

(** ** The WAV writer *)

Section Writer.
Import generate_sounds.

Lemma int16_dec (z : Z) : {int16 z} + {~ int16 z}.
Proof.
  unfold int16.
  destruct (Z_le_dec (-32768) z); [|right; lia].
  destruct (Z_le_dec z 32767); [left; lia | right; lia].
Defined.

Lemma pack_I_ok (z : Z) :
  0 <= z <= 4294967295 -> struct.pack_I z = Ok (le_encode 4 z).
Proof.
  intros H. unfold struct.pack_I.
  destruct (Z.leb_spec 0 z); [|lia].
  destruct (Z.leb_spec z 4294967295); [reflexivity | lia].
Qed.

Lemma pack_I_overflow (z : Z) :
  4294967295 < z -> struct.pack_I z = Raise StructError.
Proof.
  intros H. unfold struct.pack_I.
  destruct (Z.leb_spec z 4294967295); [lia|].
  now rewrite andb_false_r.
Qed.

Lemma pack_h_ok (z : Z) : int16 z -> struct.pack_h z = Ok (le_encode 2 z).
Proof.
  unfold int16, struct.pack_h. intros H.
  destruct (Z.leb_spec (-32768) z); [|lia].
  destruct (Z.leb_spec z 32767); [reflexivity | lia].
Qed.

Lemma pack_h_out_of_range (z : Z) :
  ~ int16 z -> struct.pack_h z = Raise StructError.
Proof.
  unfold int16, struct.pack_h. intros H.
  destruct (Z.leb_spec (-32768) z); [|reflexivity].
  destruct (Z.leb_spec z 32767); [lia | reflexivity].
Qed.

Lemma len_pcm16 (samples : list Z) : len (pcm16 samples) = 2 * len samples.
Proof.
  induction samples as [|s r IH]; [reflexivity|].
  unfold pcm16 in *. cbn [flat_map]. rewrite len_app, IH, len_cons.
  unfold len at 1. rewrite length_le_encode. lia.
Qed.

Lemma len_wav_header (rate n : Z) : len (wav_header rate n) = 44.
Proof. reflexivity. Qed.

Lemma write_samples_ok (samples : list Z) :
  Forall int16 samples ->
  forall content,
    write_samples samples content = ((content ++ pcm16 samples)%list, Ok tt).
Proof.
  induction 1 as [|s r Hs _ IH]; intros content.
  - cbn. now rewrite app_nil_r.
  - cbn [write_samples]. unfold bind, f_write_packed, f_write.
    rewrite (pack_h_ok s Hs), IH.
    unfold pcm16. cbn [flat_map]. now rewrite app_assoc.
Qed.

Lemma write_samples_raises (pre : list Z) (s : Z) (post : list Z) :
  Forall int16 pre -> ~ int16 s ->
  forall content,
    write_samples (pre ++ s :: post) content
    = ((content ++ pcm16 pre)%list, Raise StructError).
Proof.
  intros Hpre Hs. induction Hpre as [|x r Hx _ IH]; intros content.
  - cbn [app write_samples]. unfold bind, f_write_packed.
    rewrite (pack_h_out_of_range s Hs). cbn. now rewrite app_nil_r.
  - cbn [app write_samples]. unfold bind, f_write_packed, f_write.
    rewrite (pack_h_ok x Hx), IH.
    unfold pcm16. cbn [flat_map]. now rewrite app_assoc.
Qed.

(** The statements of the [with] block up to the sample loop write the
    header whenever its 32-bit fields can be packed. *)
Lemma write_wav_header_written (filename : string) (samples : list Z)
    (rate : Z) :
  0 <= rate <= max_sample_rate -> len samples <= max_samples ->
  write_wav filename samples rate =
  match write_samples samples (wav_header rate (len samples)) with
  | (content, Raise e) => {| file := content; outcome := Raise e |}
  | (content, Ok _) =>
    if rate =? 0
    then {| file := content; outcome := Raise ZeroDivisionError |}
    else {| file := content; outcome := Ok tt |}
  end.
Proof.
  unfold max_sample_rate, max_samples. intros Hrate Hn.
  pose proof (len_nonneg samples).
  unfold write_wav. cbv zeta.
  replace (1 * 16 / 8) with 2 by reflexivity.
  replace (rate * 1 * 16) with (2 * rate * 8) by lia.
  rewrite Z.div_mul by lia.
  replace (len samples * 2) with (2 * len samples) by lia.
  rewrite !pack_I_ok by lia.
  reflexivity.
Qed.

Lemma write_wav_file (filename : string) (samples : list Z) (rate : Z) :
  Forall int16 samples ->
  0 <= rate <= max_sample_rate -> len samples <= max_samples ->
  file (write_wav filename samples rate)
  = (wav_header rate (len samples) ++ pcm16 samples)%list /\
  (rate <> 0 -> outcome (write_wav filename samples rate) = Ok tt).
Proof.
  intros Hs Hrate Hn.
  rewrite write_wav_header_written by assumption.
  rewrite (write_samples_ok samples Hs).
  destruct (Z.eqb_spec rate 0); split; try reflexivity; intros; congruence.
Qed.

(** C2 (as the code has it). For every list of N samples, each in
    [-32768, 32767], with N <= 2147483629, and every sample rate in
    [0, 2147483647], the byte stream produced by [write_wav] has total
    length 44 + 2*N, its RIFF size field (bytes 4-8, little-endian) is
    36 + 2*N and its data chunk size field (bytes 40-44) is 2*N. *)
Theorem write_wav_sizes (filename : string) (samples : list Z) (rate : Z) :
  Forall int16 samples ->
  0 <= rate <= max_sample_rate ->
  len samples <= max_samples ->
  let stream := file (write_wav filename samples rate) in
  len stream = 44 + 2 * len samples /\
  le_decode (slice stream 4 8) = 36 + 2 * len samples /\
  slice stream 36 40 = b "data" /\
  le_decode (slice stream 40 44) = 2 * len samples.
Proof.
  intros Hs Hrate Hn stream.
  destruct (write_wav_file filename samples rate Hs Hrate Hn) as [Hfile _].
  subst stream. rewrite Hfile. clear Hfile.
  unfold max_samples in Hn. pose proof (len_nonneg samples).
  split; [|split; [|split]].
  - rewrite len_app, len_wav_header, len_pcm16. reflexivity.
  - change (slice _ 4 8) with (le_encode 4 (36 + 2 * len samples)).
    apply le_decode_encode_4. lia.
  - reflexivity.
  - change (slice _ 40 44) with (le_encode 4 (2 * len samples)).
    apply le_decode_encode_4. lia.
Qed.

Lemma write_wav_sizes_witness :
  let stream := file (write_wav "beep.wav" [0; 100; -100; 32767; -32768] 16000) in
  len stream = 44 + 2 * 5 /\
  le_decode (slice stream 4 8) = 36 + 2 * 5 /\
  slice stream 36 40 = b "data" /\
  le_decode (slice stream 40 44) = 2 * 5.
Proof.
  apply (write_wav_sizes "beep.wav" [0; 100; -100; 32767; -32768] 16000).
  - repeat constructor; vm_compute; discriminate.
  - vm_compute. split; discriminate.
  - vm_compute. discriminate.
Defined.

(** C2, as stated, fails for sample rate 4294967295: the rate itself fits
    the 32-bit field, the byte rate does not, packing it raises and the
    file stops after 28 bytes. *)
Lemma write_wav_sizes_fail_for_large_rate :
  let w := write_wav "beep.wav" [] 4294967295 in
  Forall int16 [] /\
  outcome w = Raise StructError /\
  len (file w) = 28 /\
  len (file w) <> 44 + 2 * len (@nil Z).
Proof.
  cbv zeta. split; [constructor|].
  split; [reflexivity|]. split; [reflexivity|].
  vm_compute. discriminate.
Qed.

(** C1 (as the code has it). For every list of at most 2147483629
    samples, each in [-32768, 32767], and every sample rate R in
    [0, 2147483647], parsing the bytes [write_wav] produced with
    [read_wav_header] succeeds and yields audio_format = 1,
    channel_count = 1, bits_per_sample = 16 and sample_rate = R (and a
    declared [fmt ] size of 16); [write_wav] itself returns normally
    when R is not 0. *)
Theorem write_then_read_header (filename : string) (samples : list Z)
    (rate : Z) :
  Forall int16 samples ->
  0 <= rate <= max_sample_rate ->
  len samples <= max_samples ->
  wav2array.read_wav_header (file (write_wav filename samples rate))
  = Ok (pcm_mono_16 rate) /\
  (rate <> 0 -> outcome (write_wav filename samples rate) = Ok tt).
Proof.
  intros Hs Hrate Hn.
  destruct (write_wav_file filename samples rate Hs Hrate Hn) as [Hfile Hout].
  split; [|exact Hout].
  rewrite Hfile. clear Hfile Hout.
  set (data := (wav_header rate (len samples) ++ pcm16 samples)%list).
  assert (Hlen : len data = 44 + 2 * len samples)
    by (unfold data; now rewrite len_app, len_wav_header, len_pcm16).
  pose proof (len_nonneg samples).
  unfold max_sample_rate in Hrate.
  assert (Hp : riff_wave_prefix data) by (split; reflexivity).
  rewrite (read_wav_header_prefix data Hp), find_fmt_chunk_step.
  destruct (Z.ltb_spec 12 (len data - 8)); [|lia].
  unfold run_body.
  rewrite loop_body_fmt; [|lia|lia|reflexivity].
  unfold fmt_fields_at, chunk_size_at, pcm_mono_16. do 2 f_equal.
  - change (slice data (12 + 12) (12 + 16)) with (le_encode 4 rate).
    apply le_decode_encode_4. lia.
Qed.

Lemma write_then_read_header_witness :
  wav2array.read_wav_header
    (file (write_wav "beep.wav" [0; 100; -100; 32767; -32768] 16000))
  = Ok (pcm_mono_16 16000) /\
  (16000 <> 0 ->
   outcome (write_wav "beep.wav" [0; 100; -100; 32767; -32768] 16000) = Ok tt).
Proof.
  apply (write_then_read_header "beep.wav" [0; 100; -100; 32767; -32768] 16000).
  - repeat constructor; vm_compute; discriminate.
  - vm_compute. split; discriminate.
  - vm_compute. discriminate.
Defined.

(** C1, as stated, fails for sample rate 2147483648: packing the byte
    rate raises, the file stops after 28 bytes, and parsing those bytes
    raises too. *)
Lemma write_then_read_fails_for_large_rate :
  let w := write_wav "beep.wav" [] 2147483648 in
  Forall int16 [] /\
  outcome w = Raise StructError /\
  wav2array.read_wav_header (file w) = Raise StructError.
Proof.
  cbv zeta. split; [constructor|].
  split; [reflexivity | vm_compute; reflexivity].
Qed.

(** A list with an out-of-range element splits at the first one. *)
Lemma first_out_of_range (samples : list Z) :
  Exists (fun s => ~ int16 s) samples ->
  exists pre s post,
    samples = (pre ++ s :: post)%list /\ Forall int16 pre /\ ~ int16 s.
Proof.
  induction samples as [|x r IH]; intros HE; [inversion HE|].
  destruct (int16_dec x) as [Hx|Hx].
  - destruct IH as (pre & s & post & -> & Hpre & Hs).
    + inversion HE; [contradiction | assumption].
    + exists (x :: pre), s, post. repeat split; auto.
  - exists [], x, r. repeat split; auto.
Qed.

(** C10 (as the code has it). For every sample list of at most
    2147483629 samples that contains an element outside [-32768, 32767],
    written at a sample rate in [0, 2147483647], [write_wav] raises: the
    16-bit packing of the first such sample fails, nothing is clamped or
    wrapped. The write is not atomic: the file then holds the 44-byte
    header followed by the samples that precede the offending one. *)
Theorem write_wav_out_of_range (filename : string) (samples : list Z)
    (rate : Z) :
  0 <= rate <= max_sample_rate ->
  len samples <= max_samples ->
  Exists (fun s => ~ int16 s) samples ->
  exists pre s post,
    samples = (pre ++ s :: post)%list /\
    Forall int16 pre /\ ~ int16 s /\
    struct.pack_h s = Raise StructError /\
    outcome (write_wav filename samples rate) = Raise StructError /\
    file (write_wav filename samples rate)
    = (wav_header rate (len samples) ++ pcm16 pre)%list /\
    len (file (write_wav filename samples rate)) = 44 + 2 * len pre.
Proof.
  intros Hrate Hn HE.
  destruct (first_out_of_range samples HE) as (pre & s & post & E & Hpre & Hs).
  exists pre, s, post. subst samples.
  rewrite write_wav_header_written by assumption.
  rewrite (write_samples_raises pre s post Hpre Hs).
  cbn [file outcome].
  rewrite (len_app (wav_header _ _)), len_wav_header, len_pcm16.
  auto 10 using pack_h_out_of_range.
Qed.

Lemma write_wav_out_of_range_witness :
  exists pre s post,
    clipped_samples = (pre ++ s :: post)%list /\
    Forall int16 pre /\ ~ int16 s /\
    struct.pack_h s = Raise StructError /\
    outcome (write_wav "beep.wav" clipped_samples 16000) = Raise StructError /\
    file (write_wav "beep.wav" clipped_samples 16000)
    = (wav_header 16000 (len clipped_samples) ++ pcm16 pre)%list /\
    len (file (write_wav "beep.wav" clipped_samples 16000)) = 44 + 2 * len pre.
Proof.
  apply (write_wav_out_of_range "beep.wav" clipped_samples 16000).
  - vm_compute. split; discriminate.
  - vm_compute. discriminate.
  - do 2 apply Exists_cons_tl. apply Exists_cons_hd.
    unfold int16. lia.
Defined.

Lemma len_oversized_samples : len oversized_samples = 2147483631.
Proof.
  unfold oversized_samples. rewrite len_app. unfold len.
  rewrite repeat_length, Z2Nat.id by lia. reflexivity.
Qed.

Lemma write_wav_size_overflow (filename : string) (samples : list Z)
    (rate : Z) :
  max_samples < len samples ->
  write_wav filename samples rate
  = {| file := b "RIFF"; outcome := Raise StructError |}.
Proof.
  unfold max_samples. intros Hn.
  unfold write_wav. cbv zeta.
  replace (1 * 16 / 8) with 2 by reflexivity.
  rewrite (pack_I_overflow (36 + len samples * 2)) by lia.
  reflexivity.
Qed.

(** C10, as stated, fails on [oversized_samples] at the default sample
    rate: the list holds an out-of-range sample, but the error comes from
    packing the RIFF size field 36 + 2*N, before any sample is packed,
    and the file holds the 4 bytes [RIFF] only, not the 44-byte header
    and the samples before the offending one. *)
Lemma write_wav_oversized_stops_in_header :
  let w := write_wav "beep.wav" oversized_samples default_sample_rate in
  Exists (fun s => ~ int16 s) oversized_samples /\
  outcome w = Raise StructError /\
  file w = b "RIFF" /\
  len (file w) <> 44 + 2 * 2147483630.
Proof.
  cbv zeta.
  rewrite write_wav_size_overflow
    by (rewrite len_oversized_samples; unfold max_samples; lia).
  cbn [file outcome]. split.
  - unfold oversized_samples. apply Exists_app. right.
    apply Exists_cons_hd. unfold int16. lia.
  - split; [reflexivity|]. split; [reflexivity|].
    change (len (b "RIFF")) with 4. lia.
Qed.

End Writer.

(** ** The byte-array encoder *)

Section Encoder.
Import wav2array.
Local Open Scope string_scope.

Lemma append_assoc (s1 s2 s3 : string) : (s1 ++ s2) ++ s3 = s1 ++ (s2 ++ s3).
Proof. induction s1 as [|c s1 IH]; cbn; [reflexivity | now rewrite IH]. Qed.

Lemma append_empty_r (s : string) : s ++ EmptyString = s.
Proof. induction s as [|c s IH]; cbn; [reflexivity | now rewrite IH]. Qed.

(** Every literal is [0x] followed by two upper-case hexadecimal digits
    that spell the byte's value. *)
Lemma hex_literal_shape (c : byte) :
  exists hi lo : ascii,
    hex_literal c = "0x" ++ String hi (String lo EmptyString) /\
    upper_hex_value hi = Some (byte_val c / 16)%Z /\
    upper_hex_value lo = Some (byte_val c mod 16)%Z.
Proof.
  destruct c; eexists; eexists; (split; [reflexivity|]);
    split; vm_compute; reflexivity.
Qed.

Lemma rows_of_nil (fuel : nat) : rows_of fuel [] = [].
Proof. now destruct fuel. Qed.

Lemma rows_of_fuel (fuel fuel' : nat) :
  forall data, (List.length data <= fuel)%nat ->
               (List.length data <= fuel')%nat ->
               rows_of fuel data = rows_of fuel' data.
Proof.
  revert fuel'. induction fuel as [|fuel IH]; intros fuel' data H H'.
  - destruct data; [now rewrite !rows_of_nil | cbn in H; lia].
  - destruct data as [|c data]; [now rewrite !rows_of_nil|].
    destruct fuel' as [|fuel']; [cbn in H'; lia|].
    cbn [rows_of]. f_equal.
    apply IH; rewrite length_skipn; cbn [List.length] in *; lia.
Qed.

Lemma rows_of_enough (fuel : nat) (data : bytes) :
  (List.length data <= fuel)%nat -> rows_of fuel data = rows data.
Proof. intros H. apply rows_of_fuel; [assumption | lia]. Qed.

Lemma rows_cons (c : byte) (data : bytes) :
  rows (c :: data) = firstn 16 (c :: data) :: rows (skipn 16 (c :: data)).
Proof.
  unfold rows at 1. cbn [List.length rows_of]. f_equal.
  apply rows_of_enough. rewrite length_skipn. cbn [List.length]. lia.
Qed.

Lemma rows_eq_nil (data : bytes) : rows data = [] <-> data = [].
Proof.
  destruct data; [now split|]. rewrite rows_cons. split; discriminate.
Qed.

(** The rows are the input cut every 16 bytes: in order, none empty,
    none longer than 16, and only the last may be shorter. *)
Lemma rows_partition (data : bytes) :
  List.concat (rows data) = data /\
  Forall (fun r => (1 <= List.length r <= 16)%nat) (rows data) /\
  (forall i, (S i < List.length (rows data))%nat ->
             List.length (nth i (rows data) []) = 16%nat).
Proof.
  remember (List.length data) as n eqn:Hn.
  revert data Hn. induction n as [n IH] using lt_wf_ind. intros data Hn.
  destruct data as [|c data]; [cbn; repeat split; [constructor | intros; lia]|].
  rewrite rows_cons.
  set (rest := skipn 16 (c :: data)).
  destruct (IH (List.length rest)) with (data := rest) as (Hc & Hf & Hfull);
    [subst n rest; rewrite length_skipn; cbn [List.length]; lia | reflexivity |].
  split; [|split].
  - cbn [List.concat]. rewrite Hc. apply firstn_skipn.
  - constructor; [|assumption].
    rewrite length_firstn. cbn [List.length]. lia.
  - intros [|i] Hi; cbn [nth List.length] in *.
    + rewrite length_firstn.
      assert (rest <> []) as Hrest
        by (intros E; rewrite (proj2 (rows_eq_nil rest) E) in Hi; cbn in Hi; lia).
      assert (List.length rest <> 0%nat)
        by (destruct rest; [congruence | cbn; lia]).
      subst rest. rewrite length_skipn in *. lia.
    + apply Hfull. lia.
Qed.

Lemma emit_row_text (data : bytes) (output : string) (i : Z) :
  0 <= i ->
  emit_row data output i
  = output ++ row_text (firstn 16 (skipn (Z.to_nat i) data))
                       (negb (i + 16 <? len data)%Z).
Proof.
  intros Hi. unfold emit_row, row_text, slice.
  replace (i + 16 - i)%Z with 16%Z by lia.
  change (Z.to_nat 16) with 16%nat.
  destruct (i + 16 <? len data)%Z; cbn [negb];
    rewrite ?append_assoc; reflexivity.
Qed.

Lemma emit_rows_from (data : bytes) (n : nat) :
  forall (i : Z) (output : string),
    0 <= i ->
    n = Z.to_nat ((len data - i + 15) / 16) ->
    fold_left (emit_row data) (range_from n i 16) output
    = output ++ rows_text (rows (skipn (Z.to_nat i) data)).
Proof.
  induction n as [|n IH]; intros i output Hi Hn.
  - assert (len data <= i) by (Z.div_mod_to_equations; lia).
    rewrite skipn_all2 by (unfold len in *; lia).
    cbn. now rewrite append_empty_r.
  - assert (Hlt : i < len data) by (Z.div_mod_to_equations; lia).
    cbn [range_from fold_left].
    rewrite IH; [|lia|Z.div_mod_to_equations; lia].
    rewrite emit_row_text by assumption.
    replace (Z.to_nat (i + 16)) with (16 + Z.to_nat i)%nat by lia.
    rewrite <- skipn_skipn.
    set (rest := skipn (Z.to_nat i) data).
    assert (Hrest : len rest = len data - i)
      by (unfold rest, len in *; rewrite length_skipn; lia).
    destruct rest as [|c rest'] eqn:E; [cbn in Hrest; lia|].
    rewrite rows_cons, append_assoc. f_equal.
    cbn [rows_text].
    destruct (rows (skipn 16 (c :: rest'))) as [|r rs] eqn:Er.
    + apply rows_eq_nil in Er.
      apply (f_equal (@List.length byte)) in Er.
      rewrite length_skipn in Er. rewrite len_cons in Hrest.
      cbn [List.length] in Er.
      destruct (Z.ltb_spec (i + 16) (len data)); [unfold len in *; lia|].
      cbn. now rewrite append_empty_r.
    + assert (skipn 16 (c :: rest') <> []) as Hne
        by (intros E0; apply rows_eq_nil in E0; congruence).
      assert (16 < List.length (c :: rest'))%nat.
      { destruct (Nat.le_gt_cases (List.length (c :: rest')) 16) as [Hle|]; [|assumption].
        exfalso. apply Hne. now apply skipn_all2. }
      destruct (Z.ltb_spec (i + 16) (len data)); [reflexivity|].
      unfold len in *. lia.
Qed.

(** The [for] loop appends exactly the text of the rows. *)
Lemma emit_rows_text (data : bytes) (output : string) :
  emit_rows data output = output ++ rows_text (rows data).
Proof.
  unfold emit_rows, range16.
  rewrite (emit_rows_from data _ 0 output); [reflexivity | lia |].
  f_equal. f_equal. lia.
Qed.

Lemma wav_to_c_array_text (wav_file : string) (data : bytes)
    (var_name : string) (info : header_info) :
  read_wav_header data = Ok info ->
  wav_to_c_array wav_file data var_name
  = Ok (preamble wav_file info data var_name
          ++ rows_text (rows data) ++ trailer var_name).
Proof.
  intros H. unfold wav_to_c_array. rewrite H. cbv zeta.
  rewrite emit_rows_text. unfold preamble, trailer.
  f_equal. rewrite !append_assoc. reflexivity.
Qed.

Lemma seventeen_rows (data : bytes) :
  List.length data = 17%nat ->
  rows data = [firstn 16 data; skipn 16 data] /\
  List.length (firstn 16 data) = 16%nat /\
  List.length (skipn 16 data) = 1%nat /\
  emit_rows data EmptyString
  = row_text (firstn 16 data) false ++ row_text (skipn 16 data) true.
Proof.
  intros Hlen. rewrite emit_rows_text.
  do 17 (destruct data as [|? data]; [discriminate Hlen|]).
  destruct data; [|discriminate Hlen].
  repeat split.
Qed.

(** C8 (as the code has it). For every input the header parser accepts,
    the encoder's output is the comment block and declaration opening,
    then the bytes in rows of 16 literals [0xHH] with upper-case digits,
    separated by a comma and a space, each row indented on its own line
    and followed by a comma except the row that holds the final byte,
    then the trailer. The row loop applied to any 17 bytes gives exactly
    two rows, 16 bytes then 1 byte, a comma after the first and none
    after the second; but no input of fewer than 36 bytes gets that far:
    the header parser rejects it. *)
Theorem encoder_rows :
  (forall (wav_file : string) (data : bytes) (var_name : string)
          (info : header_info),
      read_wav_header data = Ok info ->
      wav_to_c_array wav_file data var_name
      = Ok (preamble wav_file info data var_name
              ++ rows_text (rows data) ++ trailer var_name)) /\
  (forall (data : bytes) (output : string),
      emit_rows data output = output ++ rows_text (rows data)) /\
  (forall data : bytes,
      List.concat (rows data) = data /\
      Forall (fun r => (1 <= List.length r <= 16)%nat) (rows data) /\
      (forall i, (S i < List.length (rows data))%nat ->
                 List.length (nth i (rows data) []) = 16%nat)) /\
  (forall c : byte,
      exists hi lo : ascii,
        hex_literal c = "0x" ++ String hi (String lo EmptyString) /\
        upper_hex_value hi = Some (byte_val c / 16)%Z /\
        upper_hex_value lo = Some (byte_val c mod 16)%Z) /\
  (forall data : bytes,
      List.length data = 17%nat ->
      rows data = [firstn 16 data; skipn 16 data] /\
      List.length (firstn 16 data) = 16%nat /\
      List.length (skipn 16 data) = 1%nat /\
      emit_rows data EmptyString
      = row_text (firstn 16 data) false ++ row_text (skipn 16 data) true) /\
  (forall (wav_file : string) (data : bytes) (var_name : string),
      len data < 36 ->
      exists e, wav_to_c_array wav_file data var_name = Raise e).
Proof.
  split; [exact wav_to_c_array_text|].
  split; [exact emit_rows_text|].
  split; [exact rows_partition|].
  split; [exact hex_literal_shape|].
  split; [exact seventeen_rows|].
  intros wav_file data var_name Hlen. unfold wav_to_c_array.
  destruct (read_wav_header_short data Hlen) as [e ->]. eauto.
Qed.

Lemma encoder_rows_witness :
  wav_to_c_array "snd/beep.wav" list_then_fmt "beep"
  = Ok (preamble "snd/beep.wav" (fmt_fields_at list_then_fmt 24)
                 list_then_fmt "beep"
          ++ rows_text (rows list_then_fmt) ++ trailer "beep") /\
  (rows seventeen_bytes
   = [firstn 16 seventeen_bytes; skipn 16 seventeen_bytes] /\
   List.length (firstn 16 seventeen_bytes) = 16%nat /\
   List.length (skipn 16 seventeen_bytes) = 1%nat /\
   emit_rows seventeen_bytes EmptyString
   = row_text (firstn 16 seventeen_bytes) false
       ++ row_text (skipn 16 seventeen_bytes) true) /\
  exists e, wav_to_c_array "snd/beep.wav" seventeen_bytes "beep" = Raise e.
Proof.
  split; [|split].
  - apply (proj1 encoder_rows). vm_compute. reflexivity.
  - apply (proj1 (proj2 (proj2 (proj2 (proj2 encoder_rows))))).
    reflexivity.
  - apply (proj2 (proj2 (proj2 (proj2 (proj2 encoder_rows))))).
    vm_compute. reflexivity.
Defined.

(** C8, as stated, fails on [seventeen_bytes]: encoding these 17 bytes
    produces no rows at all, the header parser raises first. *)
Lemma encoding_17_bytes_raises :
  List.length seventeen_bytes = 17%nat /\
  wav_to_c_array "snd/beep.wav" seventeen_bytes "beep" = Raise no_fmt_chunk /\
  ~ (exists text, wav_to_c_array "snd/beep.wav" seventeen_bytes "beep"
                  = Ok text).
Proof.
  split; [reflexivity|]. split; [vm_compute; reflexivity|].
  intros [text H]. vm_compute in H. discriminate H.
Qed.

(** C7 (as the code has it). Encoding an input of zero bytes does not
    succeed: the header parser rejects it with the invalid-container
    error (missing RIFF header) and no array declaration is produced.
    Only the row loop taken alone yields an empty body on zero bytes. *)
Theorem encoding_zero_bytes_rejected (wav_file var_name : string) :
  wav_to_c_array wav_file [] var_name = Raise missing_riff /\
  invalid_container missing_riff /\
  emit_rows [] EmptyString = EmptyString.
Proof.
  split; [reflexivity|]. split; [now left | reflexivity].
Qed.

(** C7, as stated, fails: on the empty input the encoder raises. *)
Lemma encoding_zero_bytes_raises :
  ~ (exists text, wav_to_c_array "empty.wav" [] "empty" = Ok text).
Proof.
  intros [text H]. vm_compute in H. discriminate H.
Qed.

End Encoder.

(** ** Rounding to binary64 *)

Section Rounding.

(** The arithmetic of [float] rounds once, to nearest even.  This section
    derives, from the definition of that rounding, that a rounded value
    stays between any two representable numbers that enclose the exact
    one; the bounds on products, quotients of integers and conversions
    used for the tone synthesizer follow. *)

Lemma fexp_eq e : fexp64 e = Z.max (e - 53) (-1074).
Proof. reflexivity. Qed.

Lemma digits2_pos_size p : digits2_pos p = Pos.size p.
Proof. induction p; cbn; congruence. Qed.

Lemma Zdigits2_log2 m : 0 < m -> Zdigits2 m = Z.log2 m + 1.
Proof.
  destruct m as [|p|p]; try lia. intros _. cbn [Zdigits2].
  rewrite digits2_pos_size. destruct p; cbn; lia.
Qed.

Lemma Zdigits2_bounds m : 0 < m -> 2 ^ (Zdigits2 m - 1) <= m < 2 ^ Zdigits2 m.
Proof.
  intros H. rewrite Zdigits2_log2 by assumption.
  replace (Z.log2 m + 1 - 1) with (Z.log2 m) by lia.
  replace (Z.log2 m + 1) with (Z.succ (Z.log2 m)) by lia.
  apply Z.log2_spec. assumption.
Qed.

Lemma Zdigits2_nonneg m : 0 <= Zdigits2 m.
Proof. destruct m; cbn; lia. Qed.

(** digits is characterised by the bounds *)
Lemma Zdigits2_unique m d : 0 < m -> 2 ^ (d - 1) <= m < 2 ^ d -> Zdigits2 m = d.
Proof.
  intros Hm Hd. rewrite Zdigits2_log2 by assumption.
  assert (0 < d).
  { destruct (Z_lt_le_dec 0 d); [assumption|].
    destruct Hd as [_ Hd]. destruct (Z.eq_dec d 0) as [->|]; [cbn in Hd; lia|].
    rewrite Z.pow_neg_r in Hd by lia. lia. }
  enough (Z.log2 m = d - 1) by lia.
  apply Z.log2_unique; [lia|]. replace (Z.succ (d - 1)) with d by lia. assumption.
Qed.

Lemma loc_of_shr_record_exact r : loc_of_shr_record r = loc_Exact <-> inexact r = false.
Proof. destruct r as [m [|] [|]]; cbn; split; (discriminate || reflexivity). Qed.

Lemma shr_1_spec r : 0 <= shr_m r ->
  shr_m (shr_1 r) = shr_m r / 2 /\ inexact (shr_1 r) = inexact r || negb (shr_m r mod 2 =? 0).
Proof.
  destruct r as [m r s]. cbn [shr_m]. intros Hm. unfold inexact.
  destruct m as [|[p|p|]|p]; try lia; cbn [shr_1 shr_m shr_r shr_s].
  - split; [reflexivity| destruct r, s; reflexivity].
  - split.
    + rewrite Pos2Z.inj_xI. apply (Z.div_unique _ _ _ 1); lia.
    + rewrite Pos2Z.inj_xI. replace ((2 * Z.pos p + 1) mod 2) with 1.
      * destruct r, s; reflexivity.
      * apply (Z.mod_unique _ _ (Z.pos p)); lia.
  - split.
    + rewrite Pos2Z.inj_xO. apply (Z.div_unique _ _ _ 0); lia.
    + rewrite Pos2Z.inj_xO. replace ((2 * Z.pos p) mod 2) with 0.
      * destruct r, s; reflexivity.
      * apply (Z.mod_unique _ _ (Z.pos p)); lia.
  - split; [reflexivity | destruct r, s; reflexivity].
Qed.

Lemma mod_mul_zero m a c : 0 <= m -> 0 < a -> 0 < c ->
  (m mod (a * c) =? 0) = (m mod a =? 0) && ((m / a) mod c =? 0).
Proof.
  intros Hm Ha Hc. rewrite Z.rem_mul_r by lia.
  pose proof (Z.mod_pos_bound m a Ha). pose proof (Z.mod_pos_bound (m / a) c Hc).
  destruct (Z.eqb_spec (m mod a) 0) as [E|E];
  destruct (Z.eqb_spec ((m / a) mod c) 0) as [E'|E']; cbn;
    apply Z.eqb_eq || apply Z.eqb_neq; nia.
Qed.

Lemma pow2_xO p : 2 ^ Z.pos p~0 = 2 ^ Z.pos p * 2 ^ Z.pos p.
Proof. replace (Z.pos p~0) with (Z.pos p + Z.pos p) by lia.
  apply Z.pow_add_r; lia. Qed.

Lemma pow2_xI p : 2 ^ Z.pos p~1 = 2 * (2 ^ Z.pos p * 2 ^ Z.pos p).
Proof. replace (Z.pos p~1) with (1 + (Z.pos p + Z.pos p)) by lia.
  rewrite !Z.pow_add_r by lia. reflexivity. Qed.

Lemma pow2_pos n : 0 <= n -> 0 < 2 ^ n.
Proof. intros. apply Z.pow_pos_nonneg; lia. Qed.

Lemma iter_shr_1_spec p : forall r, 0 <= shr_m r ->
  shr_m (iter_pos shr_1 p r) = shr_m r / 2 ^ Zpos p /\
  inexact (iter_pos shr_1 p r) = inexact r || negb (shr_m r mod 2 ^ Zpos p =? 0).
Proof.
  induction p as [p IH|p IH|]; intros r Hr; cbn [iter_pos].
  - destruct (shr_1_spec r Hr) as [M1 I1].
    assert (H1 : 0 <= shr_m (shr_1 r)) by (rewrite M1; apply Z.div_pos; lia).
    destruct (IH _ H1) as [M2 I2].
    assert (Hp : 0 < 2 ^ Z.pos p) by (apply pow2_pos; lia).
    assert (H2 : 0 <= shr_m (iter_pos shr_1 p (shr_1 r)))
      by (rewrite M2; apply Z.div_pos; lia).
    destruct (IH _ H2) as [M3 I3].
    rewrite M3, I3, M2, I2, M1, I1, pow2_xI.
    split.
    + rewrite !Z.div_div by lia. reflexivity.
    + rewrite (mod_mul_zero (shr_m r) 2) by lia.
      rewrite (mod_mul_zero (shr_m r / 2)) by (try apply Z.div_pos; lia).
      rewrite !negb_andb, !orb_assoc. reflexivity.
  - assert (Hp : 0 < 2 ^ Z.pos p) by (apply pow2_pos; lia).
    destruct (IH _ Hr) as [M2 I2].
    assert (H2 : 0 <= shr_m (iter_pos shr_1 p r))
      by (rewrite M2; apply Z.div_pos; lia).
    destruct (IH _ H2) as [M3 I3].
    rewrite M3, I3, M2, I2, pow2_xO.
    split.
    + rewrite !Z.div_div by lia. reflexivity.
    + rewrite (mod_mul_zero (shr_m r)) by lia.
      rewrite !negb_andb, !orb_assoc. reflexivity.
  - change (2 ^ 1) with 2. apply shr_1_spec. assumption.
Qed.

Lemma shr_record_of_loc_spec m l :
  shr_m (shr_record_of_loc m l) = m /\ inexact (shr_record_of_loc m l) = negb (is_exact l).
Proof. destruct l as [|[| |]]; split; reflexivity. Qed.

Lemma shr_spec m l e n : 0 <= m ->
  snd (shr (shr_record_of_loc m l) e n) = e + Z.max n 0 /\
  shr_m (fst (shr (shr_record_of_loc m l) e n)) = m / 2 ^ Z.max n 0 /\
  inexact (fst (shr (shr_record_of_loc m l) e n))
  = negb (is_exact l) || negb (m mod 2 ^ Z.max n 0 =? 0).
Proof.
  intros Hm. destruct (shr_record_of_loc_spec m l) as [M I].
  destruct n as [|p|p]; cbn [shr fst snd].
  - change (Z.max 0 0) with 0. rewrite Z.pow_0_r, Z.div_1_r, Z.mod_1_r, M, I.
    cbn. rewrite orb_false_r. repeat split; lia.
  - replace (Z.max (Z.pos p) 0) with (Z.pos p) by lia.
    destruct (iter_shr_1_spec p (shr_record_of_loc m l)) as [M' I']; [lia|].
    rewrite M', I', M, I. repeat split.
  - replace (Z.max (Z.neg p) 0) with 0 by lia.
    rewrite Z.pow_0_r, Z.div_1_r, Z.mod_1_r, M, I.
    cbn. rewrite orb_false_r. repeat split; lia.
Qed.

Lemma round_nearest_even_spec m r :
  round_nearest_even m (loc_of_shr_record r) = m \/
  (round_nearest_even m (loc_of_shr_record r) = m + 1 /\ inexact r = true).
Proof.
  destruct r as [m' [|] [|]]; cbn; auto; destruct (Z.even m); auto.
Qed.

Lemma binary_round_aux_unfold sx mx ex lx :
  binary_round_aux float.prec float.emax sx mx ex lx =
  let r1 := shr_fexp float.prec float.emax mx ex lx in
  let m2 := round_nearest_even (shr_m (fst r1)) (loc_of_shr_record (fst r1)) in
  let r2 := shr_fexp float.prec float.emax m2 (snd r1) loc_Exact in
  build sx (shr_m (fst r2)) (snd r2).
Proof.
  unfold binary_round_aux. cbv zeta.
  destruct (shr_fexp float.prec float.emax mx ex lx) as [r1 e1]. cbn [fst snd].
  destruct (shr_fexp float.prec float.emax _ e1 loc_Exact) as [r2 e2]. reflexivity.
Qed.

Lemma fexp_ge e : -1074 <= fexp64 e /\ e - 53 <= fexp64 e.
Proof. rewrite fexp_eq. lia. Qed.

Lemma fexp_cases e : (fexp64 e = e - 53 /\ -1074 <= e - 53) \/ (fexp64 e = -1074 /\ e - 53 <= -1074).
Proof. rewrite fexp_eq. lia. Qed.

(** The mantissa left by the first shift. *)
Lemma shifted_mantissa mx ex :
  0 <= mx -> ex <= fexp64 (Zdigits2 mx + ex) ->
  let e1 := fexp64 (Zdigits2 mx + ex) in
  let delta := Zdigits2 mx + ex - e1 in
  let m1 := mx / 2 ^ (e1 - ex) in
  delta <= 53 /\
  ((1 <= delta /\ 2 ^ (delta - 1) <= m1 < 2 ^ delta) \/
   (delta <= 0 /\ m1 = 0 /\ e1 = -1074)).
Proof.
  intros Hm Hal. cbv zeta.
  pose proof (fexp_ge (Zdigits2 mx + ex)) as [Hmin Hprec].
  pose proof (fexp_cases (Zdigits2 mx + ex)) as Hcases.
  set (e1 := fexp64 (Zdigits2 mx + ex)) in *.
  set (delta := Zdigits2 mx + ex - e1).
  split; [unfold delta; lia|].
  assert (Hn : 0 < 2 ^ (e1 - ex)) by (apply pow2_pos; lia).
  destruct (Z_le_gt_dec delta 0) as [Hd|Hd].
  - right. split; [assumption|].
    assert (He1 : e1 = -1074) by (unfold delta in *; lia).
    split; [|assumption].
    destruct (Z.eq_dec mx 0) as [->|Hne]; [apply Z.div_0_l; lia|].
    apply Z.div_small. split; [lia|].
    destruct (Zdigits2_bounds mx ltac:(lia)) as [_ Hub].
    apply Z.lt_le_trans with (1 := Hub).
    apply Z.pow_le_mono_r; [lia | unfold delta in Hd; lia].
  - left. split; [lia|].
    assert (Hpos : 0 < mx).
    { destruct (Z.eq_dec mx 0) as [E|]; [|lia].
      subst mx. cbn in delta. unfold delta in Hd. lia. }
    destruct (Zdigits2_bounds mx Hpos) as [Hlb Hub].
    pose proof (Zdigits2_nonneg mx).
    assert (E1 : 2 ^ (Zdigits2 mx - 1) = 2 ^ (delta - 1) * 2 ^ (e1 - ex))
      by (rewrite <- Z.pow_add_r by (unfold delta; lia); f_equal; unfold delta; lia).
    assert (E2 : 2 ^ Zdigits2 mx = 2 ^ delta * 2 ^ (e1 - ex))
      by (rewrite <- Z.pow_add_r by (unfold delta; lia); f_equal; unfold delta; lia).
    split.
    + apply Z.div_le_lower_bound; [lia|]. rewrite Z.mul_comm. lia.
    + apply Z.div_lt_upper_bound; [lia|]. rewrite Z.mul_comm. lia.
Qed.

Lemma shr_fexp_unfold m e l :
  shr_fexp float.prec float.emax m e l
  = shr (shr_record_of_loc m l) e (fexp64 (Zdigits2 m + e) - e).
Proof. reflexivity. Qed.

Lemma renormalise (m2 e1 delta : Z) :
  -1074 <= e1 -> delta <= 53 ->
  (1 <= delta /\ 2 ^ (delta - 1) <= m2 <= 2 ^ delta /\ e1 = fexp64 (delta + e1)) \/
  (delta <= 0 /\ 0 <= m2 <= 1 /\ e1 = -1074) ->
  exists m3 e3,
    e1 <= e3 /\ m3 * 2 ^ (e3 - e1) = m2 /\ 0 <= m3 < 2 ^ 53 /\ -1074 <= e3 /\
    (0 < m3 -> fexp64 (Zdigits2 m3 + e3) = e3) /\
    shr_m (fst (shr_fexp float.prec float.emax m2 e1 loc_Exact)) = m3 /\
    snd (shr_fexp float.prec float.emax m2 e1 loc_Exact) = e3.
Proof.
  intros He1 Hd H.
  assert (Hm2 : 0 <= m2).
  { destruct H as [(H1 & H2 & _)|(_ & H2 & _)]; [|lia].
    pose proof (pow2_pos (delta - 1)). lia. }
  rewrite shr_fexp_unfold.
  destruct (shr_spec m2 loc_Exact e1 (fexp64 (Zdigits2 m2 + e1) - e1) Hm2)
    as (S1 & S2 & _).
  rewrite S1, S2. clear S1 S2.
  assert (keep : forall d, 0 < m2 -> Zdigits2 m2 = d -> fexp64 (d + e1) = e1 ->
                 m2 < 2 ^ 53 ->
    exists m3 e3,
      e1 <= e3 /\ m3 * 2 ^ (e3 - e1) = m2 /\ 0 <= m3 < 2 ^ 53 /\ -1074 <= e3 /\
      (0 < m3 -> fexp64 (Zdigits2 m3 + e3) = e3) /\
      m2 / 2 ^ Z.max (fexp64 (Zdigits2 m2 + e1) - e1) 0 = m3 /\
      e1 + Z.max (fexp64 (Zdigits2 m2 + e1) - e1) 0 = e3).
  { intros d Hpos Hdig Hfe Hlt. exists m2, e1. rewrite Hdig, Hfe.
    replace (e1 - e1) with 0 by lia. change (Z.max 0 0) with 0.
    rewrite Z.pow_0_r, Z.div_1_r. repeat split; lia. }
  destruct H as [(H1 & [Hlo Hhi] & He)|(H1 & H2 & He)].
  - assert (Hpd : 0 < 2 ^ (delta - 1)) by (apply pow2_pos; lia).
    assert (Hpow : 2 ^ delta = 2 * 2 ^ (delta - 1)).
    { replace delta with (1 + (delta - 1)) at 1 by lia.
      rewrite Z.pow_add_r by lia. reflexivity. }
    destruct (Z.eq_dec m2 (2 ^ delta)) as [Etop|Hne].
    + (* the rounding carried into a new bit *)
      assert (Hdig : Zdigits2 m2 = delta + 1).
      { apply Zdigits2_unique; [lia|].
        replace (delta + 1 - 1) with delta by lia.
        replace (delta + 1) with (1 + delta) by lia.
        rewrite (Z.pow_add_r 2 1 delta) by lia. change (2 ^ 1) with 2. lia. }
      destruct (Z.eq_dec delta 53) as [E53|N53].
      * subst delta.
        assert (Hfe : fexp64 (Zdigits2 m2 + e1) = e1 + 1)
          by (rewrite Hdig, fexp_eq; lia).
        rewrite Hfe. replace (e1 + 1 - e1) with 1 by lia.
        change (Z.max 1 0) with 1. change (2 ^ 1) with 2.
        exists (2 ^ 52), (e1 + 1).
        replace (e1 + 1 - e1) with 1 by lia.
        repeat split; try lia.
        -- intros _. change (Zdigits2 (2 ^ 52)) with 53. rewrite fexp_eq. lia.
        -- rewrite Etop. reflexivity.
      * assert (He1' : e1 = -1074) by (rewrite fexp_eq in He; lia).
        apply (keep (delta + 1)); try lia.
        -- rewrite fexp_eq. lia.
        -- rewrite Etop. apply Z.pow_lt_mono_r; lia.
    + apply (keep delta); try lia.
      * apply Zdigits2_unique; lia.
      * apply Z.lt_le_trans with (2 ^ delta); [lia|].
        apply Z.pow_le_mono_r; lia.
  - destruct (Z.eq_dec m2 0) as [->|Hne].
    + exists 0, e1. change (Zdigits2 0) with 0. subst e1.
      cbn. repeat split; lia.
    + assert (m2 = 1) by lia. subst m2 e1. exists 1, (-1074).
      cbn. repeat split; lia.
Qed.

Lemma binary_round_aux_spec sx mx ex lx :
  0 <= mx -> ex <= fexp64 (Zdigits2 mx + ex) ->
  exists m2 m3 e3,
    (m2 = mx / 2 ^ (fexp64 (Zdigits2 mx + ex) - ex) \/
     (m2 = mx / 2 ^ (fexp64 (Zdigits2 mx + ex) - ex) + 1 /\
      (is_exact lx = false \/ mx mod 2 ^ (fexp64 (Zdigits2 mx + ex) - ex) <> 0))) /\
    (-1074 < fexp64 (Zdigits2 mx + ex) -> 2 ^ 52 <= mx / 2 ^ (fexp64 (Zdigits2 mx + ex) - ex)) /\
    fexp64 (Zdigits2 mx + ex) <= e3 /\
    m3 * 2 ^ (e3 - fexp64 (Zdigits2 mx + ex)) = m2 /\
    0 <= m3 < 2 ^ 53 /\ -1074 <= e3 /\
    (0 < m3 -> fexp64 (Zdigits2 m3 + e3) = e3) /\
    binary_round_aux float.prec float.emax sx mx ex lx = build sx m3 e3.
Proof.
  intros Hm Hal.
  rewrite binary_round_aux_unfold. cbv zeta.
  rewrite (shr_fexp_unfold mx ex lx).
  destruct (shr_spec mx lx ex (fexp64 (Zdigits2 mx + ex) - ex) Hm) as (S1 & S2 & S3).
  destruct (shifted_mantissa mx ex Hm Hal) as [Hd Hcases]. cbv zeta in Hd, Hcases.
  pose proof (fexp_ge (Zdigits2 mx + ex)) as [Hmin _].
  pose proof (fexp_cases (Zdigits2 mx + ex)) as Hfc.
  set (e1 := fexp64 (Zdigits2 mx + ex)) in *.
  replace (Z.max (e1 - ex) 0) with (e1 - ex) in * by lia.
  set (m1 := mx / 2 ^ (e1 - ex)) in *.
  set (delta := Zdigits2 mx + ex - e1) in *.
  set (r1 := shr (shr_record_of_loc mx lx) ex (e1 - ex)) in *.
  assert (Hdelta : delta = Zdigits2 mx + ex - e1) by reflexivity.
  assert (He1 : e1 = fexp64 (delta + e1))
    by (replace (delta + e1) with (Zdigits2 mx + ex) by lia; reflexivity).
  clearbody delta e1 m1 r1.
  rewrite S1. replace (ex + (e1 - ex)) with e1 by lia.
  set (m2 := round_nearest_even (shr_m (fst r1)) (loc_of_shr_record (fst r1))).
  assert (Hm2 : m2 = m1 \/ (m2 = m1 + 1 /\ (is_exact lx = false \/ mx mod 2 ^ (e1 - ex) <> 0))).
  { unfold m2. destruct (round_nearest_even_spec (shr_m (fst r1)) (fst r1)) as [E|[E I]];
      rewrite E, S2; [left; reflexivity|right].
    split; [reflexivity|]. rewrite S3 in I.
    apply orb_true_iff in I. destruct I as [I|I].
    - left. now apply negb_true_iff.
    - right. apply negb_true_iff in I. now apply Z.eqb_neq. }
  assert (Hpd : 1 <= delta -> 2 ^ delta = 2 * 2 ^ (delta - 1)).
  { intros. replace delta with (1 + (delta - 1)) at 1 by lia.
    rewrite Z.pow_add_r by lia. reflexivity. }
  destruct (renormalise m2 e1 delta Hmin Hd) as (m3 & e3 & R1 & R2 & R3 & R4 & R5 & R6 & R7).
  { destruct Hcases as [(H1 & H2)|(H1 & H2 & H3)]; [left|right].
    - split; [assumption|]. split; [|assumption].
      specialize (Hpd H1). destruct Hm2 as [E|[E _]]; rewrite E; lia.
    - split; [assumption|]. split; [|assumption].
      destruct Hm2 as [E|[E _]]; rewrite E; lia. }
  exists m2, m3, e3. rewrite R6, R7.
  assert (H52 : -1074 < e1 -> 2 ^ 52 <= m1).
  { intros Hn. destruct Hcases as [(H1 & H2)|(H1 & H2 & H3)]; [|lia].
    assert (delta = 53) by (clear - Hn Hfc Hdelta; lia).
    replace (delta - 1) with 52 in H2 by lia. lia. }
  repeat split; try assumption; try lia.
Qed.

Lemma dle_scale m1 e1 m2 e2 k :
  k <= e1 -> k <= e2 ->
  (dle m1 e1 m2 e2 <-> m1 * 2 ^ (e1 - k) <= m2 * 2 ^ (e2 - k)).
Proof.
  intros H1 H2. unfold dle.
  set (mu := Z.min e1 e2).
  assert (Hmu : k <= mu) by (unfold mu; lia).
  assert (Hp : 0 < 2 ^ (mu - k)) by (apply pow2_pos; lia).
  replace (e1 - k) with ((e1 - mu) + (mu - k)) by lia.
  replace (e2 - k) with ((e2 - mu) + (mu - k)) by lia.
  rewrite !Z.pow_add_r by (unfold mu; lia).
  rewrite !Z.mul_assoc.
  split; intros H.
  - apply Z.mul_le_mono_nonneg_r; lia.
  - apply Z.mul_le_mono_pos_r in H; lia.
Qed.

(** What rounding does to the quotient [N / D] scaled by [2^ex]: the
    result is the floor or the ceiling at the target exponent. *)
Lemma round_sandwich sx N D ex lx :
  0 <= N -> 0 < D ->
  (is_exact lx = false -> N mod D <> 0) ->
  ex <= fexp64 (Zdigits2 (N / D) + ex) ->
  exists e1 m1 m2 m3 e3,
    ex <= e1 /\ -1074 <= e1 /\
    D * m1 * 2 ^ (e1 - ex) <= N < D * (m1 + 1) * 2 ^ (e1 - ex) /\
    (m2 = m1 \/ (m2 = m1 + 1 /\ D * m1 * 2 ^ (e1 - ex) < N)) /\
    (-1074 < e1 -> 2 ^ 52 <= m1) /\
    e1 <= e3 /\ m3 * 2 ^ (e3 - e1) = m2 /\
    0 <= m3 < 2 ^ 53 /\ -1074 <= e3 /\
    (0 < m3 -> fexp64 (Zdigits2 m3 + e3) = e3) /\
    binary_round_aux float.prec float.emax sx (N / D) ex lx = build sx m3 e3.
Proof.
  intros HN HD Hloc Hal.
  assert (Hmx : 0 <= N / D) by (apply Z.div_pos; lia).
  destruct (binary_round_aux_spec sx (N / D) ex lx Hmx Hal)
    as (m2 & m3 & e3 & Hm2 & H52 & R1 & R2 & R3 & R4 & R5 & R6).
  pose proof (fexp_ge (Zdigits2 (N / D) + ex)) as [Hmin _].
  set (e1 := fexp64 (Zdigits2 (N / D) + ex)) in *. clearbody e1.
  exists e1, (N / D / 2 ^ (e1 - ex)), m2, m3, e3.
  assert (HP : 0 < 2 ^ (e1 - ex)) by (apply pow2_pos; lia).
  set (P := 2 ^ (e1 - ex)) in *. clearbody P.
  pose proof (Z.div_mod N D ltac:(lia)) as E1.
  pose proof (Z.mod_pos_bound N D HD) as B1.
  pose proof (Z.div_mod (N / D) P ltac:(lia)) as E2.
  pose proof (Z.mod_pos_bound (N / D) P HP) as B2.
  set (mx := N / D) in *. set (m1 := mx / P) in *.
  set (r := N mod D) in *. set (r' := mx mod P) in *.
  clearbody mx m1 r r'.
  assert (EN : N = D * m1 * P + (D * r' + r)) by (subst N mx; ring).
  assert (0 <= D * r') by (apply Z.mul_nonneg_nonneg; lia).
  assert (D * r' + r < D * P).
  { assert (D * (r' + 1) <= D * P) by (apply Z.mul_le_mono_nonneg_l; lia).
    lia. }
  repeat split; try assumption; try lia.
  destruct Hm2 as [E|[E Hin]]; [left; assumption|right].
  split; [assumption|].
  destruct Hin as [Hin|Hin].
  - specialize (Hloc Hin). lia.
  - assert (0 < D * r') by (apply Z.mul_pos_pos; lia). lia.
Qed.

Lemma pow2_split a c : 0 <= c -> c <= a -> 2 ^ a = 2 ^ (a - c) * 2 ^ c.
Proof.
  intros. rewrite <- Z.pow_add_r by lia. f_equal. lia.
Qed.

Lemma canonical_normal m e :
  0 < m -> fexp64 (Zdigits2 m + e) = e -> -1074 < e -> 2 ^ 52 <= m.
Proof.
  intros Hm Hc He. rewrite fexp_eq in Hc.
  assert (Zdigits2 m = 53) by lia.
  destruct (Zdigits2_bounds m Hm) as [Hlo _].
  replace (Zdigits2 m - 1) with 52 in Hlo by lia. assumption.
Qed.

Lemma round_bounds sx N D ex lx :
  0 <= N -> 0 < D ->
  (is_exact lx = false -> N mod D <> 0) ->
  ex <= fexp64 (Zdigits2 (N / D) + ex) ->
  exists m3 e3,
    binary_round_aux float.prec float.emax sx (N / D) ex lx = build sx m3 e3 /\
    0 <= m3 < 2 ^ 53 /\ -1074 <= e3 /\
    (0 < m3 -> fexp64 (Zdigits2 m3 + e3) = e3) /\
    (forall mb eb, 0 <= mb <= 2 ^ 53 -> -1074 <= eb <= 970 ->
       dle N ex (D * mb) eb -> dle m3 e3 mb eb /\ (0 < m3 -> e3 <= 971)) /\
    (forall mb eb, 0 <= mb <= 2 ^ 53 -> -1074 <= eb ->
       dle (D * mb) eb N ex -> dle mb eb m3 e3).
Proof.
  intros HN HD Hloc Hal.
  destruct (round_sandwich sx N D ex lx HN HD Hloc Hal)
    as (e1 & m1 & m2 & m3 & e3 & A1 & A2 & A3 & A4 & A5 & A6 & A7 & A8 & A9 & A10 & A11).
  exists m3, e3. repeat (split; [assumption || lia|]).
  assert (Hm1 : m1 <= m2 <= m1 + 1) by (destruct A4 as [->|[-> _]]; lia).
  assert (HP : 0 < 2 ^ (e1 - ex)) by (apply pow2_pos; lia).
  set (P := 2 ^ (e1 - ex)) in *.
  assert (Hhi : D * (m2 - 1) * P < N).
  { destruct A4 as [->|[-> Hs]].
    - assert (D * (m1 - 1) * P < D * m1 * P); [|lia].
      apply Z.mul_lt_mono_pos_r; [lia|]. apply Z.mul_lt_mono_pos_l; lia.
    - replace (m1 + 1 - 1) with m1 by lia. assumption. }
  assert (upper : forall mb eb, 0 <= mb <= 2 ^ 53 -> -1074 <= eb <= 970 ->
            dle N ex (D * mb) eb -> dle m3 e3 mb eb).
  { intros mb eb Hmb Heb H.
    set (k := Z.min ex eb).
    change (N * 2 ^ (ex - k) <= D * mb * 2 ^ (eb - k)) in H.
    apply (dle_scale _ _ _ _ k); [unfold k; lia|unfold k; lia|].
    assert (HX : 0 < 2 ^ (ex - k)) by (apply pow2_pos; unfold k; lia).
    set (X := 2 ^ (ex - k)) in *.
    assert (E3 : m3 * 2 ^ (e3 - k) = m2 * P * X).
    { rewrite <- A7. rewrite (pow2_split (e3 - k) (e1 - k)) by (unfold k; lia).
      replace (e3 - k - (e1 - k)) with (e3 - e1) by lia.
      rewrite (pow2_split (e1 - k) (ex - k)) by (unfold k; lia).
      replace (e1 - k - (ex - k)) with (e1 - ex) by lia.
      fold P X. ring. }
    rewrite E3.
    destruct (Z_le_gt_dec e1 eb) as [Hle|Hgt].
    - assert (EB : 2 ^ (eb - k) = 2 ^ (eb - e1) * P * X).
      { rewrite (pow2_split (eb - k) (e1 - k)) by (unfold k; lia).
        replace (eb - k - (e1 - k)) with (eb - e1) by lia.
        rewrite (pow2_split (e1 - k) (ex - k)) by (unfold k; lia).
        replace (e1 - k - (ex - k)) with (e1 - ex) by lia.
        fold P X. ring. }
      rewrite EB in *.
      assert (0 < 2 ^ (eb - e1)) by (apply pow2_pos; lia).
      set (K := mb * 2 ^ (eb - e1)).
      assert (HK : N <= D * K * P).
      { apply (Z.mul_le_mono_pos_r _ _ X HX).
        unfold K. replace (D * (mb * 2 ^ (eb - e1)) * P * X)
          with (D * mb * (2 ^ (eb - e1) * P * X)) by ring. assumption. }
      assert (m2 - 1 < K).
      { apply (Z.mul_lt_mono_pos_l D); [lia|].
        apply (Z.mul_lt_mono_pos_r P); [lia|]. lia. }
      replace (mb * (2 ^ (eb - e1) * P * X)) with (K * (P * X)) by (unfold K; ring).
      rewrite <- Z.mul_assoc. apply Z.mul_le_mono_nonneg_r; [|lia].
      apply Z.mul_nonneg_nonneg; lia.
    - specialize (A5 ltac:(lia)).
      assert (HY : 0 < 2 ^ (eb - k)) by (apply pow2_pos; unfold k; lia).
      set (Y := 2 ^ (eb - k)) in *.
      assert (EQ : P * X = 2 ^ (e1 - eb) * Y).
      { unfold P, X, Y. rewrite <- !Z.pow_add_r by (unfold k; lia).
        f_equal. lia. }
      assert (HQ : 2 <= 2 ^ (e1 - eb)).
      { change 2 with (2 ^ 1) at 1. apply Z.pow_le_mono_r; lia. }
      set (Q := 2 ^ (e1 - eb)) in *.
      (* D*m1*P*X <= N*X <= D*mb*Y <= D*2^53*Y and P*X = Q*Y *)
      assert (H1 : D * m1 * P * X <= D * mb * Y).
      { apply Z.le_trans with (N * X); [|assumption].
        apply Z.mul_le_mono_nonneg_r; lia. }
      replace (D * m1 * P * X) with (D * (m1 * Q * Y)) in H1
        by (rewrite <- !Z.mul_assoc, EQ; ring).
      replace (D * mb * Y) with (D * (mb * Y)) in H1 by ring.
      apply Z.mul_le_mono_pos_l in H1; [|lia].
      apply Z.mul_le_mono_pos_r in H1; [|lia].
      assert (2 ^ 53 <= m1 * Q) by nia.
      assert (Htight : mb = 2 ^ 53 /\ m1 * Q = 2 ^ 53) by lia.
      destruct Htight as [Emb EmQ].
      assert (Em : m2 = m1).
      { destruct A4 as [E|[E Hs]]; [assumption|exfalso].
        assert (D * m1 * P * X < N * X) by (apply Z.mul_lt_mono_pos_r; lia).
        assert (D * m1 * P * X = D * mb * Y)
          by (rewrite <- !Z.mul_assoc, EQ, Emb, <- EmQ; ring).
        lia. }
      rewrite Em. replace (m1 * P * X) with (m1 * Q * Y)
        by (rewrite <- !Z.mul_assoc, EQ; ring).
      rewrite EmQ, Emb. lia. }
  split.
  - intros mb eb Hmb Heb H. split; [now apply upper|].
    intros Hpos.
    destruct (Z_le_gt_dec e3 971) as [|Hov]; [assumption|exfalso].
    pose proof (canonical_normal m3 e3 Hpos (A10 Hpos) ltac:(lia)) as Hn.
    pose proof (upper mb eb Hmb Heb H) as Hu.
    apply (dle_scale _ _ _ _ eb) in Hu; [|lia|lia].
    replace (eb - eb) with 0 in Hu by lia. rewrite Z.pow_0_r in Hu.
    assert (4 <= 2 ^ (e3 - eb)).
    { change 4 with (2 ^ 2). apply Z.pow_le_mono_r; lia. }
    nia.
  - intros mb eb Hmb Heb H.
    set (k := Z.min eb ex).
    change (D * mb * 2 ^ (eb - k) <= N * 2 ^ (ex - k)) in H.
    apply (dle_scale _ _ _ _ k); [unfold k; lia|unfold k; lia|].
    assert (HX : 0 < 2 ^ (ex - k)) by (apply pow2_pos; unfold k; lia).
    set (X := 2 ^ (ex - k)) in *.
    assert (E3 : m3 * 2 ^ (e3 - k) = m2 * P * X).
    { rewrite <- A7. rewrite (pow2_split (e3 - k) (e1 - k)) by (unfold k; lia).
      replace (e3 - k - (e1 - k)) with (e3 - e1) by lia.
      rewrite (pow2_split (e1 - k) (ex - k)) by (unfold k; lia).
      replace (e1 - k - (ex - k)) with (e1 - ex) by lia.
      fold P X. ring. }
    rewrite E3.
    destruct (Z_le_gt_dec e1 eb) as [Hle|Hgt].
    + assert (EB : 2 ^ (eb - k) = 2 ^ (eb - e1) * P * X).
      { rewrite (pow2_split (eb - k) (e1 - k)) by (unfold k; lia).
        replace (eb - k - (e1 - k)) with (eb - e1) by lia.
        rewrite (pow2_split (e1 - k) (ex - k)) by (unfold k; lia).
        replace (e1 - k - (ex - k)) with (e1 - ex) by lia.
        fold P X. ring. }
      rewrite EB in *.
      assert (0 < 2 ^ (eb - e1)) by (apply pow2_pos; lia).
      set (K := mb * 2 ^ (eb - e1)).
      assert (HK : D * K * P <= N).
      { apply (Z.mul_le_mono_pos_r _ _ X HX).
        unfold K. replace (D * (mb * 2 ^ (eb - e1)) * P * X)
          with (D * mb * (2 ^ (eb - e1) * P * X)) by ring. assumption. }
      assert (K < m1 + 1).
      { apply (Z.mul_lt_mono_pos_l D); [lia|].
        apply (Z.mul_lt_mono_pos_r P); [lia|]. lia. }
      replace (mb * (2 ^ (eb - e1) * P * X)) with (K * (P * X)) by (unfold K; ring).
      rewrite <- Z.mul_assoc. apply Z.mul_le_mono_nonneg_r; [|lia].
      apply Z.mul_nonneg_nonneg; lia.
    + specialize (A5 ltac:(lia)).
      assert (HY : 0 < 2 ^ (eb - k)) by (apply pow2_pos; unfold k; lia).
      set (Y := 2 ^ (eb - k)) in *.
      assert (EQ : P * X = 2 ^ (e1 - eb) * Y).
      { unfold P, X, Y. rewrite <- !Z.pow_add_r by (unfold k; lia).
        f_equal. lia. }
      assert (HQ : 2 <= 2 ^ (e1 - eb)).
      { change 2 with (2 ^ 1) at 1. apply Z.pow_le_mono_r; lia. }
      set (Q := 2 ^ (e1 - eb)) in *.
      rewrite <- Z.mul_assoc, EQ, Z.mul_assoc.
      apply Z.mul_le_mono_nonneg_r; [lia|]. nia.
Qed.

Lemma dle_trans a ea c ec d ed :
  dle a ea c ec -> dle c ec d ed -> dle a ea d ed.
Proof.
  intros H1 H2.
  set (k := Z.min ea (Z.min ec ed)).
  apply (dle_scale _ _ _ _ k) in H1; [|unfold k; lia|unfold k; lia].
  apply (dle_scale _ _ _ _ k) in H2; [|unfold k; lia|unfold k; lia].
  apply (dle_scale _ _ _ _ k); [unfold k; lia|unfold k; lia|]. lia.
Qed.

Lemma dle_mul a ea c ec a' ea' c' ec' :
  0 <= a -> 0 <= a' ->
  dle a ea c ec -> dle a' ea' c' ec' ->
  dle (a * a') (ea + ea') (c * c') (ec + ec').
Proof.
  intros Ha Ha' H1 H2.
  set (k := Z.min ea ec). set (k' := Z.min ea' ec').
  apply (dle_scale _ _ _ _ k) in H1; [|unfold k; lia|unfold k; lia].
  apply (dle_scale _ _ _ _ k') in H2; [|unfold k'; lia|unfold k'; lia].
  apply (dle_scale _ _ _ _ (k + k')); [unfold k, k'; lia|unfold k, k'; lia|].
  replace (ea + ea' - (k + k')) with ((ea - k) + (ea' - k')) by lia.
  replace (ec + ec' - (k + k')) with ((ec - k) + (ec' - k')) by lia.
  rewrite !Z.pow_add_r by (unfold k, k'; lia).
  assert (0 < 2 ^ (ea - k)) by (apply pow2_pos; unfold k; lia).
  assert (0 < 2 ^ (ea' - k')) by (apply pow2_pos; unfold k'; lia).
  replace (a * a' * (2 ^ (ea - k) * 2 ^ (ea' - k')))
    with ((a * 2 ^ (ea - k)) * (a' * 2 ^ (ea' - k'))) by ring.
  replace (c * c' * (2 ^ (ec - k) * 2 ^ (ec' - k')))
    with ((c * 2 ^ (ec - k)) * (c' * 2 ^ (ec' - k'))) by ring.
  apply Z.mul_le_mono_nonneg; try assumption; apply Z.mul_nonneg_nonneg; lia.
Qed.

Lemma valid_finite s m e :
  valid_binary float.prec float.emax (S754_finite s m e) = true ->
  fexp64 (Zdigits2 (Zpos m) + e) = e /\ e <= 971.
Proof.
  cbn [valid_binary]. unfold bounded, canonical_mantissa.
  intros H. apply andb_true_iff in H. destruct H as [H1 H2].
  apply Z.eqb_eq in H1. apply Z.leb_le in H2. split; [exact H1|].
  change (float.emax - float.prec) with 971 in H2. assumption.
Qed.

Lemma build_bounded sx m3 e3 mb eb :
  0 <= m3 -> (0 < m3 -> fexp64 (Zdigits2 m3 + e3) = e3) ->
  (0 < m3 -> e3 <= 971) -> dle m3 e3 mb eb ->
  bounded_by (build sx m3 e3) mb eb.
Proof.
  intros Hm Hc He Hd. destruct m3 as [|p|p]; try lia; cbn [build bounded_by].
  - exact I.
  - specialize (Hc ltac:(lia)). specialize (He ltac:(lia)).
    destruct (Z.leb_spec e3 971); [|lia]. cbn [bounded_by valid_binary].
    split; [|assumption].
    unfold bounded, canonical_mantissa. apply andb_true_iff. split.
    + apply Z.eqb_eq. exact Hc.
    + apply Z.leb_le. change (float.emax - float.prec) with 971. assumption.
Qed.

Lemma build_at_least sx m3 e3 mb eb :
  0 <= m3 -> (0 < m3 -> e3 <= 971) -> dle mb eb m3 e3 ->
  at_least (build sx m3 e3) mb eb.
Proof.
  intros Hm He Hd. destruct m3 as [|p|p]; try lia; cbn [build at_least].
  - unfold dle in Hd. rewrite Z.mul_0_l in Hd.
    assert (0 < 2 ^ (eb - Z.min eb e3)) by (apply pow2_pos; lia). nia.
  - specialize (He ltac:(lia)).
    destruct (Z.leb_spec e3 971); [|lia]. assumption.
Qed.

Lemma Zdigits2_mul a c :
  0 < a -> 0 < c -> Zdigits2 a + Zdigits2 c - 1 <= Zdigits2 (a * c).
Proof.
  intros Ha Hc.
  destruct (Zdigits2_bounds a Ha) as [La _].
  destruct (Zdigits2_bounds c Hc) as [Lc _].
  assert (Hda : 1 <= Zdigits2 a) by (rewrite Zdigits2_log2 by lia; pose proof (Z.log2_nonneg a); lia).
  assert (Hdc : 1 <= Zdigits2 c) by (rewrite Zdigits2_log2 by lia; pose proof (Z.log2_nonneg c); lia).
  rewrite (Zdigits2_log2 (a * c)) by nia.
  assert (2 ^ (Zdigits2 a - 1 + (Zdigits2 c - 1)) <= a * c).
  { rewrite Z.pow_add_r by lia. apply Z.mul_le_mono_nonneg; try lia;
      apply Z.lt_le_incl, pow2_pos; lia. }
  assert (Zdigits2 a - 1 + (Zdigits2 c - 1) <= Z.log2 (a * c)).
  { apply Z.log2_le_pow2; [nia|assumption]. }
  lia.
Qed.

Lemma SFmul_bounded x y mbx ebx mby eby :
  bounded_by x mbx ebx -> bounded_by y mby eby ->
  0 <= mbx * mby <= 2 ^ 53 -> -1074 <= ebx + eby <= 970 ->
  bounded_by (SFmul float.prec float.emax x y) (mbx * mby) (ebx + eby).
Proof.
  intros Hx Hy Hmb Heb.
  destruct x as [sx|sx| |sx mx ex]; destruct y as [sy|sy| |sy my ey];
    cbn [bounded_by] in Hx, Hy; try contradiction; try exact I.
  destruct Hx as [Vx Bx]. destruct Hy as [Vy By].
  apply valid_finite in Vx, Vy. destruct Vx as [Cx _]. destruct Vy as [Cy _].
  cbn [SFmul].
  assert (Hal : ex + ey <= fexp64 (Zdigits2 (Zpos (mx * my) / 1) + (ex + ey))).
  { rewrite Z.div_1_r, Pos2Z.inj_mul.
    pose proof (Zdigits2_mul (Zpos mx) (Zpos my) ltac:(lia) ltac:(lia)) as Hd.
    assert (1 <= Zdigits2 (Zpos mx)) by (cbn; lia).
    assert (1 <= Zdigits2 (Zpos my)) by (cbn; lia).
    rewrite fexp_eq in *. lia. }
  destruct (round_bounds (xorb sx sy) (Zpos (mx * my)) 1 (ex + ey) loc_Exact)
    as (m3 & e3 & R & Rm & Re & Rc & Ru & _); try lia; try assumption.
  { discriminate. }
  rewrite Z.div_1_r in R. rewrite R.
  destruct (Ru (mbx * mby) (ebx + eby) Hmb Heb) as [U1 U2].
  { rewrite Z.mul_1_l, Pos2Z.inj_mul. apply dle_mul; try lia; assumption. }
  apply build_bounded; try assumption; lia.
Qed.

Lemma is_exact_new_location nb k : is_exact (new_location nb k) = (k =? 0).
Proof.
  unfold new_location, new_location_even, new_location_odd.
  destruct (Z.even nb); destruct (k =? 0); reflexivity.
Qed.

Lemma SFdiv_core_ints (a c : positive) :
  let s := - Z.min (fexp64 (Zdigits2 (Zpos a) - Zdigits2 (Zpos c))) 0 in
  SFdiv_core_binary float.prec float.emax (Zpos a) 0 (Zpos c) 0
  = ((Zpos a * 2 ^ s) / Zpos c, - s,
     new_location (Zpos c) ((Zpos a * 2 ^ s) mod Zpos c)).
Proof.
  intros s. unfold SFdiv_core_binary.
  rewrite !Z.add_0_r. change (0 - 0) with 0.
  change (SpecFloat.fexp float.prec float.emax) with fexp64.
  set (e' := Z.min (fexp64 (Zdigits2 (Zpos a) - Zdigits2 (Zpos c))) 0).
  assert (Hs : s = 0 - e') by (unfold s, e'; lia).
  rewrite <- Hs.
  assert (Hs0 : 0 <= s) by (unfold s; lia).
  replace e' with (- s) by lia.
  clearbody s e'.
  assert (Em : match s with
               | 0 => Zpos a
               | Zpos _ => Z.shiftl (Zpos a) s
               | Zneg _ => 0
               end = Zpos a * 2 ^ s).
  { destruct s as [|p|p]; try lia.
    apply Z.shiftl_mul_pow2. lia. }
  rewrite Em. unfold Z.div, Z.modulo.
  destruct (Z.div_eucl (Zpos a * 2 ^ s) (Zpos c)) as [q r]. reflexivity.
Qed.

Lemma digits_ge q t : 0 <= t -> 2 ^ t <= q -> t + 1 <= Zdigits2 q.
Proof.
  intros Ht Hq. assert (0 < q) by (pose proof (pow2_pos t Ht); lia).
  rewrite Zdigits2_log2 by assumption.
  assert (t <= Z.log2 q) by (apply Z.log2_le_pow2; assumption). lia.
Qed.

Lemma quotient_ge N D t : 0 < D -> 0 <= t -> 2 ^ t * D <= N -> 2 ^ t <= N / D.
Proof.
  intros HD Ht H. apply Z.div_le_lower_bound; [assumption|]. lia.
Qed.

Lemma div_aligned (a c : positive) :
  let s := - Z.min (fexp64 (Zdigits2 (Zpos a) - Zdigits2 (Zpos c))) 0 in
  - s <= fexp64 (Zdigits2 (Zpos a * 2 ^ s / Zpos c) + - s).
Proof.
  intros s.
  set (d1 := Zdigits2 (Zpos a)). set (d2 := Zdigits2 (Zpos c)).
  destruct (Zdigits2_bounds (Zpos a) ltac:(lia)) as [La Ua].
  destruct (Zdigits2_bounds (Zpos c) ltac:(lia)) as [Lc Uc].
  fold d1 in La, Ua. fold d2 in Lc, Uc.
  assert (H1 : 1 <= d1) by (unfold d1; cbn; lia).
  assert (H2 : 1 <= d2) by (unfold d2; cbn; lia).
  assert (Hs : s = - Z.min (fexp64 (d1 - d2)) 0) by reflexivity.
  clearbody s d1 d2.
  pose proof (fexp_cases (d1 - d2)) as Hphi.
  pose proof (fexp_ge (Zdigits2 (Zpos a * 2 ^ s / Zpos c) + - s)) as [G1 G2].
  destruct Hphi as [[Ephi Hn]|[Ephi Hn]].
  - (* the quotient is in the normal range *)
    assert (Hs0 : 0 <= s) by lia.
    set (t := d1 - 1 + s - d2).
    assert (Ht : 52 <= t) by (unfold t; lia).
    assert (2 ^ t <= Zpos a * 2 ^ s / Zpos c).
    { apply quotient_ge; [lia|lia|].
      apply Z.le_trans with (2 ^ t * 2 ^ d2).
      - apply Z.mul_le_mono_nonneg_l; [apply Z.lt_le_incl, pow2_pos|]; lia.
      - rewrite <- Z.pow_add_r by lia.
        replace (t + d2) with ((d1 - 1) + s) by (unfold t; lia).
        rewrite Z.pow_add_r by lia.
        apply Z.mul_le_mono_nonneg_r; [apply Z.lt_le_incl, pow2_pos|]; lia. }
    pose proof (digits_ge _ t ltac:(lia) H). unfold t in *. lia.
  - lia.
Qed.

Lemma dle_shift a e s c ec :
  0 <= s -> (dle (a * 2 ^ s) (e - s) c ec <-> dle a e c ec).
Proof.
  intros Hs.
  set (k := Z.min (e - s) ec).
  rewrite (dle_scale (a * 2 ^ s) (e - s) c ec k) by (unfold k; lia).
  rewrite (dle_scale a e c ec k) by (unfold k; lia).
  replace (a * 2 ^ s * 2 ^ (e - s - k)) with (a * 2 ^ (e - k)); [reflexivity|].
  rewrite <- Z.mul_assoc, <- Z.pow_add_r by (unfold k; lia).
  do 2 f_equal. lia.
Qed.

Lemma dle_shift_r a e s c ec :
  0 <= s -> (dle c ec (a * 2 ^ s) (e - s) <-> dle c ec a e).
Proof.
  intros Hs.
  set (k := Z.min ec (e - s)).
  rewrite (dle_scale c ec (a * 2 ^ s) (e - s) k) by (unfold k; lia).
  rewrite (dle_scale c ec a e k) by (unfold k; lia).
  replace (a * 2 ^ s * 2 ^ (e - s - k)) with (a * 2 ^ (e - k)); [reflexivity|].
  rewrite <- Z.mul_assoc, <- Z.pow_add_r by (unfold k; lia).
  do 2 f_equal. lia.
Qed.

(** The correctly rounded quotient of two positive integers. *)
Lemma SFdiv_ints_bounds (a c : positive) :
  exists m3 e3,
    SFdiv float.prec float.emax (S754_finite false a 0) (S754_finite false c 0)
    = build false m3 e3 /\
    0 <= m3 < 2 ^ 53 /\
    (0 < m3 -> fexp64 (Zdigits2 m3 + e3) = e3) /\
    (forall mb eb, 0 <= mb <= 2 ^ 53 -> -1074 <= eb <= 970 ->
       dle (Zpos a) 0 (Zpos c * mb) eb -> dle m3 e3 mb eb /\ (0 < m3 -> e3 <= 971)) /\
    (forall mb eb, 0 <= mb <= 2 ^ 53 -> -1074 <= eb ->
       dle (Zpos c * mb) eb (Zpos a) 0 -> dle mb eb m3 e3).
Proof.
  cbn [SFdiv xorb]. rewrite SFdiv_core_ints. cbv zeta.
  pose proof (div_aligned a c) as Hal. cbv zeta in Hal.
  set (s := - Z.min (fexp64 (Zdigits2 (Zpos a) - Zdigits2 (Zpos c))) 0) in *.
  assert (Hs : 0 <= s) by (unfold s; lia). clearbody s.
  assert (HN : 0 <= Zpos a * 2 ^ s)
    by (apply Z.mul_nonneg_nonneg; [lia|]; apply Z.lt_le_incl, pow2_pos; lia).
  assert (Hloc : is_exact (new_location (Zpos c) ((Zpos a * 2 ^ s) mod Zpos c))
                 = false -> (Zpos a * 2 ^ s) mod Zpos c <> 0)
    by (rewrite is_exact_new_location; intros E; now apply Z.eqb_neq).
  destruct (round_bounds false (Zpos a * 2 ^ s) (Zpos c) (- s) _
              HN ltac:(lia) Hloc Hal)
    as (m3 & e3 & R & Rm & Re & Rc & Ru & Rl).
  exists m3, e3. repeat (split; [assumption|]). split.
  - intros mb eb Hmb Heb H. apply Ru; try assumption.
    change (- s) with (0 - s). apply dle_shift; assumption.
  - intros mb eb Hmb Heb H. apply Rl; try assumption.
    change (- s) with (0 - s). apply dle_shift_r; assumption.
Qed.

Lemma iter_xO p d : Zpos (Pos.iter xO p d) = Zpos p * 2 ^ Zpos d.
Proof.
  induction d as [|d IH] using Pos.peano_ind.
  - cbn [Pos.iter]. change (2 ^ 1) with 2. lia.
  - rewrite Pos.iter_succ, Pos2Z.inj_succ, Z.pow_succ_r by lia.
    rewrite Pos2Z.inj_xO, IH. ring.
Qed.

Lemma Zdigits2_shift m d : 0 < m -> 0 <= d -> Zdigits2 (m * 2 ^ d) = Zdigits2 m + d.
Proof.
  intros Hm Hd.
  assert (Hp : 0 < 2 ^ d) by (apply pow2_pos; assumption).
  destruct (Zdigits2_bounds m Hm) as [L U].
  assert (1 <= Zdigits2 m)
    by (rewrite Zdigits2_log2 by lia; pose proof (Z.log2_nonneg m); lia).
  apply Zdigits2_unique; [nia|].
  replace (Zdigits2 m + d - 1) with ((Zdigits2 m - 1) + d) by lia.
  rewrite !Z.pow_add_r by lia. split.
  - apply Z.mul_le_mono_nonneg_r; lia.
  - apply Z.mul_lt_mono_pos_r; lia.
Qed.

(** Conversion of a positive integer: [binary_round] at exponent 0. *)
Lemma binary_round_int_bounded sx p mb eb :
  0 <= mb <= 2 ^ 53 -> -1074 <= eb <= 970 ->
  dle (Zpos p) 0 mb eb ->
  bounded_by (binary_round float.prec float.emax sx p 0) mb eb.
Proof.
  intros Hmb Heb H. unfold binary_round, shl_align.
  rewrite Z.add_0_r, Z.sub_0_r.
  change (SpecFloat.fexp float.prec float.emax) with fexp64.
  change (Zpos (digits2_pos p)) with (Zdigits2 (Zpos p)).
  pose proof (fexp_ge (Zdigits2 (Zpos p))) as [G1 G2].
  destruct (fexp64 (Zdigits2 (Zpos p))) as [|q|q] eqn:E.
  - destruct (round_bounds sx (Zpos p) 1 0 loc_Exact)
      as (m3 & e3 & R & Rm & Re & Rc & Ru & _); try lia.
    { discriminate. }
    { rewrite Z.div_1_r, Z.add_0_r, E. lia. }
    rewrite Z.div_1_r in R. rewrite R.
    destruct (Ru mb eb Hmb Heb) as [U1 U2]; [now rewrite Z.mul_1_l|].
    apply build_bounded; try assumption; lia.
  - destruct (round_bounds sx (Zpos p) 1 0 loc_Exact)
      as (m3 & e3 & R & Rm & Re & Rc & Ru & _); try lia.
    { discriminate. }
    { rewrite Z.div_1_r, Z.add_0_r, E. lia. }
    rewrite Z.div_1_r in R. rewrite R.
    destruct (Ru mb eb Hmb Heb) as [U1 U2]; [now rewrite Z.mul_1_l|].
    apply build_bounded; try assumption; lia.
  - destruct (round_bounds sx (Zpos (Pos.iter xO p q)) 1 (Zneg q) loc_Exact)
      as (m3 & e3 & R & Rm & Re & Rc & Ru & _); try lia.
    { discriminate. }
    { rewrite Z.div_1_r, iter_xO, Zdigits2_shift by lia.
      replace (Zdigits2 (Z.pos p) + Z.pos q + Z.neg q) with (Zdigits2 (Zpos p)) by lia.
      rewrite E. lia. }
    rewrite Z.div_1_r in R. rewrite R.
    destruct (Ru mb eb Hmb Heb) as [U1 U2].
    { rewrite Z.mul_1_l, iter_xO. change (Z.neg q) with (0 - Z.pos q).
      apply dle_shift; [lia|assumption]. }
    apply build_bounded; try assumption; lia.
Qed.

Lemma binary_normalize_bounded z mb eb :
  0 <= mb <= 2 ^ 53 -> -1074 <= eb <= 970 ->
  dle (Z.abs z) 0 mb eb ->
  bounded_by (binary_normalize float.prec float.emax z 0 false) mb eb.
Proof.
  intros Hmb Heb H. destruct z as [|p|p]; cbn [binary_normalize].
  - exact I.
  - now apply binary_round_int_bounded.
  - now apply binary_round_int_bounded.
Qed.

Lemma dfloor_scaled m e k :
  k <= e -> k <= 0 -> dfloor m e = (m * 2 ^ (e - k)) / 2 ^ (- k).
Proof.
  intros H1 H2. unfold dfloor.
  assert (Hk : 0 < 2 ^ (- k)) by (apply pow2_pos; lia).
  destruct (Z.leb_spec 0 e).
  - replace (e - k) with (e + - k) by lia.
    rewrite Z.pow_add_r, Z.mul_assoc, Z.div_mul by lia. reflexivity.
  - replace (- k) with (- e + (e - k)) by lia.
    rewrite Z.pow_add_r by lia.
    rewrite Z.div_mul_cancel_r; [reflexivity| |];
      apply Z.neq_sym, Z.lt_neq, pow2_pos; lia.
Qed.

Lemma dfloor_mono a ea c ec : dle a ea c ec -> dfloor a ea <= dfloor c ec.
Proof.
  intros H.
  set (k := Z.min ea (Z.min ec 0)).
  apply (dle_scale _ _ _ _ k) in H; [|unfold k; lia|unfold k; lia].
  rewrite (dfloor_scaled a ea k), (dfloor_scaled c ec k) by (unfold k; lia).
  apply Z.div_le_mono; [apply pow2_pos; unfold k; lia | assumption].
Qed.

Lemma dfloor_int k : dfloor k 0 = k.
Proof. unfold dfloor. cbn. lia. Qed.

End Rounding.

(** ** Rounding to nearest: when the mantissa goes up *)

Section Nearest.









End Nearest.

(** ** The sample count of line 27 *)

Section SampleCount.







End SampleCount.

(** ** The tone synthesizer *)

Section Synthesizer.
Import generate_sounds.

Lemma bounded_by_finite (x : spec_float) (mb eb : Z) :
  bounded_by x mb eb -> float.is_finite x = true.
Proof. destruct x; cbn; intros H; (reflexivity || contradiction). Qed.

Lemma bounded_by_weaken (x : spec_float) (mb eb mb' eb' : Z) :
  bounded_by x mb eb -> dle mb eb mb' eb' -> bounded_by x mb' eb'.
Proof.
  destruct x as [s|s| |s m e]; cbn [bounded_by]; try tauto.
  intros [V H] H'. split; [assumption|]. now apply (dle_trans _ _ mb eb).
Qed.

Lemma dle_int (a c : Z) : a <= c -> dle a 0 c 0.
Proof. unfold dle. cbn. lia. Qed.

(** A true division of a non-negative [int] by a positive one returns,
    and stays below any representable bound on the exact quotient. *)
Lemma truediv_bounded (a c mb eb : Z) :
  0 <= a -> 0 < c ->
  0 <= mb <= 2 ^ 53 -> -1074 <= eb <= 970 ->
  dle a 0 (c * mb) eb ->
  exists q, float.truediv a c = Ok q /\ bounded_by q mb eb.
Proof.
  intros Ha Hc Hmb Heb H. unfold float.truediv.
  destruct (Z.eqb_spec c 0); [lia|].
  destruct c as [|pc|pc]; try lia.
  destruct a as [|pa|pa]; try lia; cbn [float.exact].
  - eexists. split; [reflexivity | exact I].
  - destruct (SFdiv_ints_bounds pa pc) as (m3 & e3 & R & Rm & Rc & Ru & _).
    rewrite R. destruct (Ru mb eb Hmb Heb H) as [U1 U2].
    assert (Hb : bounded_by (build false m3 e3) mb eb)
      by (apply build_bounded; try assumption; lia).
    destruct (build false m3 e3); cbn [bounded_by] in Hb; try contradiction;
      eexists; (split; [reflexivity | assumption]).
Qed.

(** Dividing by at most 1024 and truncating gives the floor of the exact
    quotient as long as that floor is below 2^43: the double just under
    the next integer is then at least 1/1024 away from it. *)
Lemma truediv_floor (a c : Z) :
  0 <= a -> 0 < c <= 1024 -> a / c < 2 ^ 43 ->
  exists q, float.truediv a c = Ok q /\ float.to_int q = Ok (a / c).
Proof.
  intros Ha Hc Hk. unfold float.truediv.
  destruct (Z.eqb_spec c 0); [lia|].
  destruct c as [|pc|pc]; try lia.
  destruct a as [|pa|pa]; try lia; cbn [float.exact].
  - eexists. split; reflexivity.
  - set (a := Zpos pa) in *. set (c := Zpos pc) in *.
    pose proof (Z.div_mod a c ltac:(lia)) as Ediv.
    pose proof (Z.mod_pos_bound a c ltac:(lia)) as Bmod.
    assert (Hk0 : 0 <= a / c) by (apply Z.div_pos; lia).
    set (k := a / c) in *. set (r := a mod c) in *.
    destruct (SFdiv_ints_bounds pa pc) as (m3 & e3 & R & Rm & Rc & Ru & Rl).
    fold a c in Ru, Rl. rewrite R.
    change (2 ^ 43) with 8796093022208 in Hk.
    change (2 ^ 53) with 9007199254740992 in Ru, Rl, Rm.
    destruct (Ru ((k + 1) * 1024 - 1) (-10)) as [U1 U2]; try lia.
    { unfold dle. change (Z.min 0 (-10)) with (-10).
      change (2 ^ (0 - -10)) with 1024. change (2 ^ (-10 - -10)) with 1. nia. }
    assert (L1 : dle k 0 m3 e3).
    { apply Rl; try lia. apply dle_int. nia. }
    apply dfloor_mono in U1, L1. rewrite dfloor_int in L1.
    assert (Etop : dfloor ((k + 1) * 1024 - 1) (-10) = k).
    { unfold dfloor. change (0 <=? -10) with false.
      change (2 ^ (- -10)) with 1024. symmetry.
      apply (Z.div_unique _ _ _ 1023); lia. }
    rewrite Etop in U1.
    destruct m3 as [|p|p]; try lia; cbn [build].
    + eexists. split; [reflexivity|]. cbn [float.to_int].
      unfold dfloor in L1, U1. f_equal.
      destruct (0 <=? e3);
        [rewrite Z.mul_0_l in L1, U1 | rewrite Zdiv_0_l in L1, U1]; lia.
    + destruct (Z.leb_spec e3 971); [|lia].
      eexists. split; [reflexivity|]. cbn [float.to_int]. f_equal.
      unfold dfloor in L1, U1. lia.
Qed.

Lemma of_int_bounded (z : Z) :
  Z.abs z <= 2 ^ 53 ->
  exists x, float.of_int z = Ok x /\ bounded_by x 1 53.
Proof.
  intros Hz. unfold float.of_int.
  assert (Hb : bounded_by (binary_normalize float.prec float.emax z 0 false) 1 53).
  { apply binary_normalize_bounded; try lia.
    unfold dle. change (Z.min 0 53) with 0. cbn. lia. }
  destruct (binary_normalize float.prec float.emax z 0 false);
    cbn [bounded_by] in Hb; try contradiction;
    eexists; (split; [reflexivity | assumption]).
Qed.

Lemma to_int_bounded (x : spec_float) (mb eb : Z) :
  0 <= mb -> bounded_by x mb eb ->
  exists v, float.to_int x = Ok v /\ Z.abs v <= dfloor mb eb.
Proof.
  intros Hmb Hb.
  assert (H0 : 0 <= dfloor mb eb).
  { unfold dfloor. destruct (Z.leb_spec 0 eb).
    - apply Z.mul_nonneg_nonneg; [lia|]. apply Z.pow_nonneg. lia.
    - apply Z.div_pos; [lia|]. apply pow2_pos. lia. }
  destruct x as [s|s| |s m e]; cbn [bounded_by] in Hb; try contradiction.
  - exists 0. split; [reflexivity | cbn; lia].
  - destruct Hb as [_ Hd]. apply dfloor_mono in Hd. unfold dfloor in Hd at 1.
    eexists. split; [reflexivity|].
    assert (0 <= (if 0 <=? e then Z.pos m * 2 ^ e else Z.pos m / 2 ^ (- e))).
    { destruct (Z.leb_spec 0 e).
      - apply Z.mul_nonneg_nonneg; [lia|]. apply Z.pow_nonneg. lia.
      - apply Z.div_pos; [lia|]. apply pow2_pos. lia. }
    destruct s; lia.
Qed.

Lemma sin_returns (libm_sin : spec_float -> spec_float) (x : spec_float) :
  sin_in_unit_range libm_sin -> float.is_finite x = true ->
  exists s, math.sin libm_sin x = Ok s /\ bounded_by s 1 0.
Proof.
  intros Hrange Hx. specialize (Hrange x Hx). unfold math.sin.
  destruct (libm_sin x) as [s|s| |s m e]; cbn [bounded_by] in Hrange;
    try contradiction; cbn; eexists; (split; [reflexivity|]); cbn; auto.
Qed.

Lemma mul_bounded (x y : spec_float) (mbx ebx mby eby : Z) :
  bounded_by x mbx ebx -> bounded_by y mby eby ->
  0 <= mbx * mby <= 2 ^ 53 -> -1074 <= ebx + eby <= 970 ->
  bounded_by (float.mul x y) (mbx * mby) (ebx + eby).
Proof. apply SFmul_bounded. Qed.

(** One pass through the loop body returns a sample of magnitude at
    most 9830. *)
Lemma tone_sample_bounded (libm_sin : spec_float -> spec_float)
    (frequency sample_rate i : Z) :
  sin_in_unit_range libm_sin ->
  1 <= sample_rate -> Z.abs frequency <= 2 ^ 53 -> 0 <= i < 2 ^ 43 ->
  exists sample,
    tone_sample libm_sin frequency sample_rate default_amplitude i = Ok sample /\
    Z.abs sample <= 9830.
Proof.
  intros Hsin Hrate Hfreq Hi. unfold tone_sample.
  destruct (truediv_bounded i sample_rate 1 43) as (t & -> & Ht); try lia.
  { unfold dle. change (Z.min 0 43) with 0. rewrite !Z.sub_0_r, Z.pow_0_r.
    change (2 ^ 43) with 8796093022208 in *. nia. }
  change (float.of_int 2) with (Ok (S754_finite false 4503599627370496 (-51))).
  destruct (of_int_bounded frequency Hfreq) as (freq & -> & Hf).
  set (two_pi := float.mul (S754_finite false 4503599627370496 (-51)) math.pi).
  assert (H2pi : bounded_by two_pi 1 3)
    by (vm_compute; split; [reflexivity | discriminate]).
  assert (Hphase : bounded_by (float.mul (float.mul two_pi freq) t)
                              (1 * 1 * 1) (3 + 53 + 43)).
  { apply mul_bounded; [apply mul_bounded| | |]; try assumption;
      try (change (2 ^ 53) with 9007199254740992); lia. }
  destruct (sin_returns libm_sin _ Hsin (bounded_by_finite _ _ _ Hphase))
    as (s & -> & Hs).
  change (float.of_int 32767)
    with (Ok (S754_finite false 9006924376834048 (-38))).
  assert (Hamp : bounded_by default_amplitude 78644 (-18))
    by (vm_compute; split; [reflexivity | discriminate]).
  assert (Hfull : bounded_by (S754_finite false 9006924376834048 (-38)) 32767 0)
    by (vm_compute; split; [reflexivity | discriminate]).
  assert (Hv : bounded_by
                 (float.mul (float.mul default_amplitude s)
                            (S754_finite false 9006924376834048 (-38)))
                 (78644 * 1 * 32767) (-18 + 0 + 0)).
  { apply mul_bounded; [apply mul_bounded| | |]; try assumption;
      try (change (2 ^ 53) with 9007199254740992); lia. }
  destruct (to_int_bounded _ (78644 * 1 * 32767) (-18 + 0 + 0) ltac:(lia) Hv)
    as (v & Ev & Hb).
  exists v. split; [exact Ev|].
  change (dfloor (78644 * 1 * 32767) (-18 + 0 + 0)) with 9830 in Hb.
  exact Hb.
Qed.

Lemma range_length (n : Z) : len (range n) = Z.max 0 n.
Proof. unfold len, range. rewrite length_map, length_seq. lia. Qed.

Lemma range_in (n i : Z) : In i (range n) -> 0 <= i < n.
Proof.
  unfold range. intros H. apply in_map_iff in H.
  destruct H as (k & <- & Hk). apply in_seq in Hk. lia.
Qed.

(** The loop returns as many samples as it was given indices, after
    those it already had, when every pass through the body returns. *)
Lemma tone_loop_returns (libm_sin : spec_float -> spec_float)
    (frequency sample_rate : Z) (amplitude : spec_float) (P : Z -> Prop)
    (indices : list Z) :
  (forall i, In i indices ->
     exists sample,
       tone_sample libm_sin frequency sample_rate amplitude i = Ok sample /\
       P sample) ->
  forall samples,
    exists new,
      tone_loop libm_sin frequency sample_rate amplitude indices samples
      = Ok (samples ++ new)%list /\
      List.length new = List.length indices /\ Forall P new.
Proof.
  induction indices as [|i rest IH]; intros Hbody samples.
  - exists []. cbn. rewrite app_nil_r. auto.
  - cbn [tone_loop].
    destruct (Hbody i (or_introl eq_refl)) as (sample & -> & Hp).
    destruct (IH (fun j Hj => Hbody j (or_intror Hj)) (samples ++ [sample])%list)
      as (new & -> & Hlen & Hall).
    exists (sample :: new). rewrite <- app_assoc. cbn.
    repeat split; auto.
Qed.

(** At index 0 the phase is a zero and so is the sample. *)
Lemma tone_sample_first (libm_sin : spec_float -> spec_float)
    (frequency sample_rate : Z) :
  sin_keeps_zero libm_sin ->
  1 <= sample_rate -> Z.abs frequency <= 2 ^ 53 ->
  tone_sample libm_sin frequency sample_rate default_amplitude 0 = Ok 0.
Proof.
  intros Hzero Hrate Hfreq. unfold tone_sample, float.truediv.
  destruct (Z.eqb_spec sample_rate 0); [lia|].
  destruct sample_rate as [|p|p]; try lia. cbn [float.exact SFdiv xorb].
  change (float.of_int 2) with (Ok (S754_finite false 4503599627370496 (-51))).
  destruct (of_int_bounded frequency Hfreq) as (freq & -> & Hf).
  assert (Ephase : exists sz,
             float.mul (float.mul (float.mul
               (S754_finite false 4503599627370496 (-51)) math.pi) freq)
               (S754_zero false) = S754_zero sz).
  { destruct freq as [sf|sf| |sf mf ef]; cbn [bounded_by] in Hf;
      try contradiction.
    - eexists. reflexivity.
    - assert (H2pi : bounded_by
                         (float.mul (S754_finite false 4503599627370496 (-51))
                                    math.pi) 1 3)
        by (vm_compute; split; [reflexivity | discriminate]).
      assert (Hx : bounded_by
                     (float.mul
                        (float.mul (S754_finite false 4503599627370496 (-51))
                                   math.pi)
                        (S754_finite sf mf ef)) (1 * 1) (3 + 53)).
      { apply mul_bounded; try assumption;
          try (change (2 ^ 53) with 9007199254740992); lia. }
      destruct (float.mul _ (S754_finite sf mf ef)) as [sx|sx| |sx mx ex];
        cbn [bounded_by] in Hx; try contradiction; eexists; reflexivity. }
  destruct Ephase as [sz ->].
  destruct (Hzero sz) as [sz' Es]. unfold math.sin. rewrite Es. cbn.
  reflexivity.
Qed.

Lemma unit_clamp_in_unit_range : sin_in_unit_range unit_clamp.
Proof.
  intros [s|s| |s m e] Hfin; try discriminate Hfin; cbn [unit_clamp].
  - exact I.
  - destruct (valid_binary float.prec float.emax (S754_finite s m e)) eqn:V;
      cbn [andb].
    + destruct (dle_b (Zpos m) e 1 0) eqn:D.
      * split; [assumption|]. apply Z.leb_le in D. exact D.
      * split; [reflexivity|]. vm_compute. discriminate.
    + split; [reflexivity|]. vm_compute. discriminate.
Qed.

Lemma unit_clamp_keeps_zero : sin_keeps_zero unit_clamp.
Proof. intros s. exists s. reflexivity. Qed.





(** In the range of audio work no phase overflows. *)
Lemma phase_is_finite_for_audio (frequency sample_rate i : Z) :
  1 <= sample_rate -> Z.abs frequency <= 2 ^ 53 -> 0 <= i < 2 ^ 43 ->
  phase_is_finite frequency sample_rate i = true.
Proof.
  intros Hrate Hfreq Hi. unfold phase_is_finite, phase.
  destruct (truediv_bounded i sample_rate 1 43) as (t & -> & Ht); try lia.
  { unfold dle. change (Z.min 0 43) with 0. rewrite !Z.sub_0_r, Z.pow_0_r.
    change (2 ^ 43) with 8796093022208 in *. nia. }
  change (float.of_int 2) with (Ok (S754_finite false 4503599627370496 (-51))).
  destruct (of_int_bounded frequency Hfreq) as (freq & -> & Hf).
  assert (H2pi : bounded_by
                   (float.mul (S754_finite false 4503599627370496 (-51))
                              math.pi) 1 3)
    by (vm_compute; split; [reflexivity | discriminate]).
  apply (bounded_by_finite _ (1 * 1 * 1) (3 + 53 + 43)).
  apply mul_bounded; [apply mul_bounded| | |]; try assumption;
    try (change (2 ^ 53) with 9007199254740992); lia.
Qed.







(** C9. Given a C library sine that answers within [-1, 1] on finite
    arguments and a zero on a zero: [generate_tone(1000, 150, 16000, 0.3)]
    returns exactly 2400 samples, its first sample is 0, and no sample's
    absolute value exceeds 9830. *)
Theorem tone_1000hz_150ms (libm_sin : spec_float -> spec_float) :
  sin_in_unit_range libm_sin ->
  sin_keeps_zero libm_sin ->
  exists samples,
    generate_tone libm_sin 1000 150 16000 default_amplitude = Ok samples /\
    len samples = 2400 /\
    nth 0 samples 1 = 0 /\
    Forall (fun sample => Z.abs sample <= 9830) samples.
Proof.
  intros Hsin Hzero. unfold generate_tone.
  assert (Eq : float.truediv (16000 * 150) 1000
               = Ok (S754_finite false 5277655813324800 (-41)))
    by reflexivity.
  assert (Eint : float.to_int (S754_finite false 5277655813324800 (-41))
                 = Ok 2400) by reflexivity.
  assert (Erange : range 2400 = 0 :: map Z.of_nat (seq 1 2399))
    by reflexivity.
  rewrite Eq, Eint, Erange. cbn [tone_loop].
  rewrite (tone_sample_first libm_sin 1000 16000 Hzero) by (cbn; lia).
  destruct (tone_loop_returns libm_sin 1000 16000
              default_amplitude (fun sample => Z.abs sample <= 9830)
              (map Z.of_nat (seq 1 2399))) with (samples := ([] ++ [0])%list)
    as (new & E & Hlen & Hall).
  { intros i Hin. apply in_map_iff in Hin. destruct Hin as (k & <- & Hk).
    apply in_seq in Hk.
    apply tone_sample_bounded; try assumption; cbn; lia. }
  exists (0 :: new). rewrite E. cbn [app]. repeat split.
  - unfold len. cbn [List.length]. rewrite Hlen, length_map, length_seq.
    reflexivity.
  - constructor; [cbn; lia | assumption].
Qed.

Lemma tone_1000hz_150ms_witness :
  exists samples,
    generate_tone unit_clamp 1000 150 16000 default_amplitude = Ok samples /\
    len samples = 2400 /\
    nth 0 samples 1 = 0 /\
    Forall (fun sample => Z.abs sample <= 9830) samples.
Proof.
  apply (tone_1000hz_150ms unit_clamp).
  - exact unit_clamp_in_unit_range.
  - exact unit_clamp_keeps_zero.
Defined.

End Synthesizer.

(** * Further properties of the code *)

(** ** The header parser: what it returns, what it reads, how it fails *)

Section ParserBehaviour.
Import wav2array.

Lemma le_decode_bound (bs : bytes) :
  0 <= le_decode bs < 256 ^ Z.of_nat (List.length bs).
Proof.
  induction bs as [|c r IH]; [cbn; lia|].
  cbn [le_decode List.length]. rewrite Nat2Z.inj_succ, Z.pow_succ_r by lia.
  pose proof (byte_val_range c). lia.
Qed.

Lemma field_bound (data : bytes) (lo hi : Z) :
  0 <= lo -> lo <= hi -> hi <= len data ->
  0 <= le_decode (slice data lo hi) < 256 ^ (hi - lo).
Proof.
  intros Hlo Hhi Hlen.
  pose proof (le_decode_bound (slice data lo hi)) as H.
  rewrite slice_length in H by assumption.
  rewrite Z2Nat.id in H by lia. exact H.
Qed.

Lemma read_wav_header_has_prefix (data : bytes) (info : header_info) :
  read_wav_header data = Ok info -> riff_wave_prefix data.
Proof.
  unfold read_wav_header, riff_wave_prefix.
  destruct (bytes_eqb (slice data 0 4) (b "RIFF")) eqn:HR; [|discriminate].
  destruct (bytes_eqb (slice data 8 12) (b "WAVE")) eqn:HW; [|discriminate].
  intros _. split; now apply bytes_eqb_eq.
Qed.

(** X1. Every field of a descriptor that [read_wav_header] returns fits
    the width it was read with: 16 bits for the format, the channel count
    and the bit depth, 32 bits for the sample rate and the chunk size. *)
Theorem read_wav_header_fields_fit (data : bytes) (info : header_info) :
  read_wav_header data = Ok info ->
  0 <= format info <= 65535 /\
  0 <= channels info <= 65535 /\
  0 <= sample_rate info <= 4294967295 /\
  0 <= bits_per_sample info <= 65535 /\
  0 <= chunk_size info <= 4294967295.
Proof.
  intros H. apply read_wav_header_returns in H.
  destruct H as (p & Hreach & _ & Hlen & ->).
  apply scan_reaches_ge in Hreach.
  unfold fmt_fields_at, chunk_size_at. cbn.
  pose proof (field_bound data (p + 8) (p + 10)) as H1.
  pose proof (field_bound data (p + 10) (p + 12)) as H2.
  pose proof (field_bound data (p + 12) (p + 16)) as H3.
  pose proof (field_bound data (p + 22) (p + 24)) as H4.
  pose proof (field_bound data (p + 4) (p + 8)) as H5.
  replace (p + 10 - (p + 8)) with 2 in H1 by lia.
  replace (p + 12 - (p + 10)) with 2 in H2 by lia.
  replace (p + 16 - (p + 12)) with 4 in H3 by lia.
  replace (p + 24 - (p + 22)) with 2 in H4 by lia.
  replace (p + 8 - (p + 4)) with 4 in H5 by lia.
  change (256 ^ 2) with 65536 in *. change (256 ^ 4) with 4294967296 in *.
  lia.
Qed.

Lemma read_wav_header_fields_fit_witness :
  0 <= format (fmt_fields_at list_then_fmt 24) <= 65535 /\
  0 <= channels (fmt_fields_at list_then_fmt 24) <= 65535 /\
  0 <= sample_rate (fmt_fields_at list_then_fmt 24) <= 4294967295 /\
  0 <= bits_per_sample (fmt_fields_at list_then_fmt 24) <= 65535 /\
  0 <= chunk_size (fmt_fields_at list_then_fmt 24) <= 4294967295.
Proof.
  apply (read_wav_header_fields_fit list_then_fmt). vm_compute. reflexivity.
Defined.

Lemma slice_from (l l' : bytes) (k : nat) (lo hi : Z) :
  skipn k l' = skipn k l -> Z.of_nat k <= lo ->
  slice l' lo hi = slice l lo hi.
Proof.
  intros Hskip Hlo. unfold slice.
  replace (Z.to_nat lo) with (Z.to_nat lo - k + k)%nat by lia.
  rewrite <- !skipn_skipn. now rewrite Hskip.
Qed.

Lemma loop_body_from (data data' : bytes) (k : nat) (pos : Z) :
  skipn k data' = skipn k data -> Z.of_nat k <= pos ->
  loop_body data' pos = loop_body data pos.
Proof.
  intros Hskip Hpos. unfold loop_body, parse_fmt.
  rewrite !(slice_from data data' k) by (assumption || lia).
  reflexivity.
Qed.

Lemma find_fmt_chunk_from (data data' : bytes) (k : nat) (n : nat) :
  skipn k data' = skipn k data -> len data' = len data ->
  forall pos,
    (Z.to_nat (remaining data pos) <= n)%nat -> Z.of_nat k <= pos ->
    find_fmt_chunk data' pos = find_fmt_chunk data pos.
Proof.
  intros Hskip Hlen. unfold remaining.
  induction n as [|n IH]; intros pos Hn Hpos;
    rewrite !find_fmt_chunk_step, Hlen;
    destruct (Z.ltb_spec pos (len data - 8)) as [Hlt|Hge];
    try reflexivity; try lia.
  unfold run_body. rewrite (loop_body_from data data' k) by assumption.
  destruct (loop_body data pos) as [info|pos'|e] eqn:Hbody; try reflexivity.
  apply loop_body_advances in Hbody. apply IH; lia.
Qed.

(** X2. The parser never looks at the RIFF size field: two buffers of the
    same length that agree on their first four bytes and on everything
    from offset 8 on get the same answer, error or descriptor. *)
Theorem read_wav_header_ignores_riff_size (data data' : bytes) :
  len data' = len data ->
  slice data' 0 4 = slice data 0 4 ->
  skipn 8 data' = skipn 8 data ->
  read_wav_header data' = read_wav_header data.
Proof.
  intros Hlen H04 Hskip. unfold read_wav_header.
  rewrite H04, (slice_from data data' 8 8 12) by (assumption || lia).
  destruct (negb _); [reflexivity|]. destruct (negb _); [reflexivity|].
  apply (find_fmt_chunk_from data data' 8 (Z.to_nat (remaining data 12)));
    (assumption || lia).
Qed.

Lemma read_wav_header_ignores_riff_size_witness :
  read_wav_header list_then_fmt_wrong_size = read_wav_header list_then_fmt.
Proof.
  apply (read_wav_header_ignores_riff_size list_then_fmt
           list_then_fmt_wrong_size); reflexivity.
Defined.

Lemma chunk_agree (data data' : bytes) (k : nat) (pos : Z) :
  firstn k data' = firstn k data -> 0 <= pos -> pos + 8 <= Z.of_nat k ->
  chunk_id_at data' pos = chunk_id_at data pos /\
  next_chunk data' pos = next_chunk data pos.
Proof.
  intros Hagree Hpos Hk. unfold next_chunk, chunk_size_at, chunk_id_at.
  rewrite !(slice_agree data data' k) by (assumption || lia). auto.
Qed.

Lemma find_fmt_chunk_append (data extra : bytes) (info : header_info)
    (n : nat) :
  forall pos,
    (Z.to_nat (remaining data pos) <= n)%nat -> 0 <= pos ->
    find_fmt_chunk data pos = Ok info ->
    find_fmt_chunk (data ++ extra) pos = Ok info.
Proof.
  assert (Hagree : firstn (List.length data) (data ++ extra)
                   = firstn (List.length data) data).
  { rewrite firstn_app, Nat.sub_diag, firstn_all. cbn. now rewrite app_nil_r. }
  pose proof (len_nonneg extra) as Hextra.
  unfold remaining.
  induction n as [|n IH]; intros pos Hn Hpos;
    rewrite !find_fmt_chunk_step, len_app;
    destruct (Z.ltb_spec pos (len data - 8)) as [Hlt|Hge];
    try discriminate; try lia.
  destruct (Z.ltb_spec pos (len data + len extra - 8)); [|lia].
  destruct (chunk_agree data (data ++ extra) (List.length data) pos)
    as [Hid Hnext]; [assumption|lia|fold (len data); lia|].
  unfold run_body.
  destruct (loop_body_cases data pos)
    as [[Hne ->]|[(Heq & Hlen & ->)|(_ & _ & ->)]];
    try lia; try discriminate.
  - rewrite loop_body_skip; [|lia|rewrite len_app; lia|congruence].
    rewrite Hnext. apply IH.
    + pose proof (next_chunk_advances data pos). lia.
    + pose proof (next_chunk_advances data pos). lia.
  - rewrite loop_body_fmt; [|lia|rewrite len_app; lia|congruence].
    rewrite (fmt_fields_agree data (data ++ extra) (List.length data));
      [auto|assumption|lia|fold (len data); lia].
Qed.

(** X3. Bytes appended to a buffer that [read_wav_header] accepts never
    change the descriptor it returns. *)
Theorem read_wav_header_append (data extra : bytes) (info : header_info) :
  read_wav_header data = Ok info ->
  read_wav_header (data ++ extra) = Ok info.
Proof.
  intros H.
  pose proof (read_wav_header_min_length data info H) as Hmin.
  pose proof (read_wav_header_has_prefix data info H) as [HR HW].
  assert (Hagree : firstn (List.length data) (data ++ extra)
                   = firstn (List.length data) data).
  { rewrite firstn_app, Nat.sub_diag, firstn_all. cbn. now rewrite app_nil_r. }
  assert (Hp : riff_wave_prefix (data ++ extra)).
  { split;
      rewrite (slice_agree data (data ++ extra) (List.length data));
      try assumption; try lia; fold (len data); lia. }
  rewrite (read_wav_header_prefix _ Hp).
  rewrite (read_wav_header_prefix data (conj HR HW)) in H.
  apply (find_fmt_chunk_append data extra info (Z.to_nat (remaining data 12)));
    [lia|lia|assumption].
Qed.

Lemma read_wav_header_append_witness :
  read_wav_header (list_then_fmt ++ [x01; x02; x03])
  = Ok (fmt_fields_at list_then_fmt 24).
Proof.
  apply (read_wav_header_append list_then_fmt). vm_compute. reflexivity.
Defined.

Lemma find_fmt_chunk_raises (data : bytes) (e : py_error) (n : nat) :
  forall pos,
    (Z.to_nat (remaining data pos) <= n)%nat ->
    scan_reaches data pos ->
    find_fmt_chunk data pos = Raise e ->
    e = no_fmt_chunk \/
    (e = StructError /\
     exists p, scan_reaches data p /\ p < len data - 8 /\
               chunk_id_at data p = b "fmt " /\ len data < p + 24).
Proof.
  unfold remaining.
  induction n as [|n IH]; intros pos Hn Hreach;
    rewrite find_fmt_chunk_step;
    destruct (Z.ltb_spec pos (len data - 8)) as [Hlt|Hge];
    try (intros [= <-]; now left); try lia.
  pose proof (scan_reaches_ge data pos Hreach) as H12.
  unfold run_body.
  destruct (loop_body_cases data pos)
    as [[Hid ->]|[(Hid & Hlen & ->)|(Hid & Hlen & ->)]];
    try lia; try discriminate.
  - apply IH.
    + pose proof (next_chunk_advances data pos). lia.
    + now constructor.
  - intros [= <-]. right. split; [reflexivity|]. exists pos. auto.
Qed.

(** X4. [read_wav_header] fails in four ways only: with one of its three
    messages, or with [struct.error], and with the latter only when the
    scan has read the header of a [fmt ] chunk of which fewer than 24
    bytes are in the buffer. *)
Theorem read_wav_header_errors (data : bytes) (e : py_error) :
  read_wav_header data = Raise e ->
  e = missing_riff \/ e = missing_wave \/ e = no_fmt_chunk \/
  (e = StructError /\
   exists p, scan_reaches data p /\ p < len data - 8 /\
             chunk_id_at data p = b "fmt " /\ len data < p + 24).
Proof.
  unfold read_wav_header.
  destruct (negb _); [intros [= <-]; auto|].
  destruct (negb _); [intros [= <-]; auto|].
  intros H. right. right.
  apply (find_fmt_chunk_raises data e (Z.to_nat (remaining data 12)) 12);
    [lia | constructor | assumption].
Qed.

Lemma read_wav_header_errors_witness :
  StructError = missing_riff \/ StructError = missing_wave \/
  StructError = no_fmt_chunk \/
  (StructError = StructError /\
   exists p, scan_reaches fmt_truncated p /\ p < len fmt_truncated - 8 /\
             chunk_id_at fmt_truncated p = b "fmt " /\
             len fmt_truncated < p + 24).
Proof.
  apply (read_wav_header_errors fmt_truncated). vm_compute. reflexivity.
Defined.

End ParserBehaviour.

(** ** The WAV writer: payload, rate fields, rates that do not fit *)

Section WriterBehaviour.
Import generate_sounds.

Lemma decode_pcm16_encode (samples : list Z) :
  Forall int16 samples -> decode_pcm16 (pcm16 samples) = samples.
Proof.
  induction 1 as [|s rest Hs _ IH]; [reflexivity|].
  unfold pcm16 in *. cbn [flat_map].
  change (le_encode 2 s) with [byte_of s; byte_of (s / 256)].
  cbn [app decode_pcm16]. rewrite IH. f_equal.
  change [byte_of s; byte_of (s / 256)] with (le_encode 2 s).
  rewrite le_decode_encode. change (256 ^ Z.of_nat 2) with 65536.
  unfold int16 in Hs. unfold signed16.
  destruct (Z.ltb_spec (s mod 65536) 32768) as [Hlt|Hge].
  - destruct (Z_le_gt_dec 0 s).
    + rewrite Z.mod_small by lia. reflexivity.
    + replace s with (s + 65536 - 1 * 65536) in Hlt by lia.
      rewrite Zminus_mod, Z_mod_mult, Z.sub_0_r, Z.mod_mod in Hlt by lia.
      rewrite Z.mod_small in Hlt by lia. lia.
  - destruct (Z_le_gt_dec 0 s).
    + rewrite Z.mod_small in Hge by lia. lia.
    + replace (s mod 65536) with (s + 65536); [lia|].
      symmetry. replace s with (s + 65536 - 1 * 65536) at 1 by lia.
      rewrite Zminus_mod, Z_mod_mult, Z.sub_0_r, Z.mod_mod by lia.
      apply Z.mod_small. lia.
Qed.

(** X5. The samples survive the writer: for every list of at most
    2147483629 samples in [-32768, 32767] and every rate in
    [0, 2147483647], reading what follows the 44-byte header of the
    written file as little-endian signed 16-bit values gives the list
    back, in order. *)
Theorem write_wav_samples_round_trip (filename : string) (samples : list Z)
    (rate : Z) :
  Forall int16 samples ->
  0 <= rate <= max_sample_rate ->
  len samples <= max_samples ->
  decode_pcm16 (skipn 44 (file (write_wav filename samples rate))) = samples.
Proof.
  intros Hs Hrate Hn.
  destruct (write_wav_file filename samples rate Hs Hrate Hn) as [-> _].
  change (skipn 44 _) with (pcm16 samples).
  now apply decode_pcm16_encode.
Qed.

Lemma write_wav_samples_round_trip_witness :
  decode_pcm16
    (skipn 44 (file (write_wav "beep.wav" [0; 100; -100; 32767; -32768] 16000)))
  = [0; 100; -100; 32767; -32768].
Proof.
  apply write_wav_samples_round_trip; unfold max_sample_rate, max_samples.
  - repeat constructor; unfold int16; lia.
  - lia.
  - cbn. lia.
Defined.

(** X6. The two rate fields of the [fmt ] chunk, which the parser never
    reads: bytes 28-32 hold the byte rate, twice the sample rate, and
    bytes 32-34 the block alignment 2, so that the byte rate is the
    sample rate times the block alignment; the chunk is declared 16 bytes
    long at bytes 16-20. *)
Theorem write_wav_rate_fields (filename : string) (samples : list Z)
    (rate : Z) :
  Forall int16 samples ->
  0 <= rate <= max_sample_rate ->
  len samples <= max_samples ->
  let stream := file (write_wav filename samples rate) in
  slice stream 12 16 = b "fmt " /\
  le_decode (slice stream 16 20) = 16 /\
  le_decode (slice stream 24 28) = rate /\
  le_decode (slice stream 28 32) = 2 * rate /\
  le_decode (slice stream 32 34) = 2 /\
  le_decode (slice stream 28 32)
  = le_decode (slice stream 24 28) * le_decode (slice stream 32 34).
Proof.
  intros Hs Hrate Hn stream.
  destruct (write_wav_file filename samples rate Hs Hrate Hn) as [Hfile _].
  subst stream. rewrite Hfile. clear Hfile.
  unfold max_sample_rate in Hrate.
  change (slice _ 24 28) with (le_encode 4 rate).
  change (slice _ 28 32) with (le_encode 4 (2 * rate)).
  change (slice _ 32 34) with (le_encode 2 2).
  change (slice _ 16 20) with (le_encode 4 16).
  rewrite !le_decode_encode_4 by lia.
  repeat split; try reflexivity. change (le_decode (le_encode 2 2)) with 2. lia.
Qed.

Lemma write_wav_rate_fields_witness :
  let stream := file (write_wav "beep.wav" [0; 100; -100] 16000) in
  slice stream 12 16 = b "fmt " /\
  le_decode (slice stream 16 20) = 16 /\
  le_decode (slice stream 24 28) = 16000 /\
  le_decode (slice stream 28 32) = 2 * 16000 /\
  le_decode (slice stream 32 34) = 2 /\
  le_decode (slice stream 28 32)
  = le_decode (slice stream 24 28) * le_decode (slice stream 32 34).
Proof.
  apply write_wav_rate_fields; unfold max_sample_rate, max_samples.
  - repeat constructor; unfold int16; lia.
  - lia.
  - cbn. lia.
Defined.

Lemma read_written_file (samples : list Z) (rate : Z) :
  0 <= rate <= max_sample_rate ->
  wav2array.read_wav_header (wav_header rate (len samples) ++ pcm16 samples)
  = Ok (pcm_mono_16 rate).
Proof.
  intros Hrate.
  set (data := (wav_header rate (len samples) ++ pcm16 samples)%list).
  assert (Hlen : len data = 44 + 2 * len samples)
    by (unfold data; now rewrite len_app, len_wav_header, len_pcm16).
  pose proof (len_nonneg samples).
  unfold max_sample_rate in Hrate.
  assert (Hp : riff_wave_prefix data) by (split; reflexivity).
  rewrite (read_wav_header_prefix data Hp), find_fmt_chunk_step.
  destruct (Z.ltb_spec 12 (len data - 8)); [|lia].
  unfold run_body.
  rewrite loop_body_fmt; [|lia|lia|reflexivity].
  unfold fmt_fields_at, chunk_size_at, pcm_mono_16. do 2 f_equal.
  change (slice data (12 + 12) (12 + 16)) with (le_encode 4 rate).
  apply le_decode_encode_4. lia.
Qed.

(** X7. A sample rate of 0 is written like any other: the file is
    complete, 44 bytes of header and every sample, and parses with a
    sample rate of 0; the call still raises [ZeroDivisionError], from
    the summary line that divides by the rate. *)
Theorem write_wav_zero_rate (filename : string) (samples : list Z) :
  Forall int16 samples ->
  len samples <= max_samples ->
  let w := write_wav filename samples 0 in
  outcome w = Raise ZeroDivisionError /\
  file w = (wav_header 0 (len samples) ++ pcm16 samples)%list /\
  len (file w) = 44 + 2 * len samples /\
  wav2array.read_wav_header (file w) = Ok (pcm_mono_16 0).
Proof.
  intros Hs Hn w. subst w.
  rewrite write_wav_header_written by (unfold max_sample_rate; lia).
  rewrite (write_samples_ok samples Hs). cbn [Z.eqb file outcome].
  repeat split.
  - rewrite len_app, len_wav_header, len_pcm16. reflexivity.
  - apply read_written_file. unfold max_sample_rate. lia.
Qed.

Lemma write_wav_zero_rate_witness :
  let w := write_wav "beep.wav" [0; 100; -100] 0 in
  outcome w = Raise ZeroDivisionError /\
  file w = (wav_header 0 (len [0; 100; -100]) ++ pcm16 [0; 100; -100])%list /\
  len (file w) = 44 + 2 * len [0; 100; -100] /\
  wav2array.read_wav_header (file w) = Ok (pcm_mono_16 0).
Proof.
  apply write_wav_zero_rate; unfold max_samples.
  - repeat constructor; unfold int16; lia.
  - cbn. lia.
Defined.

Lemma pack_I_negative (z : Z) : z < 0 -> struct.pack_I z = Raise StructError.
Proof.
  intros H. unfold struct.pack_I.
  destruct (Z.leb_spec 0 z); [lia|reflexivity].
Qed.

(** X8. A sample rate that does not fit its fields stops the writer inside
    the header, whatever the samples are (up to 2147483629 of them): a
    rate below 0 or above 4294967295 raises [struct.error] when the rate
    is packed, after the first 24 bytes of the header; a rate from
    2147483648 to 4294967295 raises it when the byte rate is packed,
    after the first 28 bytes. No sample is written. *)
Theorem write_wav_rate_does_not_fit (filename : string) (samples : list Z)
    (rate : Z) :
  len samples <= max_samples ->
  (rate < 0 \/ 4294967295 < rate ->
   write_wav filename samples rate
   = {| file := firstn 24 (wav_header rate (len samples));
        outcome := Raise StructError |}) /\
  (max_sample_rate < rate <= 4294967295 ->
   write_wav filename samples rate
   = {| file := firstn 28 (wav_header rate (len samples));
        outcome := Raise StructError |}).
Proof.
  unfold max_samples, max_sample_rate. intros Hn.
  pose proof (len_nonneg samples).
  split; intros Hrate; unfold write_wav; cbv zeta;
    replace (1 * 16 / 8) with 2 by reflexivity;
    replace (len samples * 2) with (2 * len samples) by lia;
    rewrite (pack_I_ok (36 + 2 * len samples)) by lia.
  - assert (Hpack : struct.pack_I rate = Raise StructError)
      by (destruct Hrate; [now apply pack_I_negative|now apply pack_I_overflow]).
    rewrite Hpack. reflexivity.
  - rewrite (pack_I_ok rate) by lia.
    replace (rate * 1 * 16) with (2 * rate * 8) by lia.
    rewrite Z.div_mul by lia.
    rewrite (pack_I_overflow (2 * rate)) by lia.
    reflexivity.
Qed.

Lemma write_wav_rate_does_not_fit_witness :
  write_wav "beep.wav" [0; 100] (-16000)
  = {| file := firstn 24 (wav_header (-16000) (len [0; 100]));
       outcome := Raise StructError |} /\
  write_wav "beep.wav" [0; 100] 3000000000
  = {| file := firstn 28 (wav_header 3000000000 (len [0; 100]));
       outcome := Raise StructError |}.
Proof.
  destruct (write_wav_rate_does_not_fit "beep.wav" [0; 100] (-16000))
    as [H1 _]; [vm_compute; discriminate|].
  destruct (write_wav_rate_does_not_fit "beep.wav" [0; 100] 3000000000)
    as [_ H2]; [vm_compute; discriminate|].
  split; [apply H1; lia | apply H2; unfold max_sample_rate; lia].
Defined.

End WriterBehaviour.

(** ** The encoder: reading the array back, the file name, written files *)

Section EncoderBehaviour.
Import wav2array.
Local Open Scope string_scope.

Lemma body_values_literal (c : byte) (s : string) (values : list Z) :
  body_values s = Some values ->
  body_values (hex_literal c ++ s) = Some (byte_val c :: values).
Proof.
  intros Hs.
  destruct (hex_literal_shape c) as (hi & lo & -> & Hhi & Hlo).
  cbn -[Z.mul Z.add]. rewrite Hhi, Hlo, Hs. do 2 f_equal.
  pose proof (Z.div_mod (byte_val c) 16 ltac:(lia)). lia.
Qed.

Lemma body_values_row (row : bytes) (s : string) (values : list Z) :
  body_values s = Some values ->
  body_values (String.concat ", " (map hex_literal row) ++ s)
  = Some (map byte_val row ++ values)%list.
Proof.
  intros Hs. induction row as [|c [|d row] IH].
  - exact Hs.
  - cbn [map String.concat app]. now apply body_values_literal.
  - change (String.concat ", " (map hex_literal (c :: d :: row)))
      with (hex_literal c ++ ", " ++ String.concat ", " (map hex_literal (d :: row))).
    rewrite !append_assoc. cbn [map app].
    apply body_values_literal. exact IH.
Qed.

Lemma body_values_row_text (row : bytes) (is_last : bool) (s : string)
    (values : list Z) :
  body_values s = Some values ->
  body_values (row_text row is_last ++ s)
  = Some (map byte_val row ++ values)%list.
Proof.
  intros Hs. unfold row_text. rewrite !append_assoc.
  change (body_values
            (String.concat ", " (map hex_literal row)
               ++ (if is_last then EmptyString else ",") ++ nl ++ s)
          = Some (map byte_val row ++ values)%list).
  apply body_values_row. destruct is_last; exact Hs.
Qed.

Lemma body_values_rows_text (rs : list bytes) :
  body_values (rows_text rs) = Some (map byte_val (List.concat rs)).
Proof.
  induction rs as [|r [|r' rest] IH].
  - reflexivity.
  - cbn [rows_text List.concat]. rewrite app_nil_r.
    rewrite <- (append_empty_r (row_text r true)).
    rewrite (body_values_row_text r true EmptyString []); [|reflexivity].
    now rewrite app_nil_r.
  - change (rows_text (r :: r' :: rest))
      with (row_text r false ++ rows_text (r' :: rest)).
    cbn [List.concat]. rewrite map_app.
    now apply body_values_row_text.
Qed.

(** X9. The array is the file: when [wav_to_c_array] succeeds, what stands
    between the opening of the declaration and its closing brace reads
    back, literal by literal, as the bytes of the input in order; nothing
    is dropped, added or reordered. *)
Theorem wav_to_c_array_reads_back (wav_file : string) (data : bytes)
    (var_name : string) (info : header_info) :
  read_wav_header data = Ok info ->
  exists body : string,
    wav_to_c_array wav_file data var_name
    = Ok (preamble wav_file info data var_name ++ body ++ trailer var_name) /\
    body_values body = Some (map byte_val data).
Proof.
  intros H. exists (rows_text (rows data)). split.
  - now apply wav_to_c_array_text.
  - rewrite body_values_rows_text.
    now destruct (rows_partition data) as [-> _].
Qed.

Lemma wav_to_c_array_reads_back_witness :
  exists body : string,
    wav_to_c_array "snd/beep.wav" list_then_fmt "beep"
    = Ok (preamble "snd/beep.wav" (fmt_fields_at list_then_fmt 24)
                   list_then_fmt "beep"
            ++ body ++ trailer "beep") /\
    body_values body = Some (map byte_val list_then_fmt).
Proof.
  apply wav_to_c_array_reads_back. vm_compute. reflexivity.
Defined.

Lemma basename_from_directory (dir name acc : string) :
  basename_from (dir ++ "/" ++ name) acc = basename_from name EmptyString.
Proof.
  revert acc. induction dir as [|c dir IH]; intros acc; cbn.
  - reflexivity.
  - destruct (Ascii.eqb c "/"); apply IH.
Qed.

(** X10. Only the last component of the path of the input file reaches
    the output: with any directory in front of a path,
    [wav_to_c_array] gives what it gives for that path alone. *)
Theorem wav_to_c_array_drops_directory (dir name : string) (data : bytes)
    (var_name : string) :
  wav_to_c_array (dir ++ "/" ++ name) data var_name
  = wav_to_c_array name data var_name.
Proof.
  unfold wav_to_c_array, basename.
  rewrite basename_from_directory. reflexivity.
Qed.

(** X11. The encoder accepts every file the writer produces (at most
    2147483629 samples in [-32768, 32767], rate in [0, 2147483647]): its
    comment reports 1 channel, the rate passed to the writer, 16 bits and
    44 + 2*N bytes, and the array holds the rows of the file. *)
Theorem written_file_encodes (filename wav_file var_name : string)
    (samples : list Z) (rate : Z) :
  Forall int16 samples ->
  0 <= rate <= max_sample_rate ->
  len samples <= max_samples ->
  let data := generate_sounds.file
                (generate_sounds.write_wav filename samples rate) in
  wav_to_c_array wav_file data var_name
  = Ok ("// " ++ basename wav_file ++ nl
          ++ "// Format: 1 channel(s), " ++ str rate ++ " Hz, 16-bit" ++ nl
          ++ "// Size: " ++ str (44 + 2 * len samples) ++ " bytes" ++ nl ++ nl
          ++ "const uint8_t PROGMEM " ++ var_name ++ "[] = {" ++ nl
          ++ rows_text (rows data)
          ++ "};" ++ nl
          ++ "const uint32_t " ++ var_name ++ "_len = sizeof(" ++ var_name
          ++ ");" ++ nl).
Proof.
  intros Hs Hrate Hn data.
  destruct (write_wav_file filename samples rate Hs Hrate Hn) as [Hfile _].
  assert (Hread : read_wav_header data = Ok (pcm_mono_16 rate))
    by (subst data; rewrite Hfile; now apply read_written_file).
  assert (Hlen : len data = 44 + 2 * len samples)
    by (subst data; rewrite Hfile;
        now rewrite len_app, len_wav_header, len_pcm16).
  rewrite (wav_to_c_array_text wav_file data var_name _ Hread).
  unfold preamble, trailer, pcm_mono_16. cbn [channels sample_rate bits_per_sample].
  rewrite Hlen. change (str 1) with "1". change (str 16) with "16".
  f_equal. rewrite !append_assoc. reflexivity.
Qed.

Lemma written_file_encodes_witness :
  let data := generate_sounds.file
                (generate_sounds.write_wav "beep.wav" [0; 100; -100] 16000) in
  wav_to_c_array "snd/beep.wav" data "beep"
  = Ok ("// " ++ basename "snd/beep.wav" ++ nl
          ++ "// Format: 1 channel(s), " ++ str 16000 ++ " Hz, 16-bit" ++ nl
          ++ "// Size: " ++ str (44 + 2 * len [0; 100; -100]%Z) ++ " bytes" ++ nl ++ nl
          ++ "const uint8_t PROGMEM " ++ "beep" ++ "[] = {" ++ nl
          ++ rows_text (rows data)
          ++ "};" ++ nl
          ++ "const uint32_t " ++ "beep" ++ "_len = sizeof(" ++ "beep"
          ++ ");" ++ nl).
Proof.
  apply written_file_encodes; unfold max_sample_rate, max_samples.
  - repeat constructor; unfold int16; lia.
  - lia.
  - cbn. lia.
Defined.

End EncoderBehaviour.

(** ** The converter script: exit status, output, warning *)

Section ConverterScript.
Import wav2array.
Local Open Scope string_scope.



Lemma lower_app (s t : string) : lower (s ++ t) = lower s ++ lower t.
Proof. induction s as [|c s IH]; cbn; [reflexivity | now rewrite IH]. Qed.

Lemma length_append (s t : string) :
  String.length (s ++ t) = (String.length s + String.length t)%nat.
Proof. induction s as [|c s IH]; cbn; [reflexivity | now rewrite IH]. Qed.

Lemma substring_all (t : string) : substring 0 (String.length t) t = t.
Proof. induction t as [|c t IH]; cbn; [reflexivity | now rewrite IH]. Qed.

Lemma substring_suffix (s t : string) :
  substring (String.length s) (String.length t) (s ++ t) = t.
Proof. induction s as [|c s IH]; cbn; [apply substring_all | exact IH]. Qed.

Lemma endswith_append (s t : string) : endswith (s ++ t) t = true.
Proof.
  unfold endswith. rewrite length_append.
  replace (String.length s + String.length t - String.length t)%nat
    with (String.length s) by lia.
  rewrite substring_suffix, String.eqb_refl.
  rewrite andb_true_r. apply Nat.leb_le. lia.
Qed.

Lemma lower_wav_extension (ext : string) :
  wav_extension ext -> lower ext = ".wav".
Proof.
  intros (w & a & v & -> & [-> | ->] & [-> | ->] & [-> | ->]); reflexivity.
Qed.

(** X13. The extension is compared without regard to case. For an input
    file whose name ends in [.wav], [.WAV] or any other mix of cases,
    that exists, can be read and converts: when the text is printed
    whole the run puts it on standard output, nothing on standard error,
    and ends with status 0; when printing breaks off the run ends with
    status 1 and the only line on standard error is the error, with no
    warning before it. *)
Theorem main_accepts_any_case (library_text : py_error -> string)
    (env : environment) (prog stem ext var_name : string)
    (data : bytes) (text : string) :
  wav_extension ext ->
  path_exists env (stem ++ ext) = true ->
  read_file env (stem ++ ext) = inl data ->
  wav_to_c_array (stem ++ ext) data var_name = Ok text ->
  (print_breaks env text = None ->
   main library_text env [prog; stem ++ ext; var_name]
   = {| stdout := text ++ nl; stderr := EmptyString; exit_status := 0 |}) /\
  (forall (n : nat) (message : string),
      print_breaks env text = Some (n, message) ->
      main library_text env [prog; stem ++ ext; var_name]
      = {| stdout := substring 0 n (text ++ nl);
           stderr := "Error: " ++ message ++ nl;
           exit_status := 1 |}).
Proof.
  intros Hext Hexists Hread Hconv.
  unfold main. rewrite Hexists, Hread, Hconv. cbn [negb].
  rewrite lower_app, (lower_wav_extension ext Hext), endswith_append.
  cbn [negb]. split.
  - intros ->. reflexivity.
  - intros n message ->. reflexivity.
Qed.

Lemma main_accepts_any_case_witness :
  exists text,
    wav_to_c_array ("snd/BEEP" ++ ".WAV") list_then_fmt "beep" = Ok text /\
    main (fun _ => EmptyString) (one_file "snd/BEEP.WAV" list_then_fmt)
         ["wav2array.py"; "snd/BEEP" ++ ".WAV"; "beep"]
    = {| stdout := text ++ nl; stderr := EmptyString; exit_status := 0 |} /\
    main (fun _ => EmptyString)
         (one_file_broken_pipe "snd/BEEP.WAV" list_then_fmt)
         ["wav2array.py"; "snd/BEEP" ++ ".WAV"; "beep"]
    = {| stdout := substring 0 20 (text ++ nl);
         stderr := "Error: " ++ "[Errno 32] Broken pipe" ++ nl;
         exit_status := 1 |}.
Proof.
  assert (Hext : wav_extension ".WAV")
    by (exists "W"%char, "A"%char, "V"%char; auto 10).
  destruct (wav_to_c_array ("snd/BEEP" ++ ".WAV") list_then_fmt "beep")
    as [text|e] eqn:Hconv; [|vm_compute in Hconv; discriminate].
  exists text. split; [reflexivity|]. split.
  - apply (main_accepts_any_case (fun _ => EmptyString)
             (one_file "snd/BEEP.WAV" list_then_fmt)
             "wav2array.py" "snd/BEEP" ".WAV" "beep" list_then_fmt text
             Hext eq_refl eq_refl Hconv).
    reflexivity.
  - apply (main_accepts_any_case (fun _ => EmptyString)
             (one_file_broken_pipe "snd/BEEP.WAV" list_then_fmt)
             "wav2array.py" "snd/BEEP" ".WAV" "beep" list_then_fmt text
             Hext eq_refl eq_refl Hconv).
    reflexivity.
Defined.

End ConverterScript.

(** ** The tone synthesizer: amplitudes, empty results, zeros *)

Section SynthesizerBehaviour.
Import generate_sounds.

(** The quotient of two integers of any sign: the sign is the product of
    the signs, the magnitude the rounded quotient of the magnitudes. *)
Lemma SFdiv_ints_signed (sa sc : bool) (a c : positive) :
  exists m3 e3,
    SFdiv float.prec float.emax (S754_finite sa a 0) (S754_finite sc c 0)
    = build (xorb sa sc) m3 e3 /\
    0 <= m3 < 2 ^ 53 /\
    (0 < m3 -> fexp64 (Zdigits2 m3 + e3) = e3) /\
    (forall mb eb, 0 <= mb <= 2 ^ 53 -> -1074 <= eb <= 970 ->
       dle (Zpos a) 0 (Zpos c * mb) eb ->
       dle m3 e3 mb eb /\ (0 < m3 -> e3 <= 971)) /\
    (forall mb eb, 0 <= mb <= 2 ^ 53 -> -1074 <= eb ->
       dle (Zpos c * mb) eb (Zpos a) 0 -> dle mb eb m3 e3).
Proof.
  cbn [SFdiv]. rewrite SFdiv_core_ints. cbv zeta.
  pose proof (div_aligned a c) as Hal. cbv zeta in Hal.
  set (s := - Z.min (fexp64 (Zdigits2 (Zpos a) - Zdigits2 (Zpos c))) 0) in *.
  assert (Hs : 0 <= s) by (unfold s; lia). clearbody s.
  assert (HN : 0 <= Zpos a * 2 ^ s)
    by (apply Z.mul_nonneg_nonneg; [lia|]; apply Z.lt_le_incl, pow2_pos; lia).
  assert (Hloc : is_exact (new_location (Zpos c) ((Zpos a * 2 ^ s) mod Zpos c))
                 = false -> (Zpos a * 2 ^ s) mod Zpos c <> 0)
    by (rewrite is_exact_new_location; intros E; now apply Z.eqb_neq).
  destruct (round_bounds (xorb sa sc) (Zpos a * 2 ^ s) (Zpos c) (- s) _
              HN ltac:(lia) Hloc Hal)
    as (m3 & e3 & R & Rm & Re & Rc & Ru & Rl).
  exists m3, e3. repeat (split; [assumption|]). split.
  - intros mb eb Hmb Heb H. apply Ru; try assumption.
    change (- s) with (0 - s). apply dle_shift; assumption.
  - intros mb eb Hmb Heb H. apply Rl; try assumption.
    change (- s) with (0 - s). apply dle_shift_r; assumption.
Qed.

(** A negative numerator over a positive denominator truncates to an
    integer that is not positive. *)
Lemma truediv_negative (a c : Z) :
  a < 0 -> 0 < c -> - (c * 2 ^ 53) <= a ->
  exists q v, float.truediv a c = Ok q /\ float.to_int q = Ok v /\ v <= 0.
Proof.
  intros Ha Hc Hlow. unfold float.truediv.
  destruct (Z.eqb_spec c 0); [lia|].
  destruct c as [|pc|pc]; try lia.
  destruct a as [|pa|pa]; try lia. cbn [float.exact].
  destruct (SFdiv_ints_signed true false pa pc)
    as (m3 & e3 & R & Rm & Rc & Ru & _).
  rewrite R. cbn [xorb].
  destruct (Ru (2 ^ 53) 0) as [U1 U2]; try lia.
  { unfold dle. cbn [Z.min Z.sub Z.pow]. rewrite Z.pow_0_r. lia. }
  destruct m3 as [|p|p]; try lia; cbn [build].
  - exists (S754_zero true), 0. repeat split. lia.
  - destruct (Z.leb_spec e3 971); [|lia].
    eexists. eexists. split; [reflexivity|]. split; [reflexivity|].
    assert (0 <= (if 0 <=? e3 then Z.pos p * 2 ^ e3 else Z.pos p / 2 ^ (- e3))).
    { destruct (Z.leb_spec 0 e3).
      - apply Z.mul_nonneg_nonneg; [lia|]. apply Z.pow_nonneg. lia.
      - apply Z.div_pos; [lia|]. apply pow2_pos. lia. }
    lia.
Qed.

Lemma range_empty (n : Z) : n <= 0 -> range n = [].
Proof.
  intros H. unfold range. replace (Z.to_nat n) with 0%nat by lia. reflexivity.
Qed.

(** X14. A request for less than one sample gives the empty list: when
    [sample_rate * duration_ms] is below 1000, negative products down to
    -1000 * 2^53 included, [generate_tone] and [generate_silence] both
    return the empty list and raise nothing, whatever the frequency, the
    amplitude and the sine are. *)
Theorem short_request_gives_no_samples
    (libm_sin : spec_float -> spec_float)
    (frequency duration_ms sample_rate : Z) (amplitude : spec_float) :
  - (1000 * 2 ^ 53) <= sample_rate * duration_ms < 1000 ->
  generate_tone libm_sin frequency duration_ms sample_rate amplitude = Ok [] /\
  generate_silence duration_ms sample_rate = Ok [].
Proof.
  intros Ha. set (a := sample_rate * duration_ms) in *.
  unfold generate_tone, generate_silence. fold a.
  destruct (Z_lt_ge_dec a 0) as [Hneg|Hpos].
  - destruct (truediv_negative a 1000) as (q & v & Eq & Ev & Hv); try lia.
    rewrite Eq, Ev, range_empty by assumption.
    replace (Z.to_nat v) with 0%nat by lia. split; reflexivity.
  - assert (Hk : a / 1000 = 0) by (apply Z.div_small; lia).
    destruct (truediv_floor a 1000) as (q & Eq & Ev); try lia.
    rewrite Eq, Ev, Hk. split; reflexivity.
Qed.

Lemma short_request_gives_no_samples_witness :
  generate_tone unit_clamp 440 (-3) 16000 default_amplitude = Ok [] /\
  generate_silence (-3) 16000 = Ok [].
Proof.
  apply short_request_gives_no_samples. vm_compute.
  split; [discriminate | reflexivity].
Defined.

(** One pass through the loop body with an amplitude of magnitude at
    most [mb * 2^eb]: the sample has magnitude at most the integer part
    of [mb * 32767 * 2^eb]. *)
Lemma tone_sample_peak (libm_sin : spec_float -> spec_float)
    (frequency sample_rate i : Z) (amplitude : spec_float) (mb eb : Z) :
  sin_in_unit_range libm_sin ->
  1 <= sample_rate -> Z.abs frequency <= 2 ^ 53 -> 0 <= i < 2 ^ 43 ->
  bounded_by amplitude mb eb ->
  0 <= mb -> mb * 32767 <= 2 ^ 53 -> -1074 <= eb <= 970 ->
  exists sample,
    tone_sample libm_sin frequency sample_rate amplitude i = Ok sample /\
    Z.abs sample <= dfloor (mb * 32767) eb.
Proof.
  intros Hsin Hrate Hfreq Hi Hamp Hmb Hmb' Heb. unfold tone_sample.
  destruct (truediv_bounded i sample_rate 1 43) as (t & -> & Ht); try lia.
  { unfold dle. change (Z.min 0 43) with 0. rewrite !Z.sub_0_r, Z.pow_0_r.
    change (2 ^ 43) with 8796093022208 in *. nia. }
  change (float.of_int 2) with (Ok (S754_finite false 4503599627370496 (-51))).
  destruct (of_int_bounded frequency Hfreq) as (freq & -> & Hf).
  set (two_pi := float.mul (S754_finite false 4503599627370496 (-51)) math.pi).
  assert (H2pi : bounded_by two_pi 1 3)
    by (vm_compute; split; [reflexivity | discriminate]).
  assert (Hphase : bounded_by (float.mul (float.mul two_pi freq) t)
                              (1 * 1 * 1) (3 + 53 + 43)).
  { apply mul_bounded; [apply mul_bounded| | |]; try assumption;
      try (change (2 ^ 53) with 9007199254740992); lia. }
  destruct (sin_returns libm_sin _ Hsin (bounded_by_finite _ _ _ Hphase))
    as (s & -> & Hs).
  change (float.of_int 32767)
    with (Ok (S754_finite false 9006924376834048 (-38))).
  assert (Hfull : bounded_by (S754_finite false 9006924376834048 (-38)) 32767 0)
    by (vm_compute; split; [reflexivity | discriminate]).
  change (2 ^ 53) with 9007199254740992 in Hmb'.
  assert (Hv : bounded_by
                 (float.mul (float.mul amplitude s)
                            (S754_finite false 9006924376834048 (-38)))
                 (mb * 1 * 32767) (eb + 0 + 0)).
  { apply mul_bounded; [apply mul_bounded| | |]; try assumption;
      try (change (2 ^ 53) with 9007199254740992); lia. }
  destruct (to_int_bounded _ (mb * 1 * 32767) (eb + 0 + 0) ltac:(lia) Hv)
    as (v & Ev & Hb).
  exists v. split; [exact Ev|].
  replace (mb * 1 * 32767) with (mb * 32767) in Hb by lia.
  replace (eb + 0 + 0) with eb in Hb by lia.
  exact Hb.
Qed.

Lemma generate_tone_peak (libm_sin : spec_float -> spec_float)
    (frequency duration_ms sample_rate : Z) (amplitude : spec_float)
    (mb eb : Z) :
  sin_in_unit_range libm_sin ->
  0 <= sample_rate -> 0 <= duration_ms ->
  sample_rate * duration_ms < 1000 * 2 ^ 43 ->
  Z.abs frequency <= 2 ^ 53 ->
  bounded_by amplitude mb eb ->
  0 <= mb -> mb * 32767 <= 2 ^ 53 -> -1074 <= eb <= 970 ->
  exists samples,
    generate_tone libm_sin frequency duration_ms sample_rate amplitude
    = Ok samples /\
    len samples = sample_rate * duration_ms / 1000 /\
    Forall (fun sample => Z.abs sample <= dfloor (mb * 32767) eb) samples.
Proof.
  intros Hsin Hrate Hdur Hprod Hfreq Hamp Hmb Hmb' Heb.
  set (a := sample_rate * duration_ms) in *.
  assert (Ha : 0 <= a) by (unfold a; nia).
  assert (Hn : 0 <= a / 1000 < 2 ^ 43).
  { split; [apply Z.div_pos; lia|].
    apply Z.div_lt_upper_bound; lia. }
  destruct (truediv_floor a 1000 Ha ltac:(lia) ltac:(lia)) as (q & Eq & Eint).
  unfold generate_tone. fold a. rewrite Eq, Eint.
  destruct (tone_loop_returns libm_sin frequency sample_rate amplitude
              (fun sample => Z.abs sample <= dfloor (mb * 32767) eb)
              (range (a / 1000))) with (samples := @nil Z)
    as (new & E & Hlen & Hall).
  { intros i Hin. apply range_in in Hin.
    assert (sample_rate <> 0).
    { intros ->. unfold a in Hin. cbn in Hin. lia. }
    apply tone_sample_peak; try assumption; lia. }
  exists new. rewrite E. cbn [app]. repeat split; try assumption.
  unfold len. rewrite Hlen. fold (len (range (a / 1000))).
  rewrite range_length. lia.
Qed.

(** X15. No clamping is needed up to full scale: with a sine that stays
    in [-1, 1], [generate_tone] with any amplitude of magnitude at most
    1.0 returns floor(sample_rate * duration_ms / 1000) samples, all in
    [-32767, 32767] (rate and duration not negative, their product below
    1000 * 2^43, frequency of magnitude at most 2^53). *)
Theorem generate_tone_up_to_full_scale
    (libm_sin : spec_float -> spec_float)
    (frequency duration_ms sample_rate : Z) (amplitude : spec_float) :
  sin_in_unit_range libm_sin ->
  bounded_by amplitude 1 0 ->
  0 <= sample_rate -> 0 <= duration_ms ->
  sample_rate * duration_ms < 1000 * 2 ^ 43 ->
  Z.abs frequency <= 2 ^ 53 ->
  exists samples,
    generate_tone libm_sin frequency duration_ms sample_rate amplitude
    = Ok samples /\
    len samples = sample_rate * duration_ms / 1000 /\
    Forall (fun sample => -32767 <= sample <= 32767) samples.
Proof.
  intros Hsin Hamp Hrate Hdur Hprod Hfreq.
  destruct (generate_tone_peak libm_sin frequency duration_ms sample_rate
              amplitude 1 0) as (samples & E & Hlen & Hall);
    try assumption; try lia.
  exists samples. repeat split; try assumption.
  apply Forall_impl with (2 := Hall).
  change (dfloor (1 * 32767) 0) with 32767. intros; lia.
Qed.

Lemma generate_tone_up_to_full_scale_witness :
  exists samples,
    generate_tone unit_clamp 440 2 16000 full_scale_amplitude = Ok samples /\
    len samples = 16000 * 2 / 1000 /\
    Forall (fun sample => -32767 <= sample <= 32767) samples.
Proof.
  apply (generate_tone_up_to_full_scale unit_clamp 440 2 16000).
  - exact unit_clamp_in_unit_range.
  - vm_compute. split; [reflexivity | discriminate].
  - lia.
  - lia.
  - vm_compute. reflexivity.
  - vm_compute. discriminate.
Defined.

End SynthesizerBehaviour.

(** ** The tone synthesizer: zero phase, zero rate *)

Section SynthesizerZeros.
Import generate_sounds.

(** A zero times a double that is zero or finite is a zero. *)
Lemma mul_zero_r (x : spec_float) (s : bool) :
  float.is_finite x = true -> exists s', float.mul x (S754_zero s) = S754_zero s'.
Proof. destruct x; try discriminate; intros _; eexists; reflexivity. Qed.

Lemma mul_zero_l (x : spec_float) (s : bool) :
  float.is_finite x = true -> exists s', float.mul (S754_zero s) x = S754_zero s'.
Proof. destruct x; try discriminate; intros _; eexists; reflexivity. Qed.

(** When the phase is a zero the sample is 0, for every finite
    amplitude. *)
Lemma tone_sample_zero_phase (libm_sin : spec_float -> spec_float)
    (frequency sample_rate i : Z) (amplitude t freq : spec_float) (sz : bool) :
  sin_keeps_zero libm_sin ->
  float.is_finite amplitude = true ->
  float.truediv i sample_rate = Ok t ->
  float.of_int frequency = Ok freq ->
  float.mul (float.mul (float.mul float_two math.pi) freq) t = S754_zero sz ->
  tone_sample libm_sin frequency sample_rate amplitude i = Ok 0.
Proof.
  intros Hzero Hamp Et Ef Ephase. unfold tone_sample. rewrite Et.
  change (float.of_int 2) with (Ok float_two). rewrite Ef, Ephase.
  destruct (Hzero sz) as [sz' Es]. unfold math.sin. rewrite Es.
  cbn [float.is_nan float.is_inf andb].
  destruct (mul_zero_r amplitude sz' Hamp) as [sv ->].
  change (float.of_int 32767) with (Ok float_32767).
  reflexivity.
Qed.

Lemma two_pi_times (freq : spec_float) :
  bounded_by freq 1 53 ->
  float.is_finite (float.mul (float.mul float_two math.pi) freq) = true.
Proof.
  intros Hf.
  assert (H2pi : bounded_by (float.mul float_two math.pi) 1 3)
    by (vm_compute; split; [reflexivity | discriminate]).
  apply (bounded_by_finite _ (1 * 1) (3 + 53)).
  apply mul_bounded; try assumption;
    try (change (2 ^ 53) with 9007199254740992); lia.
Qed.

Lemma tone_sample_at_zero (libm_sin : spec_float -> spec_float)
    (frequency sample_rate : Z) (amplitude : spec_float) :
  sin_keeps_zero libm_sin ->
  float.is_finite amplitude = true ->
  1 <= sample_rate -> Z.abs frequency <= 2 ^ 53 ->
  tone_sample libm_sin frequency sample_rate amplitude 0 = Ok 0.
Proof.
  intros Hzero Hamp Hrate Hfreq.
  destruct (of_int_bounded frequency Hfreq) as (freq & Ef & Hf).
  destruct (mul_zero_r _ false (two_pi_times freq Hf)) as [sz Ephase].
  apply (tone_sample_zero_phase libm_sin frequency sample_rate 0 amplitude
           (S754_zero false) freq sz); try assumption.
  unfold float.truediv. destruct (Z.eqb_spec sample_rate 0); [lia|].
  destruct sample_rate; try lia. reflexivity.
Qed.

Lemma tone_sample_zero_frequency (libm_sin : spec_float -> spec_float)
    (sample_rate i : Z) (amplitude : spec_float) :
  sin_keeps_zero libm_sin ->
  float.is_finite amplitude = true ->
  1 <= sample_rate -> 0 <= i < 2 ^ 43 ->
  tone_sample libm_sin 0 sample_rate amplitude i = Ok 0.
Proof.
  intros Hzero Hamp Hrate Hi.
  destruct (truediv_bounded i sample_rate 1 43) as (t & Et & Ht); try lia.
  { unfold dle. change (Z.min 0 43) with 0. rewrite !Z.sub_0_r, Z.pow_0_r.
    change (2 ^ 43) with 8796093022208 in *. nia. }
  destruct (mul_zero_l t false (bounded_by_finite _ _ _ Ht)) as [sz Ephase].
  apply (tone_sample_zero_phase libm_sin 0 sample_rate i amplitude
           t (S754_zero false) sz); try assumption; reflexivity.
Qed.

Lemma Forall_zero_repeat (l : list Z) :
  Forall (fun sample => sample = 0) l -> l = repeat 0 (List.length l).
Proof.
  induction 1 as [|x l -> _ IH]; [reflexivity|]. cbn. now rewrite <- IH.
Qed.

(** X16. A tone of frequency 0 is silence: with a sine that maps a zero
    to a zero and any finite amplitude, [generate_tone(0, d, r, a)] and
    [generate_silence(d, r)] return the same list,
    floor(r * d / 1000) zeros (rate and duration not negative, product
    below 1000 * 2^43). *)
Theorem zero_frequency_is_silence (libm_sin : spec_float -> spec_float)
    (duration_ms sample_rate : Z) (amplitude : spec_float) :
  sin_keeps_zero libm_sin ->
  float.is_finite amplitude = true ->
  0 <= sample_rate -> 0 <= duration_ms ->
  sample_rate * duration_ms < 1000 * 2 ^ 43 ->
  generate_tone libm_sin 0 duration_ms sample_rate amplitude
  = Ok (repeat 0 (Z.to_nat (sample_rate * duration_ms / 1000))) /\
  generate_silence duration_ms sample_rate
  = Ok (repeat 0 (Z.to_nat (sample_rate * duration_ms / 1000))).
Proof.
  intros Hzero Hamp Hrate Hdur Hprod.
  set (a := sample_rate * duration_ms) in *.
  assert (Ha : 0 <= a) by (unfold a; nia).
  assert (Hn : 0 <= a / 1000 < 2 ^ 43).
  { split; [apply Z.div_pos; lia|].
    apply Z.div_lt_upper_bound; lia. }
  destruct (truediv_floor a 1000 Ha ltac:(lia) ltac:(lia)) as (q & Eq & Eint).
  unfold generate_tone, generate_silence. fold a. rewrite Eq, Eint.
  split; [|reflexivity].
  destruct (tone_loop_returns libm_sin 0 sample_rate amplitude
              (fun sample => sample = 0) (range (a / 1000)))
    with (samples := @nil Z) as (new & E & Hlen & Hall).
  { intros i Hin. apply range_in in Hin.
    assert (sample_rate <> 0).
    { intros ->. unfold a in Hin. cbn in Hin. lia. }
    exists 0. split; [|reflexivity].
    apply tone_sample_zero_frequency; try assumption; lia. }
  rewrite E. cbn [app]. f_equal.
  rewrite (Forall_zero_repeat new Hall), Hlen. f_equal.
  pose proof (range_length (a / 1000)) as Hr. unfold len in Hr. lia.
Qed.

Lemma zero_frequency_is_silence_witness :
  generate_tone unit_clamp 0 2 16000 default_amplitude
  = Ok (repeat 0 (Z.to_nat (16000 * 2 / 1000))) /\
  generate_silence 2 16000 = Ok (repeat 0 (Z.to_nat (16000 * 2 / 1000))).
Proof.
  apply (zero_frequency_is_silence unit_clamp 2 16000).
  - exact unit_clamp_keeps_zero.
  - reflexivity.
  - lia.
  - lia.
  - vm_compute. reflexivity.
Defined.

Lemma range_first (n : Z) :
  1 <= n -> range n = 0 :: map Z.of_nat (seq 1 (Z.to_nat n - 1)).
Proof.
  intros Hn. unfold range.
  replace (Z.to_nat n) with (S (Z.to_nat n - 1)) at 1 by lia. reflexivity.
Qed.

(** X17. Every tone starts at 0: with a sine that stays in [-1, 1] and
    maps a zero to a zero, and an amplitude of magnitude at most 1.0, a
    call of [generate_tone] that asks for at least one sample returns a
    list whose first element is 0 (rate and duration not negative,
    product below 1000 * 2^43, frequency of magnitude at most 2^53). *)
Theorem generate_tone_starts_at_zero (libm_sin : spec_float -> spec_float)
    (frequency duration_ms sample_rate : Z) (amplitude : spec_float) :
  sin_in_unit_range libm_sin ->
  sin_keeps_zero libm_sin ->
  bounded_by amplitude 1 0 ->
  0 <= sample_rate -> 0 <= duration_ms ->
  1000 <= sample_rate * duration_ms < 1000 * 2 ^ 43 ->
  Z.abs frequency <= 2 ^ 53 ->
  exists rest,
    generate_tone libm_sin frequency duration_ms sample_rate amplitude
    = Ok (0 :: rest).
Proof.
  intros Hsin Hzero Hamp Hrate Hdur Hprod Hfreq.
  set (a := sample_rate * duration_ms) in *.
  assert (Hn : 1 <= a / 1000 < 2 ^ 43).
  { split; [apply Z.div_le_lower_bound; lia|].
    apply Z.div_lt_upper_bound; lia. }
  assert (Hr : 1 <= sample_rate) by (unfold a in Hprod; nia).
  destruct (truediv_floor a 1000 ltac:(lia) ltac:(lia) ltac:(lia))
    as (q & Eq & Eint).
  unfold generate_tone. fold a. rewrite Eq, Eint, range_first by lia.
  cbn [tone_loop].
  rewrite tone_sample_at_zero; try assumption;
    [|now apply (bounded_by_finite _ 1 0)].
  destruct (tone_loop_returns libm_sin frequency sample_rate amplitude
              (fun sample => Z.abs sample <= dfloor (1 * 32767) 0)
              (map Z.of_nat (seq 1 (Z.to_nat (a / 1000) - 1))))
    with (samples := ([] ++ [0])%list) as (new & E & _ & _).
  { intros i Hin. apply in_map_iff in Hin. destruct Hin as (k & <- & Hk).
    apply in_seq in Hk.
    apply tone_sample_peak; try assumption; lia. }
  exists new. rewrite E. reflexivity.
Qed.

Lemma generate_tone_starts_at_zero_witness :
  exists rest,
    generate_tone unit_clamp 440 2 16000 default_amplitude = Ok (0 :: rest).
Proof.
  apply (generate_tone_starts_at_zero unit_clamp 440 2 16000).
  - exact unit_clamp_in_unit_range.
  - exact unit_clamp_keeps_zero.
  - vm_compute. split; [reflexivity | discriminate].
  - lia.
  - lia.
  - vm_compute. split; [discriminate | reflexivity].
  - vm_compute. discriminate.
Defined.

Lemma to_int_no_zero_division (x : spec_float) :
  float.to_int x <> Raise ZeroDivisionError.
Proof. destruct x; discriminate. Qed.

Lemma tone_sample_no_zero_division (libm_sin : spec_float -> spec_float)
    (frequency sample_rate i : Z) (amplitude : spec_float) :
  sample_rate <> 0 ->
  tone_sample libm_sin frequency sample_rate amplitude i
  <> Raise ZeroDivisionError.
Proof.
  intros Hrate. unfold tone_sample, float.truediv.
  destruct (Z.eqb_spec sample_rate 0); [contradiction|].
  destruct (SFdiv _ _ _ _); try discriminate;
    change (float.of_int 2) with (Ok float_two);
    (unfold float.of_int at 1;
     destruct (binary_normalize _ _ frequency _ _); try discriminate;
     unfold math.sin;
     (destruct (_ && _); [discriminate|]);
     (destruct (_ && _); [discriminate|]);
     change (float.of_int 32767) with (Ok float_32767);
     apply to_int_no_zero_division).
Qed.

Lemma tone_loop_no_zero_division (libm_sin : spec_float -> spec_float)
    (frequency sample_rate : Z) (amplitude : spec_float) (indices : list Z) :
  sample_rate <> 0 ->
  forall samples,
    tone_loop libm_sin frequency sample_rate amplitude indices samples
    <> Raise ZeroDivisionError.
Proof.
  intros Hrate. induction indices as [|i rest IH]; intros samples; cbn.
  - discriminate.
  - destruct (tone_sample _ _ _ _ i) as [sample|e] eqn:E; [apply IH|].
    intros [= ->]. revert E. now apply tone_sample_no_zero_division.
Qed.

(** X18. The generators never divide by zero: for every frequency,
    duration, rate, amplitude and sine, neither [generate_tone] nor
    [generate_silence] raises [ZeroDivisionError]; with a sample rate of
    0 both return the empty list, since the loop that divides by the rate
    is not entered. *)
Theorem generators_never_divide_by_zero (libm_sin : spec_float -> spec_float)
    (frequency duration_ms sample_rate : Z) (amplitude : spec_float) :
  generate_tone libm_sin frequency duration_ms sample_rate amplitude
  <> Raise ZeroDivisionError /\
  generate_silence duration_ms sample_rate <> Raise ZeroDivisionError /\
  generate_tone libm_sin frequency duration_ms 0 amplitude = Ok [] /\
  generate_silence duration_ms 0 = Ok [].
Proof.
  split; [|split; [|split; reflexivity]].
  - destruct (Z.eq_dec sample_rate 0) as [->|Hrate]; [discriminate|].
    unfold generate_tone, float.truediv. cbn [Z.eqb].
    destruct (SFdiv _ _ _ _); try discriminate;
      (destruct (float.to_int _) as [n|err] eqn:E;
       [now apply tone_loop_no_zero_division
       |intros [= ->]; revert E; apply to_int_no_zero_division]).
  - unfold generate_silence, float.truediv. cbn [Z.eqb].
    destruct (SFdiv _ _ _ _); try discriminate;
      (destruct (float.to_int _) as [n|err] eqn:E;
       [discriminate
       |intros [= ->]; revert E; apply to_int_no_zero_division]).
Qed.

End SynthesizerZeros.

(** ** The four effects and the generator script *)

Section Composers.
Import generate_sounds.

(** A tone of one of the effects: default rate and amplitude. *)
Lemma default_tone (libm_sin : spec_float -> spec_float)
    (frequency duration_ms : Z) :
  sin_in_unit_range libm_sin ->
  Z.abs frequency <= 2 ^ 53 -> 0 <= duration_ms < 2 ^ 32 ->
  exists tone,
    generate_tone libm_sin frequency duration_ms default_sample_rate
                  default_amplitude = Ok tone /\
    len tone = 16 * duration_ms /\ Forall soft tone.
Proof.
  intros Hsin Hfreq Hdur.
  assert (Hamp : bounded_by default_amplitude 78644 (-18))
    by (vm_compute; split; [reflexivity | discriminate]).
  change (2 ^ 32) with 4294967296 in Hdur.
  destruct (generate_tone_peak libm_sin frequency duration_ms
              default_sample_rate default_amplitude 78644 (-18))
    as (tone & E & Hlen & Hall); try assumption;
    try (unfold default_sample_rate;
         change (2 ^ 43) with 8796093022208;
         change (2 ^ 53) with 9007199254740992; lia).
  exists tone. split; [exact E|]. split; [|exact Hall].
  rewrite Hlen. unfold default_sample_rate.
  replace (16000 * duration_ms) with (16 * duration_ms * 1000) by lia.
  apply Z.div_mul. lia.
Qed.

Lemma work_start_shape (libm_sin : spec_float -> spec_float) :
  sin_in_unit_range libm_sin ->
  exists t1 t2 t3,
    generate_tone libm_sin 800 150 default_sample_rate default_amplitude
      = Ok t1 /\
    generate_tone libm_sin 1000 150 default_sample_rate default_amplitude
      = Ok t2 /\
    generate_tone libm_sin 1200 200 default_sample_rate default_amplitude
      = Ok t3 /\
    generate_work_start libm_sin
    = Ok (t1 ++ repeat 0 800 ++ t2 ++ repeat 0 800 ++ t3)%list /\
    len t1 = 2400 /\ len t2 = 2400 /\ len t3 = 3200 /\
    Forall soft t1 /\ Forall soft t2 /\ Forall soft t3.
Proof.
  intros Hsin. unfold generate_work_start, add_tone, add_silence.
  destruct (default_tone libm_sin 800 150 Hsin) as (t1 & E1 & L1 & S1);
    [cbn; lia | cbn; lia |].
  destruct (default_tone libm_sin 1000 150 Hsin) as (t2 & E2 & L2 & S2);
    [cbn; lia | cbn; lia |].
  destruct (default_tone libm_sin 1200 200 Hsin) as (t3 & E3 & L3 & S3);
    [cbn; lia | cbn; lia |].
  rewrite E1, E2, E3.
  change (generate_silence 50 default_sample_rate) with (Ok (repeat 0 800)).
  cbv zeta. cbn [app]. exists t1, t2, t3. rewrite <- !app_assoc. auto 12.
Qed.

Lemma rest_start_shape (libm_sin : spec_float -> spec_float) :
  sin_in_unit_range libm_sin ->
  exists t1 t2,
    generate_tone libm_sin 1000 150 default_sample_rate default_amplitude
      = Ok t1 /\
    generate_tone libm_sin 600 200 default_sample_rate default_amplitude
      = Ok t2 /\
    generate_rest_start libm_sin = Ok (t1 ++ repeat 0 800 ++ t2)%list /\
    len t1 = 2400 /\ len t2 = 3200 /\ Forall soft t1 /\ Forall soft t2.
Proof.
  intros Hsin. unfold generate_rest_start, add_tone, add_silence.
  destruct (default_tone libm_sin 1000 150 Hsin) as (t1 & E1 & L1 & S1);
    [cbn; lia | cbn; lia |].
  destruct (default_tone libm_sin 600 200 Hsin) as (t2 & E2 & L2 & S2);
    [cbn; lia | cbn; lia |].
  rewrite E1, E2.
  change (generate_silence 50 default_sample_rate) with (Ok (repeat 0 800)).
  cbv zeta. cbn [app]. exists t1, t2. rewrite <- !app_assoc. auto 12.
Qed.

Lemma long_rest_start_shape (libm_sin : spec_float -> spec_float) :
  sin_in_unit_range libm_sin ->
  exists t1 t2 t3,
    generate_tone libm_sin 1200 150 default_sample_rate default_amplitude
      = Ok t1 /\
    generate_tone libm_sin 800 150 default_sample_rate default_amplitude
      = Ok t2 /\
    generate_tone libm_sin 500 300 default_sample_rate default_amplitude
      = Ok t3 /\
    generate_long_rest_start libm_sin
    = Ok (t1 ++ repeat 0 800 ++ t2 ++ repeat 0 800 ++ t3)%list /\
    len t1 = 2400 /\ len t2 = 2400 /\ len t3 = 4800 /\
    Forall soft t1 /\ Forall soft t2 /\ Forall soft t3.
Proof.
  intros Hsin. unfold generate_long_rest_start, add_tone, add_silence.
  destruct (default_tone libm_sin 1200 150 Hsin) as (t1 & E1 & L1 & S1);
    [cbn; lia | cbn; lia |].
  destruct (default_tone libm_sin 800 150 Hsin) as (t2 & E2 & L2 & S2);
    [cbn; lia | cbn; lia |].
  destruct (default_tone libm_sin 500 300 Hsin) as (t3 & E3 & L3 & S3);
    [cbn; lia | cbn; lia |].
  rewrite E1, E2, E3.
  change (generate_silence 50 default_sample_rate) with (Ok (repeat 0 800)).
  cbv zeta. cbn [app]. exists t1, t2, t3. rewrite <- !app_assoc. auto 12.
Qed.

Lemma warning_shape (libm_sin : spec_float -> spec_float) :
  sin_in_unit_range libm_sin ->
  exists t,
    generate_tone libm_sin 1500 100 default_sample_rate default_amplitude
      = Ok t /\
    generate_warning libm_sin = Ok (t ++ repeat 0 1600 ++ t)%list /\
    len t = 1600 /\ Forall soft t.
Proof.
  intros Hsin. unfold generate_warning, add_tone, add_silence.
  destruct (default_tone libm_sin 1500 100 Hsin) as (t1 & E1 & L1 & S1);
    [cbn; lia | cbn; lia |].
  rewrite E1.
  change (generate_silence 100 default_sample_rate) with (Ok (repeat 0 1600)).
  cbv zeta. cbn [app].
  exists t1. rewrite <- !app_assoc. auto.
Qed.

(** X19. The four effects, with a sine that stays in [-1, 1]. Each
    composer returns the lists that [generate_tone] returns for its
    frequencies and durations at the default rate and amplitude, in
    order, with runs of zeros between them and nothing else:
    work_start is the tones 800 Hz/150 ms, 1000 Hz/150 ms and
    1200 Hz/200 ms (2400, 2400 and 3200 samples) with 800 zeros between
    them; rest_start is 1000 Hz/150 ms and 600 Hz/200 ms (2400 and 3200
    samples) with 800 zeros between; long_rest_start is 1200 Hz/150 ms,
    800 Hz/150 ms and 500 Hz/300 ms (2400, 2400 and 4800 samples) with
    800 zeros between them; warning is the tone 1500 Hz/100 ms (1600
    samples), 1600 zeros and the same tone again. Every sample has
    magnitude at most 9830. *)
Theorem composers_shape (libm_sin : spec_float -> spec_float) :
  sin_in_unit_range libm_sin ->
  (exists t1 t2 t3,
      generate_tone libm_sin 800 150 default_sample_rate default_amplitude
        = Ok t1 /\
      generate_tone libm_sin 1000 150 default_sample_rate default_amplitude
        = Ok t2 /\
      generate_tone libm_sin 1200 200 default_sample_rate default_amplitude
        = Ok t3 /\
      generate_work_start libm_sin
      = Ok (t1 ++ repeat 0 800 ++ t2 ++ repeat 0 800 ++ t3)%list /\
      len t1 = 2400 /\ len t2 = 2400 /\ len t3 = 3200 /\
      Forall soft t1 /\ Forall soft t2 /\ Forall soft t3) /\
  (exists t1 t2,
      generate_tone libm_sin 1000 150 default_sample_rate default_amplitude
        = Ok t1 /\
      generate_tone libm_sin 600 200 default_sample_rate default_amplitude
        = Ok t2 /\
      generate_rest_start libm_sin = Ok (t1 ++ repeat 0 800 ++ t2)%list /\
      len t1 = 2400 /\ len t2 = 3200 /\ Forall soft t1 /\ Forall soft t2) /\
  (exists t1 t2 t3,
      generate_tone libm_sin 1200 150 default_sample_rate default_amplitude
        = Ok t1 /\
      generate_tone libm_sin 800 150 default_sample_rate default_amplitude
        = Ok t2 /\
      generate_tone libm_sin 500 300 default_sample_rate default_amplitude
        = Ok t3 /\
      generate_long_rest_start libm_sin
      = Ok (t1 ++ repeat 0 800 ++ t2 ++ repeat 0 800 ++ t3)%list /\
      len t1 = 2400 /\ len t2 = 2400 /\ len t3 = 4800 /\
      Forall soft t1 /\ Forall soft t2 /\ Forall soft t3) /\
  (exists t,
      generate_tone libm_sin 1500 100 default_sample_rate default_amplitude
        = Ok t /\
      generate_warning libm_sin = Ok (t ++ repeat 0 1600 ++ t)%list /\
      len t = 1600 /\ Forall soft t).
Proof.
  intros Hsin. split; [|split; [|split]].
  - now apply work_start_shape.
  - now apply rest_start_shape.
  - now apply long_rest_start_shape.
  - now apply warning_shape.
Qed.

Lemma composers_shape_witness :
  (exists t1 t2 t3,
      generate_tone unit_clamp 800 150 default_sample_rate default_amplitude
        = Ok t1 /\
      generate_tone unit_clamp 1000 150 default_sample_rate default_amplitude
        = Ok t2 /\
      generate_tone unit_clamp 1200 200 default_sample_rate default_amplitude
        = Ok t3 /\
      generate_work_start unit_clamp
      = Ok (t1 ++ repeat 0 800 ++ t2 ++ repeat 0 800 ++ t3)%list /\
      len t1 = 2400 /\ len t2 = 2400 /\ len t3 = 3200 /\
      Forall soft t1 /\ Forall soft t2 /\ Forall soft t3) /\
  (exists t1 t2,
      generate_tone unit_clamp 1000 150 default_sample_rate default_amplitude
        = Ok t1 /\
      generate_tone unit_clamp 600 200 default_sample_rate default_amplitude
        = Ok t2 /\
      generate_rest_start unit_clamp = Ok (t1 ++ repeat 0 800 ++ t2)%list /\
      len t1 = 2400 /\ len t2 = 3200 /\ Forall soft t1 /\ Forall soft t2) /\
  (exists t1 t2 t3,
      generate_tone unit_clamp 1200 150 default_sample_rate default_amplitude
        = Ok t1 /\
      generate_tone unit_clamp 800 150 default_sample_rate default_amplitude
        = Ok t2 /\
      generate_tone unit_clamp 500 300 default_sample_rate default_amplitude
        = Ok t3 /\
      generate_long_rest_start unit_clamp
      = Ok (t1 ++ repeat 0 800 ++ t2 ++ repeat 0 800 ++ t3)%list /\
      len t1 = 2400 /\ len t2 = 2400 /\ len t3 = 4800 /\
      Forall soft t1 /\ Forall soft t2 /\ Forall soft t3) /\
  (exists t,
      generate_tone unit_clamp 1500 100 default_sample_rate default_amplitude
        = Ok t /\
      generate_warning unit_clamp = Ok (t ++ repeat 0 1600 ++ t)%list /\
      len t = 1600 /\ Forall soft t).
Proof.
  exact (composers_shape unit_clamp unit_clamp_in_unit_range).
Defined.

Lemma soft_int16 (samples : list Z) : Forall soft samples -> Forall int16 samples.
Proof.
  intros H. apply Forall_impl with (2 := H). unfold soft, int16. intros; lia.
Qed.

Lemma soft_zeros (n : nat) : Forall soft (repeat 0 n).
Proof.
  induction n; cbn; constructor; [unfold soft; cbn; lia | assumption].
Qed.

Lemma len_repeat {A : Type} (a : A) (n : nat) : len (repeat a n) = Z.of_nat n.
Proof. unfold len. now rewrite repeat_length. Qed.

(** Each effect as one list: its length, every sample a 16-bit value. *)
Lemma composers_return (libm_sin : spec_float -> spec_float) :
  sin_in_unit_range libm_sin ->
  exists work rest long warn,
    generate_work_start libm_sin = Ok work /\
    generate_rest_start libm_sin = Ok rest /\
    generate_long_rest_start libm_sin = Ok long /\
    generate_warning libm_sin = Ok warn /\
    len work = 9600 /\ len rest = 6400 /\ len long = 11200 /\
    len warn = 4800 /\
    Forall int16 work /\ Forall int16 rest /\ Forall int16 long /\
    Forall int16 warn.
Proof.
  intros Hsin.
  destruct (work_start_shape libm_sin Hsin)
    as (a1 & a2 & a3 & _ & _ & _ & -> & La1 & La2 & La3 & Sa1 & Sa2 & Sa3).
  destruct (rest_start_shape libm_sin Hsin)
    as (b1 & b2 & _ & _ & -> & Lb1 & Lb2 & Sb1 & Sb2).
  destruct (long_rest_start_shape libm_sin Hsin)
    as (c1 & c2 & c3 & _ & _ & _ & -> & Lc1 & Lc2 & Lc3 & Sc1 & Sc2 & Sc3).
  destruct (warning_shape libm_sin Hsin)
    as (d1 & _ & -> & Ld1 & Sd1).
  do 4 eexists. do 4 (split; [reflexivity|]).
  rewrite !len_app, !len_repeat.
  repeat split; try lia;
    apply soft_int16; repeat (apply Forall_app; split);
    auto using soft_zeros.
Qed.

Lemma write_sound (filename : string) (samples : list Z) :
  Forall int16 samples -> len samples <= max_samples ->
  outcome (write_wav filename samples default_sample_rate) = Ok tt /\
  len (file (write_wav filename samples default_sample_rate))
  = 44 + 2 * len samples /\
  wav2array.read_wav_header
    (file (write_wav filename samples default_sample_rate))
  = Ok (pcm_mono_16 16000).
Proof.
  intros Hs Hn.
  assert (Hrate : 0 <= default_sample_rate <= max_sample_rate)
    by (unfold default_sample_rate, max_sample_rate; lia).
  destruct (write_wav_file filename samples default_sample_rate Hs Hrate Hn)
    as [-> Hout].
  split; [apply Hout; discriminate|]. split.
  - now rewrite len_app, len_wav_header, len_pcm16.
  - now apply read_written_file.
Qed.

(** X20. A run of the generator script, with a sine that stays in
    [-1, 1]: [main] returns after writing four files and no other,
    [work_start.wav], [rest_start.wav], [long_rest_start.wav] and
    [warning.wav] in that order, under [../data/audio] beside the
    script; they are 19244, 12844, 22444 and 9644 bytes long and
    [read_wav_header] reads each of them as PCM, mono, 16 bits, 16000 Hz. *)
Theorem main_writes_four_sounds (libm_sin : spec_float -> spec_float)
    (script_path : string) :
  sin_in_unit_range libm_sin ->
  let output_dir :=
    os_path.join (os_path.dirname script_path)
                 [".."; "data"; "audio"]%string in
  exists work rest long warn,
    main libm_sin script_path
    = ([(os_path.join output_dir ["work_start.wav"%string], work);
        (os_path.join output_dir ["rest_start.wav"%string], rest);
        (os_path.join output_dir ["long_rest_start.wav"%string], long);
        (os_path.join output_dir ["warning.wav"%string], warn)], Ok tt) /\
    len work = 19244 /\ len rest = 12844 /\ len long = 22444 /\
    len warn = 9644 /\
    Forall (fun content =>
              wav2array.read_wav_header content = Ok (pcm_mono_16 16000))
           [work; rest; long; warn].
Proof.
  intros Hsin output_dir.
  destruct (composers_return libm_sin Hsin)
    as (work & rest & long & warn & Ew & Er & El & Ea
        & Lw & Lr & Ll & La & Sw & Sr & Sl & Sa).
  unfold main. rewrite Ew, Er, El, Ea. fold output_dir. cbv zeta.
  cbn [write_sounds].
  destruct (write_sound (os_path.join output_dir ["work_start.wav"%string])
              work Sw) as (-> & Fw & Pw); [unfold max_samples; lia|].
  destruct (write_sound (os_path.join output_dir ["rest_start.wav"%string])
              rest Sr) as (-> & Fr & Pr); [unfold max_samples; lia|].
  destruct (write_sound (os_path.join output_dir ["long_rest_start.wav"%string])
              long Sl) as (-> & Fl & Pl); [unfold max_samples; lia|].
  destruct (write_sound (os_path.join output_dir ["warning.wav"%string])
              warn Sa) as (-> & Fa & Pa); [unfold max_samples; lia|].
  do 4 eexists. split; [reflexivity|].
  rewrite Fw, Fr, Fl, Fa, Lw, Lr, Ll, La.
  repeat split; auto.
Qed.

Lemma main_writes_four_sounds_witness :
  exists work rest long warn,
    main unit_clamp "tools/generate_sounds.py"
    = ([("tools/../data/audio/work_start.wav"%string, work);
        ("tools/../data/audio/rest_start.wav"%string, rest);
        ("tools/../data/audio/long_rest_start.wav"%string, long);
        ("tools/../data/audio/warning.wav"%string, warn)], Ok tt) /\
    len work = 19244 /\ len rest = 12844 /\ len long = 22444 /\
    len warn = 9644 /\
    Forall (fun content =>
              wav2array.read_wav_header content = Ok (pcm_mono_16 16000))
           [work; rest; long; warn].
Proof.
  exact (main_writes_four_sounds unit_clamp "tools/generate_sounds.py"
           unit_clamp_in_unit_range).
Defined.

End Composers.
